(** * SpanielObserver: a shallow embedding of [src/spaniel-observer.ts]

    The observer is a single-threaded, event-driven object.  Its mutable
    fields, the record objects it allocates, the host's pending timers and
    the deferred work it schedules are gathered in one [World] value and
    every method is a function on worlds.

    The record objects live in a heap and are named by their address:
    a record taken out of the store by [unobserve], or replaced in it by
    a second [observe], is still reached by the closures that captured it.
    Times and durations are integers (milliseconds), ratios are rationals.
    A method that raises a [TypeError] returns [None].  The caller's
    callback and the intersection primitive are outputs, recorded in
    [calls]; they do not call back into the observer while they run. *)

From Stdlib Require Import QArith.
From stdpp Require Import gmap strings list fin_maps.

Local Close Scope Q_scope.
Local Open Scope Z_scope.

(** ** Data model *)

(** A tracked DOM element.  Only its identity matters to the observer. *)
Definition SpanielTrackedElement := nat.

(** The value of an element's [__spanielId] property. *)
Definition Token := nat.

(** The caller's opaque payload ([any]; [null] when omitted). *)
Definition Payload := option nat.

Record DOMRect := mkRect {
  x : Z; y : Z; width : Z; height : Z
}.

(** [let emptyRect = { x: 0, y: 0, width: 0, height: 0 }] *)
Definition emptyRect : DOMRect := mkRect 0 0 0 0.

Record SpanielThreshold := mkThreshold {
  label : string;
  ratio : Q;
  time : option Z            (* [time?: number], milliseconds *)
}.

Record IntersectionObserverEntry := mkIOE {
  intersectionRatio : Q;
  ioe_time : Z;
  rootBounds : DOMRect;
  boundingClientRect : DOMRect;
  intersectionRect : DOMRect;
  target : SpanielTrackedElement
}.

Record SpanielObserverEntry := mkSOE {
  se_intersectionRatio : Q;
  se_time : Z;
  se_rootBounds : DOMRect;
  se_boundingClientRect : DOMRect;
  se_intersectionRect : DOMRect;
  se_target : SpanielTrackedElement;
  duration : Z;
  entering : option bool;    (* [null] until a branch assigns it *)
  se_payload : Payload;
  se_label : string
}.

Record SpanielThresholdState := mkState {
  lastSatisfied : bool;
  lastEntry : option IntersectionObserverEntry;
  threshold : SpanielThreshold;
  lastVisible : option Z;    (* [null] until a time threshold rises *)
  visible : bool;
  timeoutId : option nat     (* [undefined] until a timer is set *)
}.

Record SpanielRecord := mkRecord {
  rec_target : SpanielTrackedElement;
  rec_payload : Payload;
  thresholdStates : list SpanielThresholdState;
  lastSeenEntry : option IntersectionObserverEntry
}.

(** JavaScript's [ToNumber] on a [number | null] operand of [-]:
    [null] counts as [0]. *)
Definition toNumber (v : option Z) : Z := default 0 v.

(** [!!state.threshold.time]: [undefined] and [0] are falsy. *)
Definition hasTimeThreshold (t : SpanielThreshold) : bool :=
  match time t with
  | Some ms => negb (ms =? 0)
  | None => false
  end.

(** Modelled from the spec: [entrySatisfiesRatio] is imported from
    [./intersection-observer], which is not among the sources; the spec
    gives it as [rawSample.ratio >= threshold.ratio], boundary-inclusive. *)
Definition entrySatisfiesRatio (entry : IntersectionObserverEntry) (r : Q) : bool :=
  Qle_bool r (intersectionRatio entry).

(** ** [Array.prototype.sort] with the constructor's comparator *)

Module ArraySort.
Section Engine.
Context {A : Type}.
Variable comparefn : A → A → Q.

(** The inner loop of an insertion sort that scans the sorted prefix
    from its right end, the prefix being held last element first:
    [tmp = a[j]; order = comparefn(tmp, element);
     if (order > 0) a[j + 1] = tmp; else break;]. *)
Fixpoint insertFromRight (element : A) (prefix_rev : list A) : list A :=
  match prefix_rev with
  | [] => [element]
  | tmp :: rest =>
      if Qlt_le_dec 0 (comparefn tmp element)
      then tmp :: insertFromRight element rest
      else element :: prefix_rev
  end.

(** Insertion sort as script engines run it on short arrays. *)
Definition InsertionSort (a : list A) : list A :=
  rev (foldl (λ acc element, insertFromRight element acc) [] a).

(** Any deterministic comparison sort on arrays of one length: a tree
    of comparisons between input positions, whose leaves list the input
    positions in output order. *)
Inductive Sorter : Type :=
| Emit (positions : list nat)
| Compare (i j : nat) (negative zero positive : Sorter).

Fixpoint runSorter (s : Sorter) (a : list A) : list A :=
  match s with
  | Emit positions => omap (λ k, a !! k) positions
  | Compare i j neg zero pos =>
      match a !! i, a !! j with
      | Some u, Some v =>
          match comparefn u v ?= 0 with
          | Lt => runSorter neg a
          | Eq => runSorter zero a
          | Gt => runSorter pos a
          end%Q
      | _, _ => a
      end
  end.
End Engine.
End ArraySort.

(** The comparator the constructor passes: [(t) => t.ratio].  It ignores
    its second argument. *)
Definition thresholdComparator (t _ : SpanielThreshold) : Q := ratio t.

(** Ascending by ratio. *)
Fixpoint ascendingByRatio (l : list SpanielThreshold) : bool :=
  match l with
  | a :: (b :: _) as rest => Qle_bool (ratio a) (ratio b) && ascendingByRatio rest
  | _ => true
  end.

(** ** The observer's world *)

(** What the observer calls on its collaborators: the caller's callback
    and the intersection primitive [this.observer]. *)
Inductive Call :=
| callback (entries : list SpanielObserverEntry)
| observer_observe (el : SpanielTrackedElement)
| observer_unobserve (el : SpanielTrackedElement)
| observer_reset
| observer_disconnect.

(** A pending [setTimeout] closure of [handleObserverEntry].  It captures
    the state object (the record's address and the state's index in
    [thresholdStates]) and the [spanielEntry] built for the sample.  The
    host keeps the time of the [setTimeout] call and the delay asked for. *)
Record Timer := mkTimer {
  tm_rec : nat;
  tm_idx : nat;
  tm_entry : SpanielObserverEntry;
  tm_set : Z;
  tm_delay : Z
}.

(** The host runs a timer no earlier than its delay after the call that
    set it; a negative delay counts as [0]. *)
Definition tm_due (t : Timer) : Z := tm_set t + Z.max 0 (tm_delay t).

Record World := mkWorld {
  (* fields of the SpanielObserver instance *)
  paused : bool;
  queuedEntries : list SpanielObserverEntry;
  recordStore : list (Token * nat);   (* key to record address, in insertion order *)
  thresholds : list SpanielThreshold;
  (* record objects, by address; an object is never freed or moved *)
  heap : list SpanielRecord;
  (* the host: pending timers, deferred work, element properties *)
  timers : gmap nat Timer;
  nextTimer : nat;
  work : list nat;                    (* [scheduleWork] closures: the record captured *)
  spanielIds : gmap SpanielTrackedElement Token;
  nextToken : Token;
  hasDOM : bool;                      (* [w.hasDOM] *)
  (* every call made so far, oldest first *)
  calls : list Call
}.

Definition set_paused (b : bool) (w : World) : World :=
  mkWorld b (queuedEntries w) (recordStore w) (thresholds w) (heap w) (timers w)
    (nextTimer w) (work w) (spanielIds w) (nextToken w) (hasDOM w) (calls w).

Definition set_queuedEntries (q : list SpanielObserverEntry) (w : World) : World :=
  mkWorld (paused w) q (recordStore w) (thresholds w) (heap w) (timers w)
    (nextTimer w) (work w) (spanielIds w) (nextToken w) (hasDOM w) (calls w).

Definition set_recordStore (s : list (Token * nat)) (w : World) : World :=
  mkWorld (paused w) (queuedEntries w) s (thresholds w) (heap w) (timers w)
    (nextTimer w) (work w) (spanielIds w) (nextToken w) (hasDOM w) (calls w).

Definition set_heap (h : list SpanielRecord) (w : World) : World :=
  mkWorld (paused w) (queuedEntries w) (recordStore w) (thresholds w) h (timers w)
    (nextTimer w) (work w) (spanielIds w) (nextToken w) (hasDOM w) (calls w).

Definition set_timers (t : gmap nat Timer) (n : nat) (w : World) : World :=
  mkWorld (paused w) (queuedEntries w) (recordStore w) (thresholds w) (heap w) t
    n (work w) (spanielIds w) (nextToken w) (hasDOM w) (calls w).

Definition set_work (k : list nat) (w : World) : World :=
  mkWorld (paused w) (queuedEntries w) (recordStore w) (thresholds w) (heap w) (timers w)
    (nextTimer w) k (spanielIds w) (nextToken w) (hasDOM w) (calls w).

Definition set_spanielIds (ids : gmap SpanielTrackedElement Token) (n : Token) (w : World) : World :=
  mkWorld (paused w) (queuedEntries w) (recordStore w) (thresholds w) (heap w) (timers w)
    (nextTimer w) (work w) ids n (hasDOM w) (calls w).

Definition call (c : Call) (w : World) : World :=
  mkWorld (paused w) (queuedEntries w) (recordStore w) (thresholds w) (heap w) (timers w)
    (nextTimer w) (work w) (spanielIds w) (nextToken w) (hasDOM w) (calls w ++ [c]).

(** *** The record store, a JavaScript object used as a map

    The keys are tokens, strings that are not array indices, so
    [Object.keys] lists them in the order they were added. *)

Fixpoint store_get (k : Token) (s : list (Token * nat)) : option nat :=
  match s with
  | [] => None
  | (k', a) :: s' => if decide (k = k') then Some a else store_get k s'
  end.

(** [store[k] = a]: an existing key keeps its place, a new one goes last. *)
Fixpoint store_set (k : Token) (a : nat) (s : list (Token * nat)) : list (Token * nat) :=
  match s with
  | [] => [(k, a)]
  | (k', a') :: s' =>
      if decide (k = k') then (k, a) :: s' else (k', a') :: store_set k a s'
  end.

(** [delete store[k]] *)
Definition store_delete (k : Token) (s : list (Token * nat)) : list (Token * nat) :=
  filter (λ p, p.1 ≠ k) s.

(** [this.recordStore[element.__spanielId]]: the record's address and the
    record.  An element without the property reads key [undefined], which
    no record is stored under. *)
Definition recordOf (w : World) (el : SpanielTrackedElement) : option (nat * SpanielRecord) :=
  id ← spanielIds w !! el;
  a ← store_get id (recordStore w);
  r ← heap w !! a;
  Some (a, r).

(** *** State objects, reached through their record *)

Definition stateAt (a i : nat) (w : World) : option SpanielThresholdState :=
  r ← heap w !! a; thresholdStates r !! i.

Definition with_states (sts : list SpanielThresholdState) (r : SpanielRecord) : SpanielRecord :=
  mkRecord (rec_target r) (rec_payload r) sts (lastSeenEntry r).

Definition with_lastSeenEntry (e : option IntersectionObserverEntry) (r : SpanielRecord) : SpanielRecord :=
  mkRecord (rec_target r) (rec_payload r) (thresholdStates r) e.

Definition writeState (a i : nat) (st : SpanielThresholdState) (w : World) : World :=
  set_heap (alter (λ r, with_states (<[i := st]> (thresholdStates r)) r) a (heap w)) w.

Definition writeLastSeenEntry (a : nat) (e : option IntersectionObserverEntry) (w : World) : World :=
  set_heap (alter (with_lastSeenEntry e) a (heap w)) w.

Definition numStates (a : nat) (w : World) : nat :=
  from_option (λ r, length (thresholdStates r)) 0%nat (heap w !! a).

(** [record.thresholdStates.forEach(body)] for the record at address [a]:
    the body reads the state object, may change it and the world, and the
    changed state is what later iterations and later events see.  An
    index below the length of the array always reads a state. *)
Definition forEachState (a : nat)
    (body : nat → SpanielThresholdState → World → SpanielThresholdState * World)
    (w : World) : World :=
  foldl (λ w i,
           match stateAt a i w with
           | Some st => let '(st', w') := body i st w in writeState a i st' w'
           | None => w
           end) w (seq 0 (numStates a w)).

(** *** The host's timers *)

(** [setTimeout(closure, delay)] called at wall-clock time [now]: the host
    hands out a fresh id. *)
Definition setTimeout (rec_addr idx : nat) (entry : SpanielObserverEntry) (delay now : Z)
    (w : World) : nat * World :=
  let id := nextTimer w in
  (id, set_timers (<[id := mkTimer rec_addr idx entry now delay]> (timers w)) (S id) w).

(** [clearTimeout(id)]: nothing happens for [undefined] or for an id whose
    timer has run or was cleared. *)
Definition clearTimeout (id : option nat) (w : World) : World :=
  match id with
  | Some i => set_timers (delete i (timers w)) (nextTimer w) w
  | None => w
  end.

(** ** The observer's methods *)

(** [this.queuedEntries.push(e)] *)
Definition push (e : SpanielObserverEntry) (w : World) : World :=
  set_queuedEntries (queuedEntries w ++ [e]) w.

Definition flushQueuedEntries (w : World) : World :=
  match queuedEntries w with
  | [] => w
  | _ :: _ => set_queuedEntries [] (call (callback (queuedEntries w)) w)
  end.

(** [record] is [this.recordStore[target.__spanielId]], the record
    [handleObserverEntry] has just read under the same key. *)
Definition generateSpanielEntry (record : SpanielRecord)
    (entry : IntersectionObserverEntry) (state : SpanielThresholdState)
    : SpanielObserverEntry :=
  {| se_intersectionRatio := intersectionRatio entry;
     se_time := ioe_time entry;
     se_rootBounds := rootBounds entry;
     se_boundingClientRect := boundingClientRect entry;
     se_intersectionRect := intersectionRect entry;
     se_target := target entry;
     duration := 0;
     entering := None;
     se_payload := rec_payload record;
     se_label := label (threshold state) |}.

Definition with_duration (d : Z) (e : SpanielObserverEntry) : SpanielObserverEntry :=
  mkSOE (se_intersectionRatio e) (se_time e) (se_rootBounds e) (se_boundingClientRect e)
    (se_intersectionRect e) (se_target e) d (entering e) (se_payload e) (se_label e).

Definition with_entering (b : bool) (e : SpanielObserverEntry) : SpanielObserverEntry :=
  mkSOE (se_intersectionRatio e) (se_time e) (se_rootBounds e) (se_boundingClientRect e)
    (se_intersectionRect e) (se_target e) (duration e) (Some b) (se_payload e) (se_label e).

Definition with_visible (b : bool) (s : SpanielThresholdState) : SpanielThresholdState :=
  mkState (lastSatisfied s) (lastEntry s) (threshold s) (lastVisible s) b (timeoutId s).

Definition with_lastVisible (t : Z) (s : SpanielThresholdState) : SpanielThresholdState :=
  mkState (lastSatisfied s) (lastEntry s) (threshold s) (Some t) (visible s) (timeoutId s).

Definition with_timeoutId (id : nat) (s : SpanielThresholdState) : SpanielThresholdState :=
  mkState (lastSatisfied s) (lastEntry s) (threshold s) (lastVisible s) (visible s) (Some id).

Definition with_last (e : option IntersectionObserverEntry) (sat : bool)
    (s : SpanielThresholdState) : SpanielThresholdState :=
  mkState sat e (threshold s) (lastVisible s) (visible s) (timeoutId s).

(** The guard of [handleThresholdExiting]:
    [state.lastSatisfied && (!hasTimeThreshold || (hasTimeThreshold && state.visible))]. *)
Definition confirmedVisible (state : SpanielThresholdState) : bool :=
  lastSatisfied state
  && (negb (hasTimeThreshold (threshold state))
      || (hasTimeThreshold (threshold state) && visible state)).

Definition handleThresholdExiting (spanielEntry : SpanielObserverEntry)
    (state : SpanielThresholdState) (w : World) : SpanielThresholdState * World :=
  let time := se_time spanielEntry in
  let '(state1, w1) :=
    if confirmedVisible state then
      (with_visible false state,
       push (with_entering false
               (with_duration (time - toNumber (lastVisible state)) spanielEntry)) w)
    else (state, w) in
  (state1, clearTimeout (timeoutId state1) w1).

(** The entry [handleRecordExiting] builds for one state. *)
Definition exitingEntry (record : SpanielRecord) (time : Z)
    (state : SpanielThresholdState) : SpanielObserverEntry :=
  {| se_intersectionRatio := (-1)%Q;
     se_time := time;
     se_rootBounds := emptyRect;
     se_boundingClientRect := emptyRect;
     se_intersectionRect := emptyRect;
     se_target := rec_target record;
     duration := time - toNumber (lastVisible state);
     entering := Some false;
     se_payload := rec_payload record;
     se_label := label (threshold state) |}.

(** The body of the [forEach] in [handleRecordExiting]. *)
Definition exitState (record : SpanielRecord) (time : Z) (_ : nat)
    (state : SpanielThresholdState) (w : World) : SpanielThresholdState * World :=
  let '(state1, w1) := handleThresholdExiting (exitingEntry record time state) state w in
  (with_visible false (with_last None false state1), w1).

Definition handleRecordExiting (a : nat) (time : Z) (w : World) : World :=
  match heap w !! a with
  | Some record => forEachState a (exitState record time) w
  | None => w
  end.

(** The body of the [forEach] in [handleObserverEntry], run at wall-clock
    time [now] for the state at index [i] of the record at address [a]. *)
Definition processState (now : Z) (entry : IntersectionObserverEntry)
    (record : SpanielRecord) (a i : nat)
    (state : SpanielThresholdState) (w : World) : SpanielThresholdState * World :=
  let sampleTime := ioe_time entry in
  let spanielEntry := generateSpanielEntry record entry state in
  let ratioSatisfied := entrySatisfiesRatio entry (ratio (threshold state)) in
  let '(state1, w1) :=
    if ratioSatisfied && negb (lastSatisfied state) then
      let spanielEntry := with_entering true spanielEntry in
      if hasTimeThreshold (threshold state) then
        let state := with_lastVisible sampleTime state in
        let '(id, w) :=
          setTimeout a i spanielEntry (toNumber (time (threshold state))) now w in
        (with_timeoutId id state, w)
      else (with_visible true state, push spanielEntry w)
    else if negb ratioSatisfied then handleThresholdExiting spanielEntry state w
    else (state, w) in
  (with_last (Some entry) ratioSatisfied state1, w1).

(** [handleObserverEntry(entry)] at wall-clock time [now].  [None] is the
    [TypeError] of [record.lastSeenEntry = entry] when no record is stored
    for the sample's target; it is raised before anything is changed. *)
Definition handleObserverEntry (now : Z) (entry : IntersectionObserverEntry)
    (w : World) : option World :=
  match recordOf w (target entry) with
  | None => None
  | Some (a, record) =>
      let w := writeLastSeenEntry a (Some entry) w in
      if paused w then Some w
      else Some (flushQueuedEntries (forEachState a (processState now entry record a) w))
  end.

(** [records.forEach(this.handleObserverEntry.bind(this))] *)
Definition internalCallback (now : Z) (records : list IntersectionObserverEntry)
    (w : World) : option World :=
  foldl (λ ow entry, w ← ow; handleObserverEntry now entry w) (Some w) records.

(** The loop of [setAllHidden] visits the stored records in key order;
    the store does not change while it runs. *)
Definition setAllHidden (now : Z) (w : World) : World :=
  let w1 := foldl (λ w p, handleRecordExiting p.2 now w) w (recordStore w) in
  call observer_reset (flushQueuedEntries w1).

Definition onTabHidden (now : Z) (w : World) : World :=
  setAllHidden now (set_paused true w).

Definition onWindowClosed (now : Z) (w : World) : World :=
  onTabHidden now w.

(** [entry.time = time] *)
Definition restamp (now : Z) (e : IntersectionObserverEntry) : IntersectionObserverEntry :=
  mkIOE (intersectionRatio e) now (rootBounds e) (boundingClientRect e)
    (intersectionRect e) (target e).

(** One iteration of the loop of [onTabShown], for the record at [a].
    The assignment to [entry.time] is seen through [lastSeenEntry], which
    holds the same object.  So do the [lastEntry] fields of the record's
    states that hold it, and [handleObserverEntry] assigns the object to
    each of them again right away, which is why states can hold the
    sample by value. *)
Definition reevaluate (now : Z) (a : nat) (w : World) : option World :=
  match heap w !! a with
  | Some record =>
      match lastSeenEntry record with
      | Some entry =>
          let entry := restamp now entry in
          handleObserverEntry now entry (writeLastSeenEntry a (Some entry) w)
      | None => Some w
      end
  | None => Some w
  end.

Definition onTabShown (now : Z) (w : World) : option World :=
  let w := set_paused false w in
  foldl (λ ow p, w ← ow; reevaluate now p.2 w) (Some w) (recordStore w).

Definition disconnect (now : Z) (w : World) : World :=
  set_recordStore [] (call observer_disconnect (setAllHidden now w)).

Definition unobserve (element : SpanielTrackedElement) (w : World) : World :=
  match recordOf w element with
  | Some (a, _) =>
      let w := match spanielIds w !! element with
               | Some id => set_recordStore (store_delete id (recordStore w)) w
               | None => w
               end in
      let w := call (observer_unobserve element) w in
      set_work (work w ++ [a]) w
  | None => w
  end.

(** Modelled from the spec: [generateToken] is imported from
    [./metal/index], which is not among the sources; the spec gives it as
    producing a unique opaque token on demand. *)
Definition generateToken (w : World) : Token * World :=
  (nextToken w, set_spanielIds (spanielIds w) (S (nextToken w)) w).

Definition freshState (t : SpanielThreshold) : SpanielThresholdState :=
  {| lastSatisfied := false; lastEntry := None; threshold := t;
     visible := false; lastVisible := None; timeoutId := None |}.

Definition observe (target : SpanielTrackedElement) (payload : Payload)
    (w : World) : Token * World :=
  let '(id, w) :=
    match spanielIds w !! target with
    | Some id => (id, w)
    | None => generateToken w
    end in
  let w := set_spanielIds (<[target := id]> (spanielIds w)) (nextToken w) w in
  let a := length (heap w) in
  let record :=
    {| rec_target := target; rec_payload := payload; lastSeenEntry := None;
       thresholdStates := (freshState <$> thresholds w) |} in
  let w := set_recordStore (store_set id a (recordStore w)) (set_heap (heap w ++ [record]) w) in
  (id, call (observer_observe target) w).

(** The deferred closure of [unobserve], run by the scheduler at [now]:
    [handleRecordExiting(record)] takes [Date.now()] as its time. *)
Definition runWork (now : Z) (a : nat) (w : World) : World :=
  flushQueuedEntries (handleRecordExiting a now w).

(** The timer closure of [handleObserverEntry], run by the host at [now]:
    [state.visible = true; spanielEntry.duration = Date.now() - state.lastVisible;
     this.callback([spanielEntry])]. *)
Definition timerBody (now : Z) (t : Timer) (w : World) : World :=
  match stateAt (tm_rec t) (tm_idx t) w with
  | Some state =>
      let w := writeState (tm_rec t) (tm_idx t) (with_visible true state) w in
      call (callback [with_duration (now - toNumber (lastVisible state)) (tm_entry t)]) w
  | None => w
  end.

(** The constructor.  [sort] is the script engine's
    [Array.prototype.sort]; an omitted [threshold] option makes
    [threshold.sort] raise ([None]). *)
Definition construct
    (sort : (SpanielThreshold → SpanielThreshold → Q) → list SpanielThreshold → list SpanielThreshold)
    (dom : bool) (threshold : option (list SpanielThreshold)) : option World :=
  match threshold with
  | None => None
  | Some ts =>
      Some {| paused := false; queuedEntries := []; recordStore := [];
              thresholds := sort thresholdComparator ts;
              heap := []; timers := ∅; nextTimer := 0%nat; work := [];
              spanielIds := ∅; nextToken := 0%nat; hasDOM := dom; calls := [] |}
  end.

(** ** Events *)

(** What can happen to an observer: a method call by its owner, a batch of
    samples from the intersection primitive, a page signal, a timer coming
    due, the scheduler running a deferred closure. *)
Inductive Event :=
| Observe (el : SpanielTrackedElement) (payload : Payload)
| Unobserve (el : SpanielTrackedElement)
| Disconnect
| Samples (records : list IntersectionObserverEntry)
| PageHidden
| PageShown
| PageUnloaded
| TimerFires (id : nat)
| WorkRuns (k : nat).

(** One event at wall-clock time [now].  [None]: the handler raises, or the
    host cannot produce the event (a timer that is not pending or not yet
    due, a closure that is not scheduled).  The page signals reach the
    observer only when it subscribed, that is when [w.hasDOM]. *)
Definition step (now : Z) (ev : Event) (w : World) : option World :=
  match ev with
  | Observe el payload => Some (observe el payload w).2
  | Unobserve el => Some (unobserve el w)
  | Disconnect => Some (disconnect now w)
  | Samples records => internalCallback now records w
  | PageHidden => if hasDOM w then Some (onTabHidden now w) else Some w
  | PageUnloaded => if hasDOM w then Some (onWindowClosed now w) else Some w
  | PageShown => if hasDOM w then onTabShown now w else Some w
  | TimerFires id =>
      match timers w !! id with
      | Some t =>
          if decide (tm_due t ≤ now)
          then Some (timerBody now t (set_timers (delete id (timers w)) (nextTimer w) w))
          else None
      | None => None
      end
  | WorkRuns k =>
      match work w !! k with
      | Some a => Some (runWork now a (set_work (delete k (work w)) w))
      | None => None
      end
  end.

(** A run: events with their times, oldest first. *)
Fixpoint run (evs : list (Z * Event)) (w : World) : option World :=
  match evs with
  | [] => Some w
  | (now, ev) :: rest => w' ← step now ev w; run rest w'
  end.

(** ** Vocabulary of the proofs: invariants, what loops emit, histories,
    sample worlds *)

(** What a loop body may touch: the queue, the timers and the calls.  The
    heap, the store and the other fields are left alone. *)
Definition sameObjects (w w' : World) : Prop :=
  heap w' = heap w ∧ recordStore w' = recordStore w ∧ spanielIds w' = spanielIds w
  ∧ paused w' = paused w ∧ thresholds w' = thresholds w ∧ work w' = work w
  ∧ hasDOM w' = hasDOM w ∧ nextToken w' = nextToken w.

(** What a pending timer knows about the state object it captured. *)
Definition timerMatches (st : SpanielThresholdState) (id : nat) (t : Timer) : Prop :=
  timeoutId st = Some id
  ∧ lastSatisfied st = true
  ∧ visible st = false
  ∧ hasTimeThreshold (threshold st) = true
  ∧ tm_delay t = toNumber (time (threshold st))
  ∧ lastVisible st = Some (se_time (tm_entry t))
  ∧ entering (tm_entry t) = Some true.

Definition timersOk (w : World) : Prop :=
  ∀ id t, timers w !! id = Some t →
    (id < nextTimer w)%nat
    ∧ ∃ st, stateAt (tm_rec t) (tm_idx t) w = Some st ∧ timerMatches st id t.

Definition visibleOk (w : World) : Prop :=
  ∀ a i st, stateAt a i w = Some st → visible st = true → lastSatisfied st = true.

(** Every stored key leads to a live record whose target carries that key
    as its [__spanielId], and so does the target of the record's last seen
    sample. *)
Definition storeOk (w : World) : Prop :=
  NoDup (recordStore w).*1
  ∧ ∀ k a, (k, a) ∈ recordStore w →
      ∃ r, heap w !! a = Some r
           ∧ spanielIds w !! rec_target r = Some k
           ∧ ∀ e, lastSeenEntry r = Some e → spanielIds w !! target e = Some k.

(** What of a record the loops over its states never change. *)
Definition shape (r : SpanielRecord) :=
  (rec_target r, rec_payload r, lastSeenEntry r, length (thresholdStates r)).

Definition sameShape (w w' : World) : Prop :=
  recordStore w' = recordStore w ∧ spanielIds w' = spanielIds w
  ∧ paused w' = paused w ∧ thresholds w' = thresholds w ∧ work w' = work w
  ∧ hasDOM w' = hasDOM w ∧ nextToken w' = nextToken w
  ∧ shape <$> heap w' = shape <$> heap w.

Definition Inv (w : World) : Prop :=
  timersOk w ∧ visibleOk w ∧ storeOk w ∧ queuedEntries w = [].

(** The entries [handleThresholdExiting] queues for a state. *)
Definition exitOut (e : SpanielObserverEntry) (st : SpanielThresholdState)
    : list SpanielObserverEntry :=
  if confirmedVisible st
  then [with_entering false (with_duration (se_time e - toNumber (lastVisible st)) e)]
  else [].

(** What one sample makes one state queue. *)
Definition sampleOut (entry : IntersectionObserverEntry) (record : SpanielRecord)
    (st : SpanielThresholdState) : list SpanielObserverEntry :=
  let spanielEntry := generateSpanielEntry record entry st in
  if entrySatisfiesRatio entry (ratio (threshold st)) then
    if lastSatisfied st then []
    else if hasTimeThreshold (threshold st) then []
         else [with_entering true spanielEntry]
  else exitOut spanielEntry st.


Definition sampleAt (el : SpanielTrackedElement) (r : Q) (t : Z) : IntersectionObserverEntry :=
  mkIOE r t (mkRect 0 0 1024 768) (mkRect 0 100 200 100) (mkRect 0 100 200 60) el.

Definition halfVisible : SpanielThreshold := mkThreshold "50pct" (1 # 2) None.

Definition viewable : SpanielThreshold := mkThreshold "viewable" (1 # 2) (Some 1000).

Definition noWorld : World :=
  mkWorld false [] [] [] [] ∅ 0%nat [] ∅ 0%nat false [].

(** An observer in a page, built with thresholds [ts], after events [evs]. *)
Definition worldAfter (ts : list SpanielThreshold) (evs : list (Z * Event)) : World :=
  default noWorld (w ← construct ArraySort.InsertionSort true (Some ts); run evs w).

(** The exit entries a forced exit at [time] queues for a record: one for
    each state that is confirmed visible, in the order of the states. *)
Definition forcedExits (time : Z) (r : SpanielRecord) : list SpanielObserverEntry :=
  flat_map (λ st, if confirmedVisible st then [exitingEntry r time st] else [])
    (thresholdStates r).

(** The exit entries hiding the page at [time] queues: those of every
    stored record, in key order. *)
Definition hiddenBatch (time : Z) (w : World) : list SpanielObserverEntry :=
  flat_map (λ p : Token * nat, from_option (forcedExits time) [] (heap w !! p.2))
    (recordStore w).

(** A state after a forced exit. *)
Definition isReset (st : SpanielThresholdState) : Prop :=
  lastSatisfied st = false ∧ visible st = false ∧ lastEntry st = None.

(** Every state object of the heap satisfies [φ]. *)
Definition allStates (φ : SpanielThresholdState → Prop) (w : World) : Prop :=
  ∀ a i st, stateAt a i w = Some st → φ st.

(** A state of a threshold without a time has never had [lastVisible]
    assigned. *)
Definition lastVisibleUnset (st : SpanielThresholdState) : Prop :=
  hasTimeThreshold (threshold st) = false → lastVisible st = None.


Definition quarter : SpanielThreshold := mkThreshold "25pct" (1 # 4) None.

Definition threeQuarters : SpanielThreshold := mkThreshold "75pct" (3 # 4) None.

Definition swapQuarters (t : SpanielThreshold) : SpanielThreshold :=
  if String.eqb (label t) "25pct" then threeQuarters else quarter.

(** While the observer is paused nothing of a stored record is live: its
    states are reset and no timer is pending on it. *)
Definition pausedOk (w : World) : Prop :=
  paused w = true →
  (∀ k a i st, (k, a) ∈ recordStore w → stateAt a i w = Some st → isReset st)
  ∧ (∀ id t, timers w !! id = Some t → tm_rec t ∉ (recordStore w).*2).

(** What the owner's callback is handed: a batch that is not empty, of
    entries whose [entering] has been assigned. *)
Definition deliveredOk (c : Call) : Prop :=
  match c with
  | callback batch => batch ≠ [] ∧ ∀ e, e ∈ batch → is_Some (entering e)
  | _ => True
  end.

(** What the fields of a state object say about each other. *)
Definition stateCoherent (st : SpanielThresholdState) : Prop :=
  lastSatisfied st
  = from_option (λ e, entrySatisfiesRatio e (ratio (threshold st))) false (lastEntry st)
  ∧ (hasTimeThreshold (threshold st) = true → lastSatisfied st = true →
     is_Some (lastVisible st))
  ∧ (is_Some (timeoutId st) → hasTimeThreshold (threshold st) = true)
  ∧ (is_Some (timeoutId st) → is_Some (lastVisible st)).

(** Every record object carries one state for each threshold [ths] of the
    observer, in their order. *)
Definition statesFollow (ths : list SpanielThreshold) (w : World) : Prop :=
  thresholds w = ths
  ∧ ∀ a r, heap w !! a = Some r → threshold <$> thresholdStates r = ths.

(** A timer id held by a state object is one the host has handed out, and
    a timer pending under it is the one that state set. *)
Definition namesOk (w : World) : Prop :=
  ∀ a i st id, stateAt a i w = Some st → timeoutId st = Some id →
    (id < nextTimer w)%nat
    ∧ ∀ t, timers w !! id = Some t → tm_rec t = a ∧ tm_idx t = i.

(** The sample [e] starts a dwell on the state [st]. *)
Definition risingWithTime (e : IntersectionObserverEntry) (st : SpanielThresholdState) : bool :=
  entrySatisfiesRatio e (ratio (threshold st)) && negb (lastSatisfied st)
  && hasTimeThreshold (threshold st).

(** The call showing the page at [now] makes for one stored record: its
    last seen sample, stamped [now], is evaluated again, and what that
    queues is delivered as one batch. *)
Definition shownBatch (now : Z) (w : World) (p : Token * nat) : list Call :=
  match heap w !! p.2 with
  | Some r =>
      match lastSeenEntry r with
      | Some e =>
          match flat_map (sampleOut (restamp now e) r) (thresholdStates r) with
          | [] => []
          | x :: l => [callback (x :: l)]
          end
      | None => []
      end
  | None => []
  end.

(** A record object nothing refers to any more: it is not in the store,
    no deferred exit is scheduled for it and no timer is pending on it. *)
Definition retired (a : nat) (w : World) : Prop :=
  is_Some (heap w !! a) ∧ (a ∉ (recordStore w).*2) ∧ (a ∉ work w)
  ∧ ∀ id t, timers w !! id = Some t → tm_rec t ≠ a.

(** * Proofs *)

(** ** Basic facts about the store and about state objects *)

Lemma store_get_elem_of k a s : store_get k s = Some a → (k, a) ∈ s.
Proof.
  induction s as [|[k' a'] s IH]; cbn [store_get]; [done|].
  case_decide; intros; simplify_eq; set_solver.
Qed.

Lemma elem_of_store_get k a s : NoDup s.*1 → (k, a) ∈ s → store_get k s = Some a.
Proof.
  induction s as [|[k' a'] s IH]; cbn [store_get fmap list_fmap fst]; intros Hnd Hin.
  - by apply elem_of_nil in Hin.
  - apply NoDup_cons in Hnd as [Hk Hnd].
    apply elem_of_cons in Hin as [Heq | Hin]; simplify_eq.
    + by case_decide.
    + case_decide as Hkk.
      * subst k'. exfalso. apply Hk. apply list_elem_of_fmap. by exists (k, a).
      * auto.
Qed.

Lemma store_set_keys k a s :
  (store_set k a s).*1 = if decide (k ∈ s.*1) then s.*1 else s.*1 ++ [k].
Proof.
  induction s as [|[k' a'] s IH]; cbn [store_set fmap list_fmap fst].
  - destruct (decide (k ∈ [])) as [H|H]; [by apply elem_of_nil in H | done].
  - destruct (decide (k = k')) as [->|Hk]; cbn [fmap list_fmap fst].
    + destruct (decide (k' ∈ k' :: s.*1)) as [H|H]; [done | set_solver].
    + rewrite IH. destruct (decide (k ∈ s.*1)) as [Hin | Hin].
      * destruct (decide (k ∈ k' :: s.*1)) as [H|H]; [done | set_solver].
      * destruct (decide (k ∈ k' :: s.*1)) as [H|H]; [set_solver | done].
Qed.

Lemma store_set_NoDup k a s : NoDup s.*1 → NoDup (store_set k a s).*1.
Proof.
  intros Hnd. rewrite store_set_keys. case_decide; [done|].
  apply NoDup_app; split_and!; [done | | apply NoDup_singleton].
  intros k' Hin ->%list_elem_of_singleton. done.
Qed.

Lemma elem_of_store_set k a p s : p ∈ store_set k a s → p = (k, a) ∨ p ∈ s.
Proof.
  induction s as [|[k1 a1] s IH]; cbn [store_set]; [set_solver|].
  case_decide; set_solver.
Qed.

Lemma store_get_set k a s : store_get k (store_set k a s) = Some a.
Proof.
  induction s as [|[k1 a1] s IH]; cbn [store_get store_set fmap list_fmap fst]; repeat (case_decide; simpl); done.
Qed.

Lemma store_delete_NoDup k s : NoDup s.*1 → NoDup (store_delete k s).*1.
Proof.
  unfold store_delete. induction s as [|[k1 a1] s IH]; cbn [store_get store_set fmap list_fmap fst]; [done|].
  intros [Hk Hnd]%NoDup_cons. rewrite filter_cons. simpl.
  case_decide; simpl; [|auto].
  apply NoDup_cons; split; [|auto].
  intros [[k2 a2] [? Hin]]%list_elem_of_fmap; simplify_eq/=.
  apply list_elem_of_filter in Hin as [_ Hin].
  apply Hk, list_elem_of_fmap. by exists (k2, a2).
Qed.

Lemma store_get_delete k s : store_get k (store_delete k s) = None.
Proof.
  unfold store_delete. induction s as [|[k1 a1] s IH]; cbn [store_get store_set fmap list_fmap fst]; [done|].
  rewrite filter_cons. simpl. case_decide; simpl; [|done].
  by case_decide.
Qed.

Lemma stateAt_writeState_eq a i st w :
  is_Some (stateAt a i w) → stateAt a i (writeState a i st w) = Some st.
Proof.
  unfold stateAt, writeState. cbn [heap set_heap]. intros [st0 Hst].
  rewrite list_lookup_alter_eq.
  destruct (heap w !! a) as [r|]; simplify_eq/=.
  apply list_lookup_insert_eq. by eapply lookup_lt_Some.
Qed.

Lemma stateAt_writeState_ne a i st a' i' w :
  a' ≠ a ∨ i' ≠ i → stateAt a' i' (writeState a i st w) = stateAt a' i' w.
Proof.
  unfold stateAt, writeState. cbn [heap set_heap]. intros Hne.
  destruct (decide (a' = a)) as [->|Ha].
  - rewrite list_lookup_alter_eq.
    destruct (heap w !! a) as [r|]; simplify_eq/=; [|done].
    apply list_lookup_insert_ne. naive_solver.
  - by rewrite list_lookup_alter_ne.
Qed.

Lemma stateAt_writeLastSeenEntry a e a' i' w :
  stateAt a' i' (writeLastSeenEntry a e w) = stateAt a' i' w.
Proof.
  unfold stateAt, writeLastSeenEntry. cbn [heap set_heap].
  destruct (decide (a' = a)) as [->|Ha].
  - rewrite list_lookup_alter_eq. by destruct (heap w !! a).
  - by rewrite list_lookup_alter_ne.
Qed.

Lemma numStates_writeState a i st a' w :
  numStates a' (writeState a i st w) = numStates a' w.
Proof.
  unfold numStates, writeState. cbn [heap set_heap].
  destruct (decide (a' = a)) as [->|Ha].
  - rewrite list_lookup_alter_eq.
    destruct (heap w !! a) as [r|]; simpl; [|done]. by rewrite length_insert.
  - by rewrite list_lookup_alter_ne.
Qed.

Lemma stateAt_lt a i st w : stateAt a i w = Some st → (i < numStates a w)%nat.
Proof.
  unfold stateAt, numStates. destruct (heap w !! a) as [r|]; simpl; [|done].
  apply lookup_lt_Some.
Qed.

Lemma stateAt_is_Some a i w : (i < numStates a w)%nat → is_Some (stateAt a i w).
Proof.
  unfold stateAt, numStates. destruct (heap w !! a) as [r|]; simpl; [|lia].
  apply lookup_lt_is_Some_2.
Qed.

Lemma handleThresholdExiting_sameObjects e st w :
  sameObjects w (handleThresholdExiting e st w).2.
Proof.
  unfold handleThresholdExiting, clearTimeout.
  destruct (confirmedVisible st); simpl; destruct (timeoutId st); done.
Qed.

Lemma exitState_sameObjects r t i st w : sameObjects w (exitState r t i st w).2.
Proof.
  unfold exitState.
  pose proof (handleThresholdExiting_sameObjects (exitingEntry r t st) st w) as H.
  by destruct (handleThresholdExiting _ st w).
Qed.

Lemma processState_sameObjects now e r a i st w :
  sameObjects w (processState now e r a i st w).2.
Proof.
  unfold processState.
  destruct (entrySatisfiesRatio e _ && negb (lastSatisfied st)).
  - by destruct (hasTimeThreshold (threshold st)).
  - destruct (negb (entrySatisfiesRatio e _)); [|done].
    pose proof (handleThresholdExiting_sameObjects (generateSpanielEntry r e st) st w) as H.
    by destruct (handleThresholdExiting _ st w).
Qed.

(** ** Invariants of the timer discipline *)

Lemma stateAt_heap a i w w' : heap w' = heap w → stateAt a i w' = stateAt a i w.
Proof. unfold stateAt. by intros ->. Qed.

(** The step every loop body makes on the invariants: one state object is
    rewritten, and each timer left pending is either an old one of another
    state, or one that matches the rewritten state. *)
Lemma invariants_update a i st st' w w' :
  timersOk w → visibleOk w →
  stateAt a i w = Some st →
  heap w' = heap w →
  (nextTimer w ≤ nextTimer w')%nat →
  (visible st' = true → lastSatisfied st' = true) →
  (∀ id t, timers w' !! id = Some t →
     (timers w !! id = Some t ∧ (tm_rec t = a → tm_idx t = i → timerMatches st' id t))
     ∨ (tm_rec t = a ∧ tm_idx t = i ∧ (id < nextTimer w')%nat ∧ timerMatches st' id t)) →
  timersOk (writeState a i st' w') ∧ visibleOk (writeState a i st' w').
Proof.
  intros Ht Hv Hst Hheap Hnext Hvis Htim.
  assert (Hsome : is_Some (stateAt a i w')) by (rewrite (stateAt_heap _ _ _ _ Hheap); eauto).
  split.
  - intros id t Hid. cbn [timers nextTimer writeState set_heap] in *.
    destruct (Htim id t Hid) as [[Hold Hm] | (Ha & Hi & Hlt & Hm)].
    + destruct (Ht id t Hold) as [Hlt (st0 & Hst0 & Hm0)]. split; [lia|].
      destruct (decide (tm_rec t = a ∧ tm_idx t = i)) as [[Ha Hi]|Hne].
      * exists st'. rewrite Ha, Hi. split; [by apply stateAt_writeState_eq | auto].
      * exists st0. split; [|done]. rewrite stateAt_writeState_ne by (clear -Hne; lia).
        by rewrite (stateAt_heap _ _ _ _ Hheap).
    + split; [done|]. exists st'. rewrite Ha, Hi.
      split; [by apply stateAt_writeState_eq | done].
  - intros a0 i0 st0 Hst0 Hvis0.
    destruct (decide (a0 = a ∧ i0 = i)) as [[-> ->]|Hne].
    + rewrite stateAt_writeState_eq in Hst0 by done. simplify_eq. auto.
    + rewrite stateAt_writeState_ne in Hst0 by (clear -Hne; lia).
      rewrite (stateAt_heap _ _ _ _ Hheap) in Hst0. eauto.
Qed.

Lemma handleThresholdExiting_eq e st w :
  handleThresholdExiting e st w =
    (if confirmedVisible st then with_visible false st else st,
     clearTimeout (timeoutId st)
       (if confirmedVisible st
        then push (with_entering false
                     (with_duration (se_time e - toNumber (lastVisible st)) e)) w
        else w)).
Proof. unfold handleThresholdExiting. by destruct (confirmedVisible st). Qed.

Lemma timers_clearTimeout id w id' t :
  timers (clearTimeout id w) !! id' = Some t ↔ timers w !! id' = Some t ∧ id ≠ Some id'.
Proof.
  destruct id as [i|]; cbn [clearTimeout timers set_timers].
  - rewrite lookup_delete_Some. naive_solver.
  - naive_solver.
Qed.

Lemma timers_push e w : timers (push e w) = timers w.
Proof. done. Qed.

(** A pending timer of the state at [(a, i)] is the one the state names. *)
Lemma pending_timer_of_state a i st w id t :
  timersOk w → stateAt a i w = Some st →
  timers w !! id = Some t → tm_rec t = a → tm_idx t = i →
  timerMatches st id t.
Proof.
  intros Ht Hst Hid <- <-. destruct (Ht id t Hid) as [_ (st0 & Hst0 & Hm)].
  by simplify_eq.
Qed.

(** Leaving satisfaction: the state ends not visible, not satisfied, and
    no timer stays pending for it. *)
Lemma exiting_invariants a i st st1 e0 w w1 :
  timersOk w → visibleOk w → stateAt a i w = Some st →
  handleThresholdExiting e0 st w = (st1, w1) →
  visible st1 = false
  ∧ ∀ st', lastSatisfied st' = false → visible st' = visible st1 →
      timersOk (writeState a i st' w1) ∧ visibleOk (writeState a i st' w1).
Proof.
  intros Ht Hv Hst Hex.
  rewrite handleThresholdExiting_eq in Hex. simplify_eq.
  assert (Hnv : visible (if confirmedVisible st then with_visible false st else st) = false).
  { destruct (confirmedVisible st) eqn:Hc; [done|].
    destruct (visible st) eqn:Hvis; [|done].
    unfold confirmedVisible in Hc. rewrite (Hv _ _ _ Hst Hvis), Hvis in Hc.
    by destruct (hasTimeThreshold (threshold st)). }
  split; [done|]. intros st' Hsat Hvis.
  apply (invariants_update a i st st' w _ Ht Hv Hst).
  - by destruct (confirmedVisible st), (timeoutId st).
  - by destruct (confirmedVisible st), (timeoutId st).
  - congruence.
  - intros id t [Hid Hne]%timers_clearTimeout. left.
    assert (Hold : timers w !! id = Some t) by (by destruct (confirmedVisible st)).
    split; [done|]. intros Ha Hi.
    destruct (pending_timer_of_state _ _ _ _ _ _ Ht Hst Hold Ha Hi) as [Hid' _].
    congruence.
Qed.

Lemma exitState_invariants r time a i st st' w w' :
  timersOk w → visibleOk w → stateAt a i w = Some st →
  exitState r time i st w = (st', w') →
  timersOk (writeState a i st' w') ∧ visibleOk (writeState a i st' w').
Proof.
  intros Ht Hv Hst Hex. unfold exitState in Hex.
  destruct (handleThresholdExiting _ st w) as [st1 w1] eqn:Hte. simplify_eq.
  destruct (exiting_invariants _ _ _ _ _ _ _ Ht Hv Hst Hte) as [Hnv H].
  apply H; [done | by rewrite Hnv].
Qed.

Lemma processState_invariants now e r a i st st' w w' :
  timersOk w → visibleOk w → stateAt a i w = Some st →
  processState now e r a i st w = (st', w') →
  timersOk (writeState a i st' w') ∧ visibleOk (writeState a i st' w').
Proof.
  intros Ht Hv Hst Hp. unfold processState in Hp.
  destruct (entrySatisfiesRatio e _) eqn:Hsat; cbn [andb negb] in Hp.
  - destruct (lastSatisfied st) eqn:Hlast; cbn [negb] in Hp.
    + (* steady satisfaction *)
      simplify_eq. apply (invariants_update a i st _ w' _ Ht Hv Hst); [done..|].
      intros id t Hid. left. split; [done|]. intros Ha Hi.
      destruct (pending_timer_of_state _ _ _ _ _ _ Ht Hst Hid Ha Hi)
        as (? & ? & ? & ? & ? & ? & ?).
      by repeat split.
    + (* rising edge *)
      assert (Hnv : visible st = false).
      { destruct (visible st) eqn:Hvis; [|done].
        specialize (Hv _ _ _ Hst Hvis). congruence. }
      destruct (hasTimeThreshold (threshold st)) eqn:Htime.
      * cbn [setTimeout] in Hp. simplify_eq.
        apply (invariants_update a i st _ w _ Ht Hv Hst).
        -- done.
        -- cbn. lia.
        -- done.
        -- intros id t. cbn [timers set_timers nextTimer].
           intros [[<- <-] | [Hne Hid]]%lookup_insert_Some.
           ++ right. cbn. repeat split; try done. lia.
           ++ left. split; [done|]. intros Ha Hi.
              destruct (pending_timer_of_state _ _ _ _ _ _ Ht Hst Hid Ha Hi)
                as (? & ? & ?). congruence.
      * simplify_eq. apply (invariants_update a i st _ w _ Ht Hv Hst); [done..|].
        intros id t Hid. left. split; [done|]. intros Ha Hi.
        destruct (pending_timer_of_state _ _ _ _ _ _ Ht Hst Hid Ha Hi)
          as (? & ? & ?). congruence.
  - (* not satisfied *)
    destruct (handleThresholdExiting _ st w) as [st1 w1] eqn:Hte. simplify_eq.
    destruct (exiting_invariants _ _ _ _ _ _ _ Ht Hv Hst Hte) as [_ H]. by apply H.
Qed.

(** ** Reasoning about [forEach] over a record's states *)

(** Induction along the loop.  The body leaves the heap alone (it reaches
    the state object it is given and nothing else of the heap), so when
    the loop arrives at index [k] the state there is still the one the loop
    started with. *)
Lemma forEachState_ind a body w (P : nat → World → Prop) :
  (∀ i st w0, heap (body i st w0).2 = heap w0) →
  P 0%nat w →
  (∀ k wk st, P k wk → stateAt a k w = Some st → stateAt a k wk = Some st →
     P (S k) (writeState a k (body k st wk).1 (body k st wk).2)) →
  P (numStates a w) (forEachState a body w).
Proof.
  intros Hframe H0 Hstep. unfold forEachState.
  set (f := λ w i, match stateAt a i w with
                   | Some st => let '(st', w') := body i st w in writeState a i st' w'
                   | None => w
                   end).
  assert (Hgen : ∀ m k wk, (k + m = numStates a w)%nat → P k wk →
            (∀ j, (k ≤ j)%nat → stateAt a j wk = stateAt a j w) →
            P (k + m)%nat (foldl f wk (seq k m))).
  { induction m as [|m IH]; intros k wk Hkm Hk Hsame; cbn [seq foldl].
    - by rewrite Nat.add_0_r.
    - destruct (stateAt_is_Some a k w) as [st Hst]; [lia|].
      assert (Hstk : stateAt a k wk = Some st) by (rewrite Hsame; [done | lia]).
      replace (k + S m)%nat with (S k + m)%nat by lia.
      assert (Hf : f wk k = writeState a k (body k st wk).1 (body k st wk).2).
      { unfold f. rewrite Hstk. by destruct (body k st wk). }
      rewrite Hf. apply IH; [lia | by apply Hstep |].
      intros j Hj. rewrite stateAt_writeState_ne by lia.
      rewrite (stateAt_heap _ _ wk) by apply Hframe. apply Hsame. lia. }
  apply (Hgen (numStates a w) 0%nat w); [lia | done | done].
Qed.

(** The same without the index, for properties every iteration keeps. *)
Lemma forEachState_preserves a body w (P : World → Prop) :
  (∀ i st w0, heap (body i st w0).2 = heap w0) →
  P w →
  (∀ k wk st, P wk → stateAt a k wk = Some st →
     P (writeState a k (body k st wk).1 (body k st wk).2)) →
  P (forEachState a body w).
Proof.
  intros Hframe H0 Hstep.
  apply (forEachState_ind a body w (λ _, P)); auto.
Qed.

Lemma exitState_heap r t i st w : heap (exitState r t i st w).2 = heap w.
Proof. apply exitState_sameObjects. Qed.

Lemma processState_heap now e r a i st w : heap (processState now e r a i st w).2 = heap w.
Proof. apply processState_sameObjects. Qed.

Lemma handleRecordExiting_invariants a time w :
  timersOk w ∧ visibleOk w →
  timersOk (handleRecordExiting a time w) ∧ visibleOk (handleRecordExiting a time w).
Proof.
  intros H. unfold handleRecordExiting. destruct (heap w !! a) as [r|]; [|done].
  apply forEachState_preserves; [apply exitState_heap | done |].
  intros k wk st [Ht Hv] Hst.
  apply (exitState_invariants r time a k st _ wk _ Ht Hv Hst), surjective_pairing.
Qed.

Lemma forEach_processState_invariants now e r a w :
  timersOk w ∧ visibleOk w →
  timersOk (forEachState a (processState now e r a) w)
  ∧ visibleOk (forEachState a (processState now e r a) w).
Proof.
  intros H.
  apply forEachState_preserves; [apply processState_heap | done |].
  intros k wk st [Ht Hv] Hst.
  apply (processState_invariants now e r a k st _ wk _ Ht Hv Hst), surjective_pairing.
Qed.

(** ** The store invariant *)

Lemma sameShape_refl w : sameShape w w.
Proof. by repeat split. Qed.

Lemma sameShape_trans w1 w2 w3 : sameShape w1 w2 → sameShape w2 w3 → sameShape w1 w3.
Proof. unfold sameShape. intros (?&?&?&?&?&?&?&?) (?&?&?&?&?&?&?&?). repeat split; congruence. Qed.

Lemma sameObjects_sameShape w w' : sameObjects w w' → sameShape w w'.
Proof. unfold sameObjects, sameShape. intros (?&?&?&?&?&?&?&?). repeat split; congruence. Qed.

Lemma fmap_alter_same {A B} (f : A → B) (g : A → A) (i : nat) (l : list A) :
  (∀ x, l !! i = Some x → f (g x) = f x) → f <$> alter g i l = f <$> l.
Proof.
  intros H. apply list_eq. intros j. rewrite !list_lookup_fmap.
  destruct (decide (j = i)) as [->|].
  - rewrite list_lookup_alter_eq. destruct (l !! i) eqn:E; simpl; [|done]. by rewrite H.
  - by rewrite list_lookup_alter_ne.
Qed.

Lemma writeState_sameShape a i st w : sameShape w (writeState a i st w).
Proof.
  unfold sameShape, writeState. cbn. repeat split.
  apply fmap_alter_same. intros r _. unfold shape. cbn. by rewrite length_insert.
Qed.

Lemma shape_lookup w w' a r :
  sameShape w w' → heap w !! a = Some r →
  ∃ r', heap w' !! a = Some r' ∧ shape r' = shape r.
Proof.
  intros (_&_&_&_&_&_&_&Hs) Hr.
  assert (H : (shape <$> heap w') !! a = Some (shape r)).
  { by rewrite Hs, list_lookup_fmap, Hr. }
  rewrite list_lookup_fmap in H. destruct (heap w' !! a) as [r'|]; [|done].
  exists r'. split; [done|]. cbn in H. congruence.
Qed.

Lemma sameShape_sym w w' : sameShape w w' → sameShape w' w.
Proof. unfold sameShape. intros (?&?&?&?&?&?&?&?). repeat split; congruence. Qed.

Lemma storeOk_sameShape w w' : sameShape w w' → storeOk w → storeOk w'.
Proof.
  intros Hs [Hnd Hst]. pose proof Hs as (Hstore & Hids & _).
  split; [by rewrite Hstore|].
  intros k a Hin. rewrite Hstore in Hin.
  destruct (Hst k a Hin) as (r & Hr & Hid & Hseen).
  destruct (shape_lookup _ _ _ _ Hs Hr) as (r' & Hr' & Hshape).
  unfold shape in Hshape. simplify_eq. exists r'. rewrite Hids.
  repeat split; [done | congruence |]. intros e He. apply Hseen. congruence.
Qed.

Lemma forEachState_sameShape a body w :
  (∀ i st w0, sameObjects w0 (body i st w0).2) →
  sameShape w (forEachState a body w).
Proof.
  intros Hb. apply forEachState_preserves.
  - intros. apply Hb.
  - apply sameShape_refl.
  - intros k wk st Hs _. eapply sameShape_trans; [done|].
    eapply sameShape_trans; [apply sameObjects_sameShape, Hb | apply writeState_sameShape].
Qed.

Lemma handleRecordExiting_sameShape a time w : sameShape w (handleRecordExiting a time w).
Proof.
  unfold handleRecordExiting. destruct (heap w !! a); [|apply sameShape_refl].
  apply forEachState_sameShape. intros. apply exitState_sameObjects.
Qed.

Lemma flushQueuedEntries_sameShape w : sameShape w (flushQueuedEntries w).
Proof. unfold flushQueuedEntries. by destruct (queuedEntries w). Qed.

Lemma flushQueuedEntries_queue w : queuedEntries (flushQueuedEntries w) = [].
Proof. unfold flushQueuedEntries. by destruct (queuedEntries w) eqn:E. Qed.

(** The invariants only read the states, the timers and the timer counter. *)
Lemma timersOk_ext w w' :
  (∀ a i, stateAt a i w' = stateAt a i w) → timers w' = timers w →
  nextTimer w' = nextTimer w → timersOk w → timersOk w'.
Proof.
  intros Hs Ht Hn H id t Hid. rewrite Ht in Hid. rewrite Hn, Hs. by apply H.
Qed.

Lemma visibleOk_ext w w' :
  (∀ a i, stateAt a i w' = stateAt a i w) → visibleOk w → visibleOk w'.
Proof. intros Hs H a i st Hst Hvis. rewrite Hs in Hst. eauto. Qed.

Lemma flushQueuedEntries_invariants w :
  timersOk w ∧ visibleOk w → timersOk (flushQueuedEntries w) ∧ visibleOk (flushQueuedEntries w).
Proof.
  intros [Ht Hv]. unfold flushQueuedEntries. by destruct (queuedEntries w).
Qed.

(** ** The invariant of reachable worlds *)

Lemma Inv_intro w :
  timersOk w → visibleOk w → storeOk w → queuedEntries w = [] → Inv w.
Proof. unfold Inv. tauto. Qed.

Lemma Inv_construct sort dom ts w : construct sort dom (Some ts) = Some w → Inv w.
Proof.
  intros [= <-]. apply Inv_intro.
  - intros i t H. cbn in H. by rewrite lookup_empty in H.
  - intros a i st H. unfold stateAt in H. cbn in H. by rewrite lookup_nil in H.
  - split; cbn; [apply NoDup_nil_2|]. intros k a H. by apply elem_of_nil in H.
  - done.
Qed.

Lemma storeOk_writeLastSeenEntry k a e w :
  storeOk w → (k, a) ∈ recordStore w → spanielIds w !! target e = Some k →
  storeOk (writeLastSeenEntry a (Some e) w).
Proof.
  intros [Hnd Hst] Hin Hid. split; [done|]. cbn.
  intros k' a' Hin'. destruct (Hst k' a' Hin') as (r' & Hr' & Hid' & Hseen').
  destruct (decide (a' = a)) as [->|Hne].
  - rewrite list_lookup_alter_eq, Hr'. eexists. split; [done|]. cbn.
    split; [done|]. intros e' [= <-].
    destruct (Hst k a Hin) as (r & Hr & Hidr & _). congruence.
  - rewrite list_lookup_alter_ne by done. eauto.
Qed.

Lemma recordOf_Some w el a r :
  recordOf w el = Some (a, r) →
  ∃ k, spanielIds w !! el = Some k ∧ store_get k (recordStore w) = Some a
       ∧ heap w !! a = Some r.
Proof.
  unfold recordOf. intros H.
  destruct (spanielIds w !! el) as [k|]; simplify_eq/=.
  destruct (store_get k (recordStore w)) as [a'|] eqn:Eg; simplify_eq/=.
  destruct (heap w !! a') as [r'|] eqn:E; simplify_eq/=. eauto.
Qed.

Lemma recordOf_stored w k a el :
  storeOk w → (k, a) ∈ recordStore w → spanielIds w !! el = Some k →
  ∃ r, recordOf w el = Some (a, r) ∧ heap w !! a = Some r.
Proof.
  intros [Hnd Hst] Hin Hid. destruct (Hst k a Hin) as (r & Hr & _).
  exists r. split; [|done]. unfold recordOf.
  rewrite Hid. cbn. rewrite (elem_of_store_get _ _ _ Hnd Hin). cbn. by rewrite Hr.
Qed.

Lemma writeLastSeenEntry_invariants a e w :
  timersOk w ∧ visibleOk w →
  timersOk (writeLastSeenEntry a e w) ∧ visibleOk (writeLastSeenEntry a e w).
Proof.
  intros [Ht Hv]. split.
  - apply (timersOk_ext w); [|done..]. intros. apply stateAt_writeLastSeenEntry.
  - apply (visibleOk_ext w); [|done]. intros. apply stateAt_writeLastSeenEntry.
Qed.

Lemma Inv_handleObserverEntry now e w w' :
  Inv w → handleObserverEntry now e w = Some w' → Inv w'.
Proof.
  intros (Ht & Hv & Hs & Hq) H. unfold handleObserverEntry in H.
  destruct (recordOf w (target e)) as [[a r]|] eqn:Hrec; [|done].
  destruct (recordOf_Some _ _ _ _ Hrec) as (k & Hk & Hget & Hr).
  apply store_get_elem_of in Hget.
  pose proof (storeOk_writeLastSeenEntry _ _ _ _ Hs Hget Hk) as Hs1.
  destruct (writeLastSeenEntry_invariants a (Some e) w (conj Ht Hv)) as [Ht1 Hv1].
  set (w1 := writeLastSeenEntry a (Some e) w) in *.
  destruct (paused w1); simplify_eq; [done|].
  destruct (forEach_processState_invariants now e r a w1 (conj Ht1 Hv1)) as [Ht2 Hv2].
  destruct (flushQueuedEntries_invariants _ (conj Ht2 Hv2)) as [Ht3 Hv3].
  apply Inv_intro; [done | done | | apply flushQueuedEntries_queue].
  eapply storeOk_sameShape; [|exact Hs1].
  eapply sameShape_trans; [|apply flushQueuedEntries_sameShape].
  apply forEachState_sameShape. intros. apply processState_sameObjects.
Qed.

Lemma foldl_option_preserves {A B} (f : A → B → option A) (P : A → Prop) l x y :
  (∀ x b y, P x → f x b = Some y → P y) →
  P x → foldl (λ ox b, x ← ox; f x b) (Some x) l = Some y → P y.
Proof.
  intros Hf. revert x. induction l as [|b l IH]; intros x Hx; cbn [foldl].
  - by intros [= <-].
  - cbn. destruct (f x b) as [x'|] eqn:E.
    + apply IH. eauto.
    + intros H. exfalso. clear -H. induction l; cbn in *; [done | auto].
Qed.

Lemma Inv_internalCallback now records w w' :
  Inv w → internalCallback now records w = Some w' → Inv w'.
Proof.
  intros Hi H. unfold internalCallback in H.
  eapply (foldl_option_preserves (λ w e, handleObserverEntry now e w)); [|exact Hi|exact H].
  intros ? ? ? ? ?. by eapply Inv_handleObserverEntry.
Qed.

Lemma foldl_preserves {A B} (f : A → B → A) (P : A → Prop) l x :
  (∀ x b, b ∈ l → P x → P (f x b)) → P x → P (foldl f x l).
Proof.
  revert x. induction l as [|b l IH]; intros x Hf Hx; cbn [foldl]; [done|].
  apply IH; [|apply Hf; [set_solver | done]].
  intros x' b' Hb'. apply Hf. set_solver.
Qed.

Lemma foldl_option_None {A B} (f : A → B → option A) l :
  foldl (λ ox b, x ← ox; f x b) None l = None.
Proof. induction l; cbn; auto. Qed.

Lemma foldl_option_preserves_in {A B} (f : A → B → option A) (P : A → Prop) l x y :
  (∀ x b y, b ∈ l → P x → f x b = Some y → P y) →
  P x → foldl (λ ox b, x ← ox; f x b) (Some x) l = Some y → P y.
Proof.
  revert x. induction l as [|b l IH]; intros x Hf Hx; cbn [foldl].
  - by intros [= <-].
  - cbn. destruct (f x b) as [x'|] eqn:E.
    + apply IH; [|eapply Hf; [|done..]; set_solver].
      intros x0 b0 y0 Hb0. apply Hf. set_solver.
    + by rewrite foldl_option_None.
Qed.

Lemma foldl_option_total {A B} (f : A → B → option A) (P : A → Prop) l x :
  (∀ x b, b ∈ l → P x → ∃ y, f x b = Some y ∧ P y) →
  P x → ∃ y, foldl (λ ox b, x ← ox; f x b) (Some x) l = Some y ∧ P y.
Proof.
  revert x. induction l as [|b l IH]; intros x Hf Hx; cbn [foldl].
  - eauto.
  - destruct (Hf x b) as (x' & E & Hx'); [set_solver | done |].
    cbn. rewrite E. apply IH; [|done].
    intros x0 b0 Hb0. apply Hf. set_solver.
Qed.

(** *** Hiding *)

Lemma setAllHidden_loop_invariants now l w :
  timersOk w ∧ visibleOk w →
  timersOk (foldl (λ w p, handleRecordExiting p.2 now w) w l)
  ∧ visibleOk (foldl (λ w (p : Token * nat), handleRecordExiting p.2 now w) w l).
Proof.
  intros H.
  apply (foldl_preserves _ (λ w, timersOk w ∧ visibleOk w)); [|done].
  intros. by apply handleRecordExiting_invariants.
Qed.

Lemma setAllHidden_loop_sameShape now (l : list (Token * nat)) w :
  sameShape w (foldl (λ w p, handleRecordExiting p.2 now w) w l).
Proof.
  apply (foldl_preserves _ (sameShape w)); [|apply sameShape_refl].
  intros x b _ Hx. eapply sameShape_trans; [done | apply handleRecordExiting_sameShape].
Qed.

Lemma call_sameShape c w : sameShape w (call c w).
Proof. by repeat split. Qed.

Lemma setAllHidden_sameShape now w : sameShape w (setAllHidden now w).
Proof.
  unfold setAllHidden.
  eapply sameShape_trans; [apply setAllHidden_loop_sameShape|].
  eapply sameShape_trans; [apply flushQueuedEntries_sameShape | apply call_sameShape].
Qed.

Lemma Inv_setAllHidden now w :
  timersOk w → visibleOk w → storeOk w → Inv (setAllHidden now w).
Proof.
  intros Ht Hv Hs.
  pose proof (setAllHidden_sameShape now w) as Hshape.
  unfold setAllHidden in *.
  destruct (setAllHidden_loop_invariants now (recordStore w) w (conj Ht Hv)) as [Ht1 Hv1].
  destruct (flushQueuedEntries_invariants _ (conj Ht1 Hv1)) as [Ht2 Hv2].
  apply Inv_intro; [done | done | by eapply storeOk_sameShape |].
  cbn. apply flushQueuedEntries_queue.
Qed.

Lemma Inv_onTabHidden now w : Inv w → Inv (onTabHidden now w).
Proof. intros (Ht & Hv & Hs & Hq). by apply Inv_setAllHidden. Qed.

Lemma Inv_disconnect now w : Inv w → Inv (disconnect now w).
Proof.
  intros (Ht & Hv & Hs & Hq).
  destruct (Inv_setAllHidden now w Ht Hv Hs) as (Ht1 & Hv1 & Hs1 & Hq1).
  apply Inv_intro; [done | done | | done].
  split; cbn; [apply NoDup_nil_2|]. intros k a H. by apply elem_of_nil in H.
Qed.

(** *** Deferred work and timers *)

Lemma Inv_runWork now a k w : Inv w → Inv (runWork now a (set_work k w)).
Proof.
  intros (Ht & Hv & Hs & Hq). unfold runWork.
  destruct (handleRecordExiting_invariants a now (set_work k w) (conj Ht Hv)) as [Ht1 Hv1].
  destruct (flushQueuedEntries_invariants _ (conj Ht1 Hv1)) as [Ht2 Hv2].
  apply Inv_intro; [done | done | | apply flushQueuedEntries_queue].
  eapply storeOk_sameShape; [|exact (Hs : storeOk (set_work k w))].
  eapply sameShape_trans; [|apply flushQueuedEntries_sameShape].
  apply handleRecordExiting_sameShape.
Qed.

Lemma Inv_timer now id t w :
  Inv w → timers w !! id = Some t →
  Inv (timerBody now t (set_timers (delete id (timers w)) (nextTimer w) w)).
Proof.
  intros (Ht & Hv & Hs & Hq) Hid.
  destruct (Ht id t Hid) as [Hlt (st & Hst & Hm)].
  unfold timerBody. rewrite (stateAt_heap _ _ w) by done. rewrite Hst.
  set (w1 := set_timers _ _ w).
  assert (Htv : timersOk (writeState (tm_rec t) (tm_idx t) (with_visible true st) w1)
                ∧ visibleOk (writeState (tm_rec t) (tm_idx t) (with_visible true st) w1)).
  { apply (invariants_update _ _ st _ w w1 Ht Hv Hst); [done | done | |].
    - intros _. apply Hm.
    - intros id' t'. cbn. intros [Hne Hid']%lookup_delete_Some. left.
      split; [done|]. intros Ha Hi.
      destruct (pending_timer_of_state _ _ _ _ _ _ Ht Hst Hid' Ha Hi) as [Hid'' _].
      destruct Hm as [Hid0 _]. congruence. }
  destruct Htv as [Ht1 Hv1].
  apply Inv_intro; [done | done | | done].
  eapply storeOk_sameShape; [|exact (Hs : storeOk w1)].
  eapply sameShape_trans; [|apply call_sameShape].
  apply writeState_sameShape.
Qed.

(** *** Observing and unobserving *)

Lemma stateAt_app_l a i h w :
  is_Some (heap w !! a) → stateAt a i (set_heap (heap w ++ h) w) = stateAt a i w.
Proof.
  intros Hs. unfold stateAt. cbn.
  rewrite lookup_app_l; [done|]. by apply lookup_lt_is_Some.
Qed.

(** [observe] in one piece: the key is the element's own, or a fresh one. *)
Lemma observe_eq el payload w :
  let id := default (nextToken w) (spanielIds w !! el) in
  let n := if spanielIds w !! el is Some _ then nextToken w else S (nextToken w) in
  let r := mkRecord el payload ((freshState <$> thresholds w)) None in
  observe el payload w =
    (id, call (observer_observe el)
           (set_recordStore (store_set id (length (heap w)) (recordStore w))
              (set_heap (heap w ++ [r])
                 (set_spanielIds (<[el:=id]> (spanielIds w)) n w)))).
Proof. unfold observe, generateToken. by destruct (spanielIds w !! el). Qed.

Lemma Inv_observe el payload w : Inv w → Inv (observe el payload w).2.
Proof.
  intros (Ht & Hv & Hs & Hq). rewrite observe_eq. cbn [snd].
  set (id := default (nextToken w) (spanielIds w !! el)).
  set (r := mkRecord el payload ((freshState <$> thresholds w)) None).
  assert (Hstate : ∀ a i st,
    stateAt a i (set_heap (heap w ++ [r]) w) = Some st →
    stateAt a i w = Some st ∨ (visible st = false ∧ a = length (heap w))).
  { intros a i st. unfold stateAt. cbn.
    destruct (decide (a < length (heap w))%nat) as [Hlt|Hge].
    - rewrite lookup_app_l by done. auto.
    - rewrite lookup_app_r by lia.
      destruct (a - length (heap w))%nat as [|?] eqn:E; cbn; [|done].
      intros Hl. right. split; [|lia].
      rewrite list_lookup_fmap in Hl.
      destruct (thresholds w !! i) as [th|]; by simplify_eq/=. }
  apply Inv_intro.
  - intros i t Hi. destruct (Ht i t Hi) as [Hlt (st & Hst & Hm)].
    split; [done|]. exists st. split; [|done].
    unfold stateAt in *. cbn.
    destruct (heap w !! tm_rec t) as [r0|] eqn:Hr0; [|done].
    rewrite lookup_app_l by (by eapply lookup_lt_Some). by rewrite Hr0.
  - intros a i st Hst Hvis.
    destruct (Hstate a i st Hst) as [Hold | [Hnv _]]; [eauto | congruence].
  - destruct Hs as [Hnd Hst]. split; cbn; [by apply store_set_NoDup|].
    assert (Hids : ∀ el' k, spanielIds w !! el' = Some k →
                   <[el:=id]> (spanielIds w) !! el' = Some k).
    { intros el' k Hk. destruct (decide (el' = el)) as [->|Hne].
      - rewrite lookup_insert_eq. subst id. by rewrite Hk.
      - by rewrite lookup_insert_ne. }
    intros k a [Heq | Hin]%elem_of_store_set.
    + simplify_eq. exists r. rewrite lookup_app_r by lia. rewrite Nat.sub_diag.
      split; [done|]. cbn. by rewrite lookup_insert_eq.
    + destruct (Hst k a Hin) as (r0 & Hr0 & Hid0 & Hseen0).
      exists r0. rewrite lookup_app_l by (by eapply lookup_lt_Some).
      split; [done|]. split; [by apply Hids|]. intros e He. by apply Hids, Hseen0.
  - done.
Qed.

Lemma Inv_unobserve el w : Inv w → Inv (unobserve el w).
Proof.
  intros (Ht & Hv & Hs & Hq). unfold unobserve.
  destruct (recordOf w el) as [[a r]|]; [|by apply Inv_intro].
  apply Inv_intro.
  - by destruct (spanielIds w !! el).
  - by destruct (spanielIds w !! el).
  - destruct (spanielIds w !! el) as [k|]; cbn; [|done].
    destruct Hs as [Hnd Hst]. split; cbn; [by apply store_delete_NoDup|].
    intros k' a' [_ Hin]%list_elem_of_filter. by apply Hst.
  - by destruct (spanielIds w !! el).
Qed.

(** *** Showing *)

Lemma handleObserverEntry_store now e w w' :
  handleObserverEntry now e w = Some w' →
  recordStore w' = recordStore w ∧ spanielIds w' = spanielIds w.
Proof.
  unfold handleObserverEntry. destruct (recordOf w (target e)) as [[a r]|]; [|done].
  destruct (paused _); intros [= <-]; [done|].
  pose proof (forEachState_sameShape a (processState now e r a)
                (writeLastSeenEntry a (Some e) w)
                (λ i st w0, processState_sameObjects now e r a i st w0)) as (H1 & H2 & _).
  pose proof (flushQueuedEntries_sameShape
                (forEachState a (processState now e r a) (writeLastSeenEntry a (Some e) w)))
    as (H3 & H4 & _).
  cbn [writeLastSeenEntry recordStore spanielIds set_heap] in H1, H2.
  split; congruence.
Qed.

(** Re-evaluating a stored record never raises: its last seen sample
    belongs to the record's own target. *)
Lemma reevaluate_total now k a w :
  Inv w → (k, a) ∈ recordStore w →
  ∃ w', reevaluate now a w = Some w' ∧ Inv w' ∧ recordStore w' = recordStore w.
Proof.
  intros Hi Hin. pose proof Hi as (Ht & Hv & Hs & Hq).
  destruct Hs as [Hnd Hst]. destruct (Hst k a Hin) as (r & Hr & Hid & Hseen).
  unfold reevaluate. rewrite Hr.
  destruct (lastSeenEntry r) as [e|] eqn:He; [|by exists w].
  specialize (Hseen e eq_refl).
  set (e' := restamp now e). set (w1 := writeLastSeenEntry a (Some e') w).
  assert (Hs1 : storeOk w1) by (by apply (storeOk_writeLastSeenEntry k)).
  assert (Hi1 : Inv w1).
  { destruct (writeLastSeenEntry_invariants a (Some e') w (conj Ht Hv)).
    by apply Inv_intro. }
  destruct (recordOf_stored w1 k a (target e') Hs1 Hin Hseen) as (r1 & Hrec & _).
  destruct (handleObserverEntry now e' w1) as [w'|] eqn:Hh.
  - exists w'. split; [done|]. split; [by eapply Inv_handleObserverEntry|].
    by destruct (handleObserverEntry_store _ _ _ _ Hh).
  - unfold handleObserverEntry in Hh. rewrite Hrec in Hh.
    by destruct (paused (writeLastSeenEntry a (Some e') w1)).
Qed.

Lemma onTabShown_total now w :
  Inv w → ∃ w', onTabShown now w = Some w' ∧ Inv w'.
Proof.
  intros (Ht & Hv & Hs & Hq). unfold onTabShown.
  set (w0 := set_paused false w).
  assert (Hi0 : Inv w0) by (by apply Inv_intro).
  destruct (foldl_option_total (λ w (p : Token * nat), reevaluate now p.2 w)
              (λ w', Inv w' ∧ recordStore w' = recordStore w0) (recordStore w0) w0)
    as (w' & Hw' & Hi' & _); [|done|eauto].
  intros x [k a] Hin [Hx Hstore]. rewrite <- Hstore in Hin.
  destruct (reevaluate_total now k a x Hx Hin) as (y & Hy & Hiy & Hsy).
  exists y. split; [done|]. split; [done | congruence].
Qed.

(** ** Every event keeps the invariant *)

Lemma Inv_step now ev w w' : Inv w → step now ev w = Some w' → Inv w'.
Proof.
  intros Hi. destruct ev; cbn [step].
  - intros [= <-]. by apply Inv_observe.
  - intros [= <-]. by apply Inv_unobserve.
  - intros [= <-]. by apply Inv_disconnect.
  - by apply Inv_internalCallback.
  - destruct (hasDOM w); intros [= <-]; [by apply Inv_onTabHidden | done].
  - destruct (hasDOM w); [|by intros [= <-]].
    destruct (onTabShown_total now w Hi) as (w1 & -> & Hi1). by intros [= <-].
  - destruct (hasDOM w); intros [= <-]; [by apply Inv_onTabHidden | done].
  - destruct (timers w !! id) as [t|] eqn:Hid; [|done].
    case_decide; [|done]. intros [= <-]. by apply Inv_timer.
  - destruct (work w !! k) as [a|]; [|done]. intros [= <-]. by apply Inv_runWork.
Qed.

Lemma Inv_run evs w w' : Inv w → run evs w = Some w' → Inv w'.
Proof.
  revert w. induction evs as [|[now ev] evs IH]; intros w Hi; cbn [run].
  - by intros [= <-].
  - destruct (step now ev w) as [w1|] eqn:Hs; [|done]. cbn.
    apply IH. by eapply Inv_step.
Qed.

(** ** What a loop over a record's states emits and leaves alone *)

Lemma states_lookup a i w r :
  heap w !! a = Some r → stateAt a i w = thresholdStates r !! i.
Proof. unfold stateAt. by intros ->. Qed.

Lemma numStates_heap a w r : heap w !! a = Some r → numStates a w = length (thresholdStates r).
Proof. unfold numStates. by intros ->. Qed.

(** When each iteration appends [out st] to the queue, [st] being the state
    it is run on, the loop appends these in the order of the states. *)
Lemma forEachState_queue a body w r (out : SpanielThresholdState → list SpanielObserverEntry) :
  heap w !! a = Some r →
  (∀ i st w0, heap (body i st w0).2 = heap w0) →
  (∀ i st w0, queuedEntries (body i st w0).2 = queuedEntries w0 ++ out st
              ∧ calls (body i st w0).2 = calls w0) →
  queuedEntries (forEachState a body w) = queuedEntries w ++ flat_map out (thresholdStates r)
  ∧ calls (forEachState a body w) = calls w.
Proof.
  intros Hr Hheap Hout.
  pose proof (forEachState_ind a body w
    (λ k wk, queuedEntries wk = queuedEntries w ++ flat_map out (take k (thresholdStates r))
             ∧ calls wk = calls w) Hheap) as H.
  rewrite (numStates_heap _ _ _ Hr), firstn_all in H. apply H; clear H.
  - by rewrite take_0, app_nil_r.
  - intros k wk st [Hq Hc] Hst _. rewrite (states_lookup _ _ _ _ Hr) in Hst.
    destruct (Hout k st wk) as [Hq' Hc']. cbn [writeState queuedEntries calls set_heap].
    rewrite Hq', Hc', Hq, (take_S_r _ _ _ Hst), flat_map_app. cbn.
    by rewrite app_nil_r, app_assoc.
Qed.

(** A loop over the states of one record leaves the other records alone. *)
Lemma forEachState_other a body w b :
  (∀ i st w0, heap (body i st w0).2 = heap w0) →
  b ≠ a → heap (forEachState a body w) !! b = heap w !! b.
Proof.
  intros Hheap Hne.
  apply (forEachState_preserves a body w (λ wk, heap wk !! b = heap w !! b) Hheap); [done|].
  intros k wk st Hk _. cbn [writeState heap set_heap].
  by rewrite list_lookup_alter_ne, Hheap.
Qed.

Lemma handleThresholdExiting_queue e st w :
  queuedEntries (handleThresholdExiting e st w).2 = queuedEntries w ++ exitOut e st
  ∧ calls (handleThresholdExiting e st w).2 = calls w.
Proof.
  rewrite handleThresholdExiting_eq. unfold exitOut, clearTimeout. cbn [snd].
  destruct (confirmedVisible st), (timeoutId st); cbn; by rewrite ?app_nil_r.
Qed.

Lemma processState_queue now e r a i st w :
  queuedEntries (processState now e r a i st w).2 = queuedEntries w ++ sampleOut e r st
  ∧ calls (processState now e r a i st w).2 = calls w.
Proof.
  unfold processState, sampleOut.
  destruct (entrySatisfiesRatio e _); cbn [andb negb].
  - destruct (lastSatisfied st); cbn [negb snd]; [by rewrite app_nil_r|].
    destruct (hasTimeThreshold (threshold st)); cbn; by rewrite ?app_nil_r.
  - pose proof (handleThresholdExiting_queue (generateSpanielEntry r e st) st w) as H.
    by destruct (handleThresholdExiting _ st w).
Qed.

(** The entry a forced exit queues for a state: the one
    [handleRecordExiting] built, when the state is confirmed visible. *)
Lemma exitOut_exitingEntry r time st :
  exitOut (exitingEntry r time st) st
  = if confirmedVisible st then [exitingEntry r time st] else [].
Proof. unfold exitOut. by destruct (confirmedVisible st). Qed.

Lemma exitState_queue r time i st w :
  queuedEntries (exitState r time i st w).2
    = queuedEntries w ++ (if confirmedVisible st then [exitingEntry r time st] else [])
  ∧ calls (exitState r time i st w).2 = calls w.
Proof.
  unfold exitState. rewrite <- exitOut_exitingEntry.
  pose proof (handleThresholdExiting_queue (exitingEntry r time st) st w) as H.
  by destruct (handleThresholdExiting _ st w).
Qed.

(** ** Timers over time *)















(** ** What processing one sample does to its record *)

(** After the loop each state is what the body made of the state the loop
    started with. *)
Lemma forEachState_states a body w r j st :
  heap w !! a = Some r →
  (∀ i st w0, heap (body i st w0).2 = heap w0) →
  thresholdStates r !! j = Some st →
  ∃ w0, stateAt a j (forEachState a body w) = Some (body j st w0).1.
Proof.
  intros Hr Hheap Hj.
  pose proof (forEachState_ind a body w
    (λ k wk, ∀ j st, (j < k)%nat → thresholdStates r !! j = Some st →
             ∃ w0, stateAt a j wk = Some (body j st w0).1) Hheap) as H.
  cbn beta in H. rewrite (numStates_heap _ _ _ Hr) in H.
  apply lookup_lt_Some in Hj as Hlt.
  refine (H _ _ j st Hlt Hj); clear H Hlt.
  - intros ? ? ?. lia.
  - clear j st Hj. intros k wk st Hk Hst Hstk j st' Hlt Hj.
    rewrite (states_lookup _ _ _ _ Hr) in Hst.
    destruct (decide (j = k)) as [->|Hne].
    + simplify_eq. exists wk. apply stateAt_writeState_eq.
      rewrite (stateAt_heap _ _ wk) by apply Hheap. eauto.
    + destruct (Hk j st') as [w0 Hw0]; [lia | done |]. exists w0.
      rewrite stateAt_writeState_ne by auto.
      by rewrite (stateAt_heap _ _ wk) by apply Hheap.
Qed.

(** The state a sample leaves behind, whatever the world it ran in. *)
Lemma processState_state now e r a i st w :
  let st' := (processState now e r a i st w).1 in
  lastEntry st' = Some e
  ∧ lastSatisfied st' = entrySatisfiesRatio e (ratio (threshold st))
  ∧ threshold st' = threshold st
  ∧ (entrySatisfiesRatio e (ratio (threshold st)) = true → lastSatisfied st = false →
     hasTimeThreshold (threshold st) = false → visible st' = true)
  ∧ (entrySatisfiesRatio e (ratio (threshold st)) = false →
     visible st' = visible st && negb (confirmedVisible st)).
Proof.
  unfold processState.
  destruct (entrySatisfiesRatio e _); cbn [andb negb].
  - destruct (lastSatisfied st); cbn [negb]; [by repeat split|].
    destruct (hasTimeThreshold (threshold st)); by repeat split.
  - rewrite handleThresholdExiting_eq.
    destruct (confirmedVisible st); cbn; repeat split; try done.
    all: intros; by rewrite ?andb_true_r, ?andb_false_r.
Qed.

Lemma recordOf_writeLastSeenEntry a e w el :
  recordOf (writeLastSeenEntry a e w) el
  = (λ p, (p.1, if decide (p.1 = a) then with_lastSeenEntry e p.2 else p.2)) <$> recordOf w el.
Proof.
  unfold recordOf. cbn [spanielIds recordStore heap writeLastSeenEntry set_heap].
  destruct (spanielIds w !! el) as [k|]; cbn; [|done].
  destruct (store_get k (recordStore w)) as [b|]; cbn; [|done].
  destruct (decide (b = a)) as [->|Hne].
  - rewrite list_lookup_alter_eq. destruct (heap w !! a); cbn; [|done].
    by rewrite decide_True.
  - rewrite list_lookup_alter_ne by done. destruct (heap w !! b); cbn; [|done].
    by rewrite decide_False.
Qed.

(** Processing one sample while not paused: it never raises for a tracked
    target, it makes one callback call with everything the sample made the
    states queue (none when nothing was queued), and it leaves every state
    of the record with the sample as its last entry. *)
Lemma handleObserverEntry_active now e w a r :
  recordOf w (target e) = Some (a, r) → paused w = false →
  ∃ w',
    handleObserverEntry now e w = Some w'
    ∧ calls w' = calls w ++
        match queuedEntries w ++ flat_map (sampleOut e r) (thresholdStates r) with
        | [] => []
        | batch => [callback batch]
        end
    ∧ queuedEntries w' = []
    ∧ (∀ b, b ≠ a → heap w' !! b = heap w !! b)
    ∧ (∃ r', heap w' !! a = Some r' ∧ lastSeenEntry r' = Some e
             ∧ rec_target r' = rec_target r ∧ rec_payload r' = rec_payload r
             ∧ length (thresholdStates r') = length (thresholdStates r))
    ∧ ∀ i st, thresholdStates r !! i = Some st →
        ∃ w0, stateAt a i w' = Some (processState now e r a i st w0).1.
Proof.
  intros Hrec Hp. unfold handleObserverEntry. rewrite Hrec.
  destruct (recordOf_Some _ _ _ _ Hrec) as (k & Hk & Hget & Hr).
  set (w1 := writeLastSeenEntry a (Some e) w).
  assert (Hr1 : heap w1 !! a = Some (with_lastSeenEntry (Some e) r)).
  { subst w1. cbn. by rewrite list_lookup_alter_eq, Hr. }
  replace (paused w1) with false by done.
  set (w2 := forEachState a (processState now e r a) w1).
  pose proof (λ i st w0, processState_heap now e r a i st w0) as Hheap.
  destruct (forEachState_queue a (processState now e r a) w1 _ (sampleOut e r) Hr1 Hheap
              (λ i st w0, processState_queue now e r a i st w0)) as [Hq Hc].
  fold w2 in Hq, Hc. cbn in Hq, Hc.
  eexists. split; [done|]. split_and!.
  - unfold flushQueuedEntries. rewrite Hq.
    destruct (queuedEntries w ++ _); cbn; rewrite Hc; [by rewrite app_nil_r | done].
  - apply flushQueuedEntries_queue.
  - intros b Hb.
    destruct (flushQueuedEntries_sameShape w2) as (_&_&_&_&_&_&_&_).
    assert (Hfl : heap (flushQueuedEntries w2) = heap w2).
    { unfold flushQueuedEntries. by destruct (queuedEntries w2). }
    rewrite Hfl. subst w2. rewrite forEachState_other by done.
    subst w1. cbn. by rewrite list_lookup_alter_ne.
  - assert (Hs : sameShape w1 (flushQueuedEntries w2)).
    { eapply sameShape_trans; [|apply flushQueuedEntries_sameShape].
      apply forEachState_sameShape. intros. apply processState_sameObjects. }
    destruct (shape_lookup _ _ _ _ Hs Hr1) as (r' & Hr' & Hshape).
    exists r'. unfold shape in Hshape. cbn in Hshape. by simplify_eq.
  - intros i st Hi.
    destruct (forEachState_states a (processState now e r a) w1 _ i st Hr1 Hheap Hi)
      as [w0 Hw0].
    exists w0. rewrite <- Hw0. apply stateAt_heap.
    unfold flushQueuedEntries. by destruct (queuedEntries _).
Qed.

Lemma handleObserverEntry_paused now e w a r :
  recordOf w (target e) = Some (a, r) → paused w = true →
  handleObserverEntry now e w = Some (writeLastSeenEntry a (Some e) w).
Proof.
  intros Hrec Hp. unfold handleObserverEntry. rewrite Hrec.
  by replace (paused (writeLastSeenEntry a (Some e) w)) with true by done.
Qed.




(** ** Re-evaluation when the page is shown *)

(** Two stored keys never lead to the same record. *)
Lemma store_address_key w k a k' :
  storeOk w → (k, a) ∈ recordStore w → (k', a) ∈ recordStore w → k' = k.
Proof.
  intros [_ Hst] H1 H2.
  destruct (Hst k a H1) as (r & Hr & Hid & _).
  destruct (Hst k' a H2) as (r' & Hr' & Hid' & _). congruence.
Qed.

Lemma handleObserverEntry_paused_flag now e w w' :
  handleObserverEntry now e w = Some w' → paused w' = paused w.
Proof.
  unfold handleObserverEntry. destruct (recordOf w (target e)) as [[a r]|]; [|done].
  change (paused (writeLastSeenEntry a (Some e) w)) with (paused w).
  destruct (paused w) eqn:Hp; intros [= <-]; [done|].
  pose proof (forEachState_sameShape a (processState now e r a)
                (writeLastSeenEntry a (Some e) w)
                (λ i st w0, processState_sameObjects now e r a i st w0)) as (_&_&H1&_).
  pose proof (flushQueuedEntries_sameShape
                (forEachState a (processState now e r a) (writeLastSeenEntry a (Some e) w)))
    as (_&_&H2&_).
  by rewrite H2, H1.
Qed.

(** Re-evaluating the record at [a'] of a stored key: what happens to the
    record at [a], when that is another record and when it is this one. *)
Lemma reevaluate_stored now k' a' w :
  Inv w → paused w = false → (k', a') ∈ recordStore w →
  ∃ w', reevaluate now a' w = Some w' ∧ Inv w'
        ∧ recordStore w' = recordStore w ∧ paused w' = false
        ∧ (∀ a, a ≠ a' → heap w' !! a = heap w !! a)
        ∧ (∀ r e, heap w !! a' = Some r → lastSeenEntry r = Some e →
             ∃ r', heap w' !! a' = Some r'
                   ∧ lastSeenEntry r' = Some (restamp now e)
                   ∧ ∀ i st, thresholdStates r !! i = Some st →
                       ∃ st', stateAt a' i w' = Some st'
                              ∧ lastEntry st' = Some (restamp now e)
                              ∧ lastSatisfied st'
                                = entrySatisfiesRatio (restamp now e) (ratio (threshold st))
                              ∧ threshold st' = threshold st).
Proof.
  intros Hi Hp Hin. pose proof Hi as (Ht & Hv & Hs & Hq).
  destruct (proj2 Hs k' a' Hin) as (r & Hr & Hid & Hseen).
  unfold reevaluate. rewrite Hr.
  destruct (lastSeenEntry r) as [e|] eqn:He.
  2:{ exists w. do 5 (split; [done|]). intros r0 e0 ? ?. congruence. }
  specialize (Hseen e eq_refl).
  set (e' := restamp now e). set (w1 := writeLastSeenEntry a' (Some e') w).
  assert (Hs1 : storeOk w1) by (by apply (storeOk_writeLastSeenEntry k')).
  destruct (recordOf_stored w1 k' a' (target e') Hs1 Hin Hseen) as (r1 & Hrec & Hr1).
  assert (Hr1' : r1 = with_lastSeenEntry (Some e') r).
  { subst w1. cbn in Hr1. rewrite list_lookup_alter_eq, Hr in Hr1. by simplify_eq/=. }
  destruct (handleObserverEntry_active now e' w1 a' r1 Hrec Hp)
    as (w' & Hw' & _ & _ & Hother & (r' & Hr' & Hseen' & _) & Hstates).
  exists w'. split; [done|]. split; [|split; [|split; [|split]]].
  - eapply Inv_handleObserverEntry; [|done].
    destruct (writeLastSeenEntry_invariants a' (Some e') w (conj Ht Hv)).
    by apply Inv_intro.
  - by destruct (handleObserverEntry_store _ _ _ _ Hw').
  - by rewrite (handleObserverEntry_paused_flag _ _ _ _ Hw').
  - intros a Ha. rewrite Hother by done. subst w1. cbn. by rewrite list_lookup_alter_ne.
  - intros r0 e0 Hr0 He0.
    assert (r0 = r) as -> by congruence. assert (e0 = e) as -> by congruence.
    exists r'. split; [done|]. split; [done|].
    intros i st Hi'. destruct (Hstates i st) as [wx Hwx]; [by rewrite Hr1'|].
    eexists. split; [exact Hwx|].
    destruct (processState_state now e' r1 a' i st wx) as (H1 & H2 & H3 & _).
    by rewrite H1, H2, H3.
Qed.


(** ** Forced exits *)

Lemma exitState_isReset r time i st w : isReset (exitState r time i st w).1.
Proof. unfold exitState. by destruct (handleThresholdExiting _ st w). Qed.

Lemma handleRecordExiting_spec time a r w :
  timersOk w → heap w !! a = Some r →
  queuedEntries (handleRecordExiting a time w) = queuedEntries w ++ forcedExits time r
  ∧ calls (handleRecordExiting a time w) = calls w
  ∧ (∀ b, b ≠ a → heap (handleRecordExiting a time w) !! b = heap w !! b)
  ∧ (∀ i st', stateAt a i (handleRecordExiting a time w) = Some st' → isReset st')
  ∧ (∀ id t, timers (handleRecordExiting a time w) !! id = Some t →
       timers w !! id = Some t ∧ tm_rec t ≠ a).
Proof.
  intros Ht Hr. unfold handleRecordExiting. rewrite Hr.
  pose proof (λ i st w0, exitState_heap r time i st w0) as Hheap.
  destruct (forEachState_queue a (exitState r time) w r _ Hr Hheap
              (λ i st w0, exitState_queue r time i st w0)) as [Hq Hc].
  split; [done|]. split; [done|]. split; [|split].
  - intros b Hb. by apply forEachState_other.
  - intros i st' Hst'.
    assert (Hlen : numStates a (forEachState a (exitState r time) w) = numStates a w).
    { destruct (forEachState_sameShape a (exitState r time) w
                  (λ i st w0, exitState_sameObjects r time i st w0)) as (_&_&_&_&_&_&_&Hs).
      unfold numStates.
      assert (H : (shape <$> heap (forEachState a (exitState r time) w)) !! a
                  = (shape <$> heap w) !! a) by (by rewrite Hs).
      rewrite !list_lookup_fmap in H.
      destruct (heap (forEachState a (exitState r time) w) !! a),
               (heap w !! a); cbn in *; by simplify_eq. }
    apply stateAt_lt in Hst' as Hlt. rewrite Hlen, (numStates_heap _ _ _ Hr) in Hlt.
    destruct (lookup_lt_is_Some_2 _ _ Hlt) as [st Hst].
    destruct (forEachState_states a (exitState r time) w r i st Hr Hheap Hst) as [w0 Hw0].
    rewrite Hw0 in Hst'. simplify_eq. apply exitState_isReset.
  - pose proof (forEachState_ind a (exitState r time) w
      (λ k wk, ∀ id t, timers wk !! id = Some t →
               timers w !! id = Some t ∧ (tm_rec t = a → (k ≤ tm_idx t)%nat)) Hheap) as H.
    cbn beta in H. intros id t Hid.
    destruct (H (λ id t Hid, conj Hid (λ _, Nat.le_0_l _))) with (id := id) (t := t)
      as [Hold Hidx]; [|done|].
    + clear id t Hid. intros k wk st Hk Hst _ id t Hid.
      assert (Hid' : timers wk !! id = Some t ∧ timeoutId st ≠ Some id).
      { unfold exitState in Hid. rewrite handleThresholdExiting_eq in Hid.
        cbn [snd writeState timers set_heap] in Hid.
        apply timers_clearTimeout in Hid as [Hid Hne].
        split; [by destruct (confirmedVisible st) | done]. }
      destruct Hid' as [Hid' Hne]. destruct (Hk id t Hid') as [Hold Hidx].
      split; [done|]. intros Ha. specialize (Hidx Ha).
      destruct (decide (tm_idx t = k)) as [Hk'|]; [|lia].
      destruct (pending_timer_of_state _ _ _ _ _ _ Ht Hst Hold Ha Hk') as [Hname _].
      congruence.
    + split; [done|]. intros Ha. specialize (Hidx Ha).
      destruct (Ht id t Hold) as [_ (st & Hst & _)].
      apply stateAt_lt in Hst. rewrite Ha in Hst. lia.
Qed.

Lemma store_addresses_NoDup w : storeOk w → NoDup (recordStore w).*2.
Proof.
  intros Hs. apply NoDup_fmap_2_strong; [|eapply NoDup_fmap_1, Hs].
  intros [k a] [k' a'] H1 H2 Ha. cbn in Ha. subst a'.
  by rewrite (store_address_key w k a k' Hs H1 H2).
Qed.

Lemma flat_map_ext_elem {A B} (f g : A → list B) (l : list A) :
  (∀ x, x ∈ l → f x = g x) → flat_map f l = flat_map g l.
Proof.
  induction l as [|x l IH]; intros H; cbn [flat_map]; [done|].
  rewrite H by set_solver. rewrite IH; [done|]. intros. apply H. set_solver.
Qed.

Lemma stateAt_heap_at a i w w' :
  heap w' !! a = heap w !! a → stateAt a i w' = stateAt a i w.
Proof. unfold stateAt. by intros ->. Qed.

Lemma hidden_loop now l w :
  timersOk w ∧ visibleOk w → NoDup l.*2 →
  (∀ p, p ∈ l → is_Some (heap w !! p.2)) →
  let w' := foldl (λ w (p : Token * nat), handleRecordExiting p.2 now w) w l in
  queuedEntries w'
    = queuedEntries w
      ++ flat_map (λ p : Token * nat, from_option (forcedExits now) [] (heap w !! p.2)) l
  ∧ calls w' = calls w
  ∧ (∀ b, b ∉ l.*2 → heap w' !! b = heap w !! b)
  ∧ (∀ p i st', p ∈ l → stateAt p.2 i w' = Some st' → isReset st')
  ∧ (∀ id t, timers w' !! id = Some t → timers w !! id = Some t ∧ tm_rec t ∉ l.*2).
Proof.
  revert w. induction l as [|[k a] l IH]; intros w Htv Hnd Hvalid; cbn [foldl].
  - cbn. rewrite app_nil_r. split; [done|]. split; [done|]. split; [done|]. split.
    + intros p i st' Hp. by apply elem_of_nil in Hp.
    + intros id t Hid. split; [done | apply not_elem_of_nil].
  - cbn [snd fmap list_fmap] in *. apply NoDup_cons in Hnd as [Ha Hnd].
    destruct (Hvalid (k, a)) as [r Hr]; [set_solver|]. cbn [snd] in Hr.
    destruct (handleRecordExiting_spec now a r w (proj1 Htv) Hr)
      as (Hq1 & Hc1 & Ho1 & Hs1 & Ht1).
    set (w1 := handleRecordExiting a now w) in *.
    assert (Hsame : ∀ p, p ∈ l → heap w1 !! p.2 = heap w !! p.2).
    { intros p Hp. apply Ho1. intros Heq. apply Ha. rewrite <- Heq.
      apply list_elem_of_fmap. by exists p. }
    destruct (IH w1) as (Hq & Hc & Ho & Hs & Ht);
      [by apply handleRecordExiting_invariants | done | |].
    { intros p Hp. rewrite Hsame by done. apply Hvalid. set_solver. }
    split; [|split; [|split; [|split]]].
    + rewrite Hq, Hq1. cbn [flat_map snd]. rewrite Hr. cbn [from_option].
      rewrite <- app_assoc. do 2 f_equal.
      apply flat_map_ext_elem. intros p Hp. by rewrite Hsame.
    + by rewrite Hc.
    + intros b Hb. rewrite Ho by set_solver. apply Ho1. set_solver.
    + intros p i st' [-> | Hp]%elem_of_cons; [|by apply Hs].
      cbn [snd]. rewrite (stateAt_heap_at _ _ w1) by (by apply Ho). apply Hs1.
    + intros id t Hid. destruct (Ht id t Hid) as [Hid1 Hnl].
      destruct (Ht1 id t Hid1) as [Hid0 Hna]. split; [done | set_solver].
Qed.

Lemma confirmedVisible_true st :
  confirmedVisible st = true
  ↔ lastSatisfied st = true ∧ (hasTimeThreshold (threshold st) = true → visible st = true).
Proof.
  unfold confirmedVisible.
  destruct (lastSatisfied st), (hasTimeThreshold (threshold st)), (visible st); cbn; naive_solver.
Qed.

Lemma elem_of_forcedExits e time r :
  e ∈ forcedExits time r
  ↔ ∃ st, st ∈ thresholdStates r ∧ confirmedVisible st = true ∧ e = exitingEntry r time st.
Proof.
  unfold forcedExits. rewrite list_elem_of_In, in_flat_map. split.
  - intros (st & Hst%list_elem_of_In & He). exists st.
    destruct (confirmedVisible st); [|done].
    apply list_elem_of_In, list_elem_of_singleton in He. done.
  - intros (st & Hst & Hc & ->). exists st. split; [by apply list_elem_of_In|].
    rewrite Hc. by left.
Qed.

Lemma elem_of_hiddenBatch e time w :
  e ∈ hiddenBatch time w
  ↔ ∃ k a r st, (k, a) ∈ recordStore w ∧ heap w !! a = Some r
                ∧ st ∈ thresholdStates r ∧ confirmedVisible st = true
                ∧ e = exitingEntry r time st.
Proof.
  unfold hiddenBatch. rewrite list_elem_of_In, in_flat_map. split.
  - intros ([k a] & Hp%list_elem_of_In & He%list_elem_of_In). cbn [snd] in He.
    destruct (heap w !! a) as [r|] eqn:Hr; cbn in He; [|by apply elem_of_nil in He].
    apply elem_of_forcedExits in He as (st & ? & ? & ?). by exists k, a, r, st.
  - intros (k & a & r & st & Hin & Hr & Hst & Hc & ->).
    exists (k, a). split; [by apply list_elem_of_In|]. cbn [snd]. rewrite Hr. cbn.
    apply list_elem_of_In, elem_of_forcedExits. by exists st.
Qed.

Lemma setAllHidden_spec now w :
  timersOk w ∧ visibleOk w → storeOk w →
  calls (setAllHidden now w)
    = calls w
      ++ match queuedEntries w ++ hiddenBatch now w with
         | [] => []
         | batch => [callback batch]
         end
      ++ [observer_reset]
  ∧ queuedEntries (setAllHidden now w) = []
  ∧ (∀ k a i st', (k, a) ∈ recordStore w →
       stateAt a i (setAllHidden now w) = Some st' → isReset st')
  ∧ (∀ id t, timers (setAllHidden now w) !! id = Some t →
       timers w !! id = Some t ∧ tm_rec t ∉ (recordStore w).*2).
Proof.
  intros Htv Hs. unfold setAllHidden.
  destruct (hidden_loop now (recordStore w) w Htv (store_addresses_NoDup w Hs))
    as (Hq & Hc & _ & Hreset & Htim).
  { intros [k a] Hp. destruct (proj2 Hs k a Hp) as (r & Hr & _). by exists r. }
  set (w1 := foldl _ w (recordStore w)) in *.
  assert (Hfl : heap (flushQueuedEntries w1) = heap w1
                ∧ timers (flushQueuedEntries w1) = timers w1).
  { unfold flushQueuedEntries. by destruct (queuedEntries w1). }
  destruct Hfl as [Hfh Hft].
  split; [|split; [|split]].
  - cbn [call calls]. rewrite app_assoc. f_equal.
    unfold flushQueuedEntries. rewrite Hq. fold (hiddenBatch now w).
    destruct (queuedEntries w ++ hiddenBatch now w); cbn; rewrite Hc;
      [by rewrite app_nil_r | done].
  - cbn. apply flushQueuedEntries_queue.
  - intros k a i st' Hin Hst'. apply (Hreset (k, a) i st' Hin).
    rewrite <- Hst'. symmetry. apply stateAt_heap. cbn. done.
  - intros id t Hid. apply Htim. cbn in Hid. by rewrite Hft in Hid.
Qed.

(** ** Histories *)







(** ** Canceled timers *)



(** ** The constructor's sort *)

(** With the constructor's comparator a comparison sort cannot tell
    thresholds of positive ratio apart: every comparison answers "greater",
    so the sort rearranges any two arrays of the same length in the same
    way. *)
Lemma runSorter_blind (g : SpanielThreshold → SpanielThreshold)
    (s : ArraySort.Sorter) (l : list SpanielThreshold) :
  (∀ t, t ∈ l → (0 < ratio t)%Q ∧ (0 < ratio (g t))%Q) →
  ArraySort.runSorter thresholdComparator s (g <$> l)
  = g <$> ArraySort.runSorter thresholdComparator s l.
Proof.
  intros Hpos. induction s as [positions | i j neg _ zero _ pos IH]; cbn.
  - induction positions as [|k positions IHp]; [done|]. cbn.
    rewrite list_lookup_fmap. destruct (l !! k); cbn; by rewrite IHp.
  - rewrite !list_lookup_fmap.
    destruct (l !! i) as [u|] eqn:Hu; cbn; [|done].
    destruct (l !! j) as [v|] eqn:Hv; cbn; [|done].
    destruct (Hpos u) as [Hu1 Hu2]; [by eapply list_elem_of_lookup_2|].
    unfold thresholdComparator.
    apply Qgt_alt in Hu1, Hu2. by rewrite Hu1, Hu2.
Qed.

(** So no comparison sort run with that comparator puts both orders of
    two thresholds in ascending order: if it leaves the ascending pair
    alone, it leaves the descending pair descending. *)
Lemma comparator_cannot_sort_both_orders (s : ArraySort.Sorter) :
  ArraySort.runSorter thresholdComparator s [quarter; threeQuarters]
    = [quarter; threeQuarters] →
  ArraySort.runSorter thresholdComparator s [threeQuarters; quarter]
    = [threeQuarters; quarter]
  ∧ ascendingByRatio [threeQuarters; quarter] = false.
Proof.
  intros H. split; [|done].
  change [threeQuarters; quarter] with (swapQuarters <$> [quarter; threeQuarters]) at 1.
  rewrite runSorter_blind, H; [done|].
  intros t [-> | [-> | Hin]%elem_of_cons]%elem_of_cons; [done | done|].
  by apply elem_of_nil in Hin.
Qed.

(** ** Properties of single states *)

(** A property of state objects that fresh states have and that the two
    loop bodies and the timer closure keep holds of every state in every
    world of a run. *)
Section StateProperty.
Variable φ : SpanielThresholdState → Prop.
Hypothesis φ_fresh : ∀ t, φ (freshState t).
Hypothesis φ_sample : ∀ now e r a i st w, φ st → φ (processState now e r a i st w).1.
Hypothesis φ_exit : ∀ r time i st w, φ st → φ (exitState r time i st w).1.
Hypothesis φ_timer : ∀ st, φ st → φ (with_visible true st).

Lemma allStates_ext w w' :
  (∀ a i, stateAt a i w' = stateAt a i w) → allStates φ w → allStates φ w'.
Proof. intros Hs H a i st Hst. rewrite Hs in Hst. eauto. Qed.

Lemma allStates_writeState a i st w :
  allStates φ w → φ st → allStates φ (writeState a i st w).
Proof.
  intros H Hst a' i' st' Hst'.
  destruct (decide (a' = a ∧ i' = i)) as [[-> ->]|Hne].
  - destruct (stateAt a i w) as [s0|] eqn:Hs0.
    + rewrite stateAt_writeState_eq in Hst' by eauto. by simplify_eq.
    + exfalso. apply stateAt_lt in Hst'. rewrite numStates_writeState in Hst'.
      destruct (stateAt_is_Some a i w Hst') as [? ?]. congruence.
  - rewrite stateAt_writeState_ne in Hst' by (clear -Hne; lia). eauto.
Qed.

Lemma allStates_forEachState a body w :
  (∀ i st w0, heap (body i st w0).2 = heap w0) →
  (∀ i st w0, φ st → φ (body i st w0).1) →
  allStates φ w → allStates φ (forEachState a body w).
Proof.
  intros Hheap Hb H. apply forEachState_preserves; [done | done |].
  intros k wk st Hk Hst. apply allStates_writeState; [|by eapply Hb, Hk].
  eapply allStates_ext; [|exact Hk]. intros. by apply stateAt_heap.
Qed.

Lemma allStates_handleRecordExiting a time w :
  allStates φ w → allStates φ (handleRecordExiting a time w).
Proof.
  intros H. unfold handleRecordExiting. destruct (heap w !! a) as [r|]; [|done].
  apply allStates_forEachState; [apply exitState_heap | apply φ_exit | done].
Qed.

Lemma allStates_flush w : allStates φ w → allStates φ (flushQueuedEntries w).
Proof.
  apply allStates_ext. intros. apply stateAt_heap.
  unfold flushQueuedEntries. by destruct (queuedEntries w).
Qed.

Lemma allStates_handleObserverEntry now e w w' :
  allStates φ w → handleObserverEntry now e w = Some w' → allStates φ w'.
Proof.
  intros H. unfold handleObserverEntry.
  destruct (recordOf w (target e)) as [[a r]|]; [|done].
  assert (H1 : allStates φ (writeLastSeenEntry a (Some e) w)).
  { eapply allStates_ext; [|exact H]. intros. apply stateAt_writeLastSeenEntry. }
  destruct (paused _); intros [= <-]; [done|].
  apply allStates_flush, allStates_forEachState; [apply processState_heap | apply φ_sample | done].
Qed.

Lemma allStates_setAllHidden now w : allStates φ w → allStates φ (setAllHidden now w).
Proof.
  intros H. unfold setAllHidden.
  apply (allStates_ext (flushQueuedEntries
           (foldl (λ w (p : Token * nat), handleRecordExiting p.2 now w) w (recordStore w))));
    [done|].
  apply allStates_flush, (foldl_preserves _ (allStates φ)); [|done].
  intros. by apply allStates_handleRecordExiting.
Qed.

Lemma allStates_step now ev w w' :
  allStates φ w → step now ev w = Some w' → allStates φ w'.
Proof.
  intros H. destruct ev; cbn [step].
  - intros [= <-]. rewrite observe_eq. cbn [snd].
    intros a i st. unfold stateAt. cbn.
    destruct (decide (a < length (heap w))%nat) as [Hlt|Hge].
    + rewrite lookup_app_l by done. apply H.
    + rewrite lookup_app_r by lia.
      destruct (a - length (heap w))%nat; cbn; [|done].
      rewrite list_lookup_fmap. destruct (thresholds w !! i); cbn; [|done].
      intros [= <-]. apply φ_fresh.
  - intros [= <-]. unfold unobserve. destruct (recordOf w el) as [[a r]|]; [|done].
    by destruct (spanielIds w !! el).
  - intros [= <-]. by apply (allStates_setAllHidden now w).
  - unfold internalCallback.
    apply (foldl_option_preserves (λ w e, handleObserverEntry now e w) (allStates φ)); [|done].
    intros x b y Hx Hy. by eapply allStates_handleObserverEntry.
  - destruct (hasDOM w); intros [= <-]; [|done].
    by apply (allStates_setAllHidden now (set_paused true w)).
  - destruct (hasDOM w); [|by intros [= <-]]. unfold onTabShown.
    apply (foldl_option_preserves (λ w (p : Token * nat), reevaluate now p.2 w) (allStates φ));
      [|done].
    intros x b y Hx. unfold reevaluate.
    destruct (heap x !! b.2) as [r|]; [|by intros [= <-]].
    destruct (lastSeenEntry r) as [e|]; [|by intros [= <-]].
    apply allStates_handleObserverEntry.
    eapply allStates_ext; [|exact Hx]. intros. apply stateAt_writeLastSeenEntry.
  - destruct (hasDOM w); intros [= <-]; [|done].
    by apply (allStates_setAllHidden now (set_paused true w)).
  - destruct (timers w !! id) as [t|]; [|done]. case_decide; [|done]. intros [= <-].
    unfold timerBody.
    destruct (stateAt (tm_rec t) (tm_idx t)
                (set_timers (delete id (timers w)) (nextTimer w) w)) as [st|] eqn:Hst; [|done].
    apply (allStates_ext (writeState (tm_rec t) (tm_idx t) (with_visible true st) w)); [done|].
    apply allStates_writeState; [done|]. apply φ_timer. by apply (H _ _ _ Hst).
  - destruct (work w !! k) as [a|]; [|done]. intros [= <-]. unfold runWork.
    by apply allStates_flush, (allStates_handleRecordExiting a now (set_work _ w)).
Qed.

Lemma allStates_run evs w w' : allStates φ w → run evs w = Some w' → allStates φ w'.
Proof.
  revert w. induction evs as [|[now ev] evs IH]; intros w H; cbn [run].
  - by intros [= <-].
  - destruct (step now ev w) as [w1|] eqn:Hs; [|done]. cbn.
    apply IH. by eapply allStates_step.
Qed.

End StateProperty.

(** In no world of a run has a state of a threshold without a time had
    its [lastVisible] assigned; the exit entry such a state queues has the
    exit time itself as its [duration]. *)
Lemma lastVisible_unset_without_time sort dom ts evs w0 w :
  construct sort dom (Some ts) = Some w0 → run evs w0 = Some w →
  allStates lastVisibleUnset w.
Proof.
  intros [= <-]. apply allStates_run.
  - by intros t.
  - intros now e r a i st w1 H. unfold lastVisibleUnset in *.
    destruct (processState_state now e r a i st w1) as (_ & _ & Hth & _).
    rewrite Hth. intros Htime. specialize (H Htime).
    unfold processState. rewrite Htime.
    destruct (entrySatisfiesRatio e _ && negb (lastSatisfied st)); [done|].
    destruct (negb (entrySatisfiesRatio e _)); [|done].
    rewrite handleThresholdExiting_eq. by destruct (confirmedVisible st).
  - intros r time i st w1 H. unfold lastVisibleUnset, exitState in *.
    rewrite handleThresholdExiting_eq. by destruct (confirmedVisible st).
  - intros st H. exact H.
  - intros a i st Hst. unfold stateAt in Hst. cbn in Hst. by rewrite lookup_nil in Hst.
Qed.

Lemma no_time_exit_duration e st x :
  lastVisibleUnset st → hasTimeThreshold (threshold st) = false →
  x ∈ exitOut e st → duration x = se_time e.
Proof.
  intros H Htime. unfold exitOut. rewrite (H Htime).
  destruct (confirmedVisible st); [|by intros ?%elem_of_nil].
  intros ->%list_elem_of_singleton. cbn. lia.
Qed.

(** * The claims *)

(** C1, evaluated.  Threshold 50pct without a time; one element sampled
    at ratio 0.2 (time 100), 0.6 (time 200) and 0.3 (time 300).  The
    entering entry has duration 0, and the exiting entry has duration 300,
    the time of the exit sample itself, not 300 - 200: on this path
    [lastVisible] is never assigned and is still [null] at the exit. *)
Theorem exit_duration_without_time_is_the_exit_time :
  let w := worldAfter [halfVisible]
             [(0, Observe 7%nat None);
              (100, Samples [sampleAt 7%nat (1 # 5) 100]);
              (200, Samples [sampleAt 7%nat (3 # 5) 200]);
              (300, Samples [sampleAt 7%nat (3 # 10) 300])] in
  calls w
  = [observer_observe 7%nat;
     callback [mkSOE (3 # 5) 200 (mkRect 0 0 1024 768) (mkRect 0 100 200 100)
                 (mkRect 0 100 200 60) 7%nat 0 (Some true) None "50pct"];
     callback [mkSOE (3 # 10) 300 (mkRect 0 0 1024 768) (mkRect 0 100 200 100)
                 (mkRect 0 100 200 60) 7%nat 300 (Some false) None "50pct"]]
  ∧ (lastVisible <$> stateAt 0 0 w) = Some None.
Proof. by vm_compute. Qed.

(** C2, evaluated.  With the comparator [(t) => t.ratio] the thresholds
    0.5, 0.25, 0.75 are not stored in ascending order: an engine that
    sorts short arrays by insertion stores them as 0.75, 0.25, 0.5, and an
    engine whose sort moves an element only on a negative comparison (here
    one that emits the array as it is) stores them as given. *)
Theorem constructor_does_not_sort_by_ratio :
  let ts := [halfVisible; quarter; threeQuarters] in
  (thresholds <$> construct ArraySort.InsertionSort true (Some ts))
    = Some [threeQuarters; quarter; halfVisible]
  ∧ ascendingByRatio [threeQuarters; quarter; halfVisible] = false
  ∧ (thresholds <$>
       construct (λ cmp, ArraySort.runSorter cmp (ArraySort.Emit [0; 1; 2]%nat)) true (Some ts))
    = Some ts
  ∧ ascendingByRatio ts = false.
Proof. by vm_compute. Qed.










(** C7.  While the observer is paused, a batch of samples for tracked
    elements is received without raising and without being processed: no
    call is made, so the callback is not invoked; nothing is queued; no
    timer is set or cleared; every threshold state of every record is
    what it was; and the observer is still paused afterwards. *)
Theorem paused_samples_are_not_processed (now : Z)
    (records : list IntersectionObserverEntry) (w : World) :
  paused w = true →
  (∀ e, e ∈ records → is_Some (recordOf w (target e))) →
  ∃ w', internalCallback now records w = Some w'
        ∧ calls w' = calls w
        ∧ queuedEntries w' = queuedEntries w
        ∧ timers w' = timers w ∧ nextTimer w' = nextTimer w
        ∧ (∀ a i, stateAt a i w' = stateAt a i w)
        ∧ paused w' = true.
Proof.
  unfold internalCallback. revert w.
  induction records as [|e records IH]; intros w Hp Htracked; cbn [foldl].
  - exists w. by repeat split.
  - destruct (Htracked e) as [[a r] Hrec]; [set_solver|].
    cbn. rewrite (handleObserverEntry_paused _ _ _ _ _ Hrec Hp).
    destruct (IH (writeLastSeenEntry a (Some e) w)) as (w' & Hw' & Hc & Hq & Ht & Hn & Hs & Hp').
    + done.
    + intros e' He'. rewrite recordOf_writeLastSeenEntry.
      destruct (Htracked e') as [p Hp'']; [set_solver|]. rewrite Hp''. by eexists.
    + exists w'. split; [done|]. repeat split; try done.
      intros a0 i0. rewrite Hs. apply stateAt_writeLastSeenEntry.
Qed.

Lemma paused_samples_are_not_processed_witness :
  let w := worldAfter [halfVisible; viewable]
             [(0, Observe 7%nat None); (10, Samples [sampleAt 7%nat (3 # 5) 10]); (20, PageHidden)] in
  let records := [sampleAt 7%nat (1 # 10) 30; sampleAt 7%nat (9 # 10) 40] in
  ∃ w', internalCallback 40 records w = Some w'
        ∧ calls w' = calls w
        ∧ queuedEntries w' = queuedEntries w
        ∧ timers w' = timers w ∧ nextTimer w' = nextTimer w
        ∧ (∀ a i, stateAt a i w' = stateAt a i w)
        ∧ paused w' = true.
Proof.
  apply paused_samples_are_not_processed.
  - vm_compute. reflexivity.
  - intros e He. apply elem_of_cons in He as [-> | He].
    + vm_compute. eexists. reflexivity.
    + apply list_elem_of_singleton in He as ->. vm_compute. eexists. reflexivity.
Defined.



(** C9.  In every world an observer can reach, a threshold state has at
    most one pending dwell timer: two pending timers that captured the same
    state object are the same timer.  The reason is in the state itself:
    while a timer is pending its state names it in [timeoutId], belongs to
    a time threshold and has [lastSatisfied] set, so the rising-edge branch
    cannot be taken again; and a sample sets a timer only on that branch,
    that is when the ratio is satisfied, [lastSatisfied] was false and the
    threshold has a time. *)
Theorem one_pending_timer_per_state
    (sort : (SpanielThreshold → SpanielThreshold → Q) → list SpanielThreshold → list SpanielThreshold)
    (dom : bool) (ts : list SpanielThreshold) (evs : list (Z * Event)) (w0 w : World) :
  construct sort dom (Some ts) = Some w0 →
  run evs w0 = Some w →
  (∀ id1 t1 id2 t2,
     timers w !! id1 = Some t1 → timers w !! id2 = Some t2 →
     tm_rec t1 = tm_rec t2 → tm_idx t1 = tm_idx t2 → id1 = id2)
  ∧ (∀ id t, timers w !! id = Some t →
       ∃ st, stateAt (tm_rec t) (tm_idx t) w = Some st
             ∧ timeoutId st = Some id
             ∧ lastSatisfied st = true
             ∧ hasTimeThreshold (threshold st) = true)
  ∧ (∀ now e r a i st wx,
       nextTimer (processState now e r a i st wx).2 ≠ nextTimer wx →
       entrySatisfiesRatio e (ratio (threshold st)) = true
       ∧ lastSatisfied st = false
       ∧ hasTimeThreshold (threshold st) = true)
  ∧ (∀ r time i st wx, nextTimer (exitState r time i st wx).2 = nextTimer wx).
Proof.
  intros Hc Hrun.
  assert (Hi : Inv w) by (eapply Inv_run; [by eapply Inv_construct | done]).
  destruct Hi as (Ht & _). split_and!.
  - intros id1 t1 id2 t2 H1 H2 Hr Hx.
    destruct (Ht id1 t1 H1) as [_ (st1 & Hst1 & Hm1 & _)].
    destruct (Ht id2 t2 H2) as [_ (st2 & Hst2 & Hm2 & _)].
    rewrite Hr, Hx in Hst1. congruence.
  - intros id t Hid. destruct (Ht id t Hid) as [_ (st & Hst & Hm)].
    exists st. unfold timerMatches in Hm. tauto.
  - intros now e r a i st wx Hne. unfold processState in Hne.
    destruct (entrySatisfiesRatio e _); cbn [andb negb] in Hne.
    + destruct (lastSatisfied st); cbn [negb] in Hne; [done|].
      by destruct (hasTimeThreshold (threshold st)).
    + rewrite handleThresholdExiting_eq in Hne. cbn [snd] in Hne.
      by destruct (confirmedVisible st), (timeoutId st).
  - intros r time i st wx. unfold exitState.
    rewrite handleThresholdExiting_eq.
    by destruct (confirmedVisible st), (timeoutId st).
Qed.

Lemma one_pending_timer_per_state_witness :
  let w := worldAfter [viewable]
             [(0, Observe 7%nat None); (10, Samples [sampleAt 7%nat (3 # 5) 10])] in
  is_Some (timers w !! 0%nat)
  ∧ (∀ id1 t1 id2 t2,
       timers w !! id1 = Some t1 → timers w !! id2 = Some t2 →
       tm_rec t1 = tm_rec t2 → tm_idx t1 = tm_idx t2 → id1 = id2).
Proof.
  split; [vm_compute; eexists; reflexivity|].
  refine (proj1 (one_pending_timer_per_state ArraySort.InsertionSort true [viewable]
                   [(0, Observe 7%nat None); (10, Samples [sampleAt 7%nat (3 # 5) 10])]
                   (worldAfter [viewable] []) _ _ _)).
  - reflexivity.
  - vm_compute. reflexivity.
Defined.

(** C10.  [unobserve] on an element for which the store holds no record
    (never observed, or already unobserved) raises nothing and changes
    nothing: the world it returns is the world it was given, so no call
    was made (no callback, no call on the intersection primitive, no
    deferred work scheduled) and the store and every record are as they
    were. *)
Theorem unobserve_untracked_is_noop (now : Z) (el : SpanielTrackedElement) (w : World) :
  (∀ k, spanielIds w !! el = Some k → store_get k (recordStore w) = None) →
  unobserve el w = w ∧ step now (Unobserve el) w = Some w.
Proof.
  intros Hno.
  assert (H : unobserve el w = w).
  { unfold unobserve, recordOf.
    destruct (spanielIds w !! el) as [k|] eqn:Hk; cbn; [|done].
    by rewrite (Hno k eq_refl). }
  split; [done|]. cbn [step]. by rewrite H.
Qed.

Lemma unobserve_untracked_is_noop_witness :
  let w := worldAfter [halfVisible] [(0, Observe 7%nat None); (5, Unobserve 7%nat)] in
  let w' := worldAfter [halfVisible] [] in
  (unobserve 7%nat w = w ∧ step 9 (Unobserve 7%nat) w = Some w)
  ∧ (unobserve 3%nat w' = w' ∧ step 9 (Unobserve 3%nat) w' = Some w').
Proof.
  split.
  - apply unobserve_untracked_is_noop. intros k Hk.
    vm_compute in Hk. injection Hk as <-. reflexivity.
  - apply unobserve_untracked_is_noop. intros k Hk. vm_compute in Hk. discriminate Hk.
Defined.

(** * Further properties of the code *)

(** ** Lemmas on the store *)

Lemma store_delete_set_fresh k a s :
  k ∉ s.*1 → store_delete k (store_set k a s) = s.
Proof.
  unfold store_delete.
  induction s as [|[k1 a1] s IH]; cbn [store_set fmap list_fmap fst]; intros Hk.
  - rewrite filter_cons. cbn. by destruct (decide (k ≠ k)).
  - destruct (decide (k = k1)) as [->|Hne]; [set_solver|].
    rewrite filter_cons. cbn [fst]. destruct (decide (k1 ≠ k)) as [_|Hn]; [|by destruct Hn].
    f_equal. apply IH. set_solver.
Qed.

Lemma recordOf_unobserve el w : recordOf (unobserve el w) el = None.
Proof.
  unfold unobserve. destruct (recordOf w el) as [[a r]|] eqn:Hrec; [|done].
  destruct (recordOf_Some _ _ _ _ Hrec) as (k & Hk & _).
  rewrite Hk. unfold recordOf. cbn. rewrite Hk. cbn. by rewrite store_get_delete.
Qed.

(** X1.  In every world an observer can reach, between two events: the
    queue is empty, and a state that is [visible] has [lastSatisfied];
    this holds of every state object, those of records no longer in the
    store included, and also while the observer is paused. *)
Theorem visible_states_are_satisfied
    (sort : (SpanielThreshold → SpanielThreshold → Q) → list SpanielThreshold → list SpanielThreshold)
    (dom : bool) (ts : list SpanielThreshold) (evs : list (Z * Event)) (w0 w : World) :
  construct sort dom (Some ts) = Some w0 →
  run evs w0 = Some w →
  queuedEntries w = []
  ∧ ∀ a i st, stateAt a i w = Some st → visible st = true → lastSatisfied st = true.
Proof.
  intros Hc Hrun.
  assert (Hi : Inv w) by (eapply Inv_run; [by eapply Inv_construct | done]).
  destruct Hi as (_ & Hv & _ & Hq). split; [done|]. exact Hv.
Qed.

Lemma visible_states_are_satisfied_witness :
  let evs := [(0, Observe 7%nat None); (3, Samples [sampleAt 7%nat (3 # 5) 0]);
              (1004, TimerFires 0%nat); (1200, PageHidden)] in
  let w := worldAfter [halfVisible; viewable] evs in
  queuedEntries w = []
  ∧ ∀ a i st, stateAt a i w = Some st → visible st = true → lastSatisfied st = true.
Proof.
  intros evs w.
  apply (visible_states_are_satisfied ArraySort.InsertionSort true [halfVisible; viewable]
           evs (worldAfter [halfVisible; viewable] [])).
  - reflexivity.
  - vm_compute. reflexivity.
Defined.

(** X2.  A sample that arrives for an element after [unobserve] was
    called for it, or for any element after [disconnect], finds no record
    and raises; so does the batch it is part of. *)
Theorem sample_after_unobserve_or_disconnect_raises (now now' : Z)
    (e : IntersectionObserverEntry) (w : World) :
  handleObserverEntry now e (unobserve (target e) w) = None
  ∧ handleObserverEntry now e (disconnect now' w) = None
  ∧ (∀ post, internalCallback now (e :: post) (unobserve (target e) w) = None)
  ∧ (∀ post, internalCallback now (e :: post) (disconnect now' w) = None).
Proof.
  assert (H1 : handleObserverEntry now e (unobserve (target e) w) = None).
  { unfold handleObserverEntry. by rewrite recordOf_unobserve. }
  assert (H2 : handleObserverEntry now e (disconnect now' w) = None).
  { unfold handleObserverEntry, recordOf, disconnect. cbn.
    by destruct (spanielIds _ !! target e). }
  split; [done|]. split; [done|].
  split; intros post; unfold internalCallback; cbn [foldl]; cbn [mbind option_bind].
  - rewrite H1. apply foldl_option_None.
  - rewrite H2. apply foldl_option_None.
Qed.

(** What [observe] leaves behind. *)
Lemma observe_spec (el : SpanielTrackedElement) (payload : Payload) (w : World) :
  let id := (observe el payload w).1 in
  let w' := (observe el payload w).2 in
  spanielIds w' !! el = Some id
  ∧ (∀ id0, spanielIds w !! el = Some id0 → id = id0)
  ∧ recordOf w' el
    = Some (length (heap w), mkRecord el payload (freshState <$> thresholds w) None)
  ∧ (∀ a r, heap w !! a = Some r → heap w' !! a = Some r)
  ∧ calls w' = calls w ++ [observer_observe el]
  ∧ timers w' = timers w ∧ queuedEntries w' = queuedEntries w ∧ paused w' = paused w.
Proof.
  rewrite observe_eq. cbn [fst snd].
  split; [|split; [|split; [|split]]].
  - cbn. by rewrite lookup_insert_eq.
  - intros id0 H. by rewrite H.
  - unfold recordOf. cbn. rewrite lookup_insert_eq. cbn. rewrite store_get_set. cbn.
    rewrite lookup_app_r by done. by rewrite Nat.sub_diag.
  - intros a r Hr. cbn. by apply lookup_app_l_Some.
  - done.
Qed.

(** X3.  [observe] followed by a lookup: the element carries the returned
    key, an element that had a key keeps it, and the store holds under that
    key a new record with the given payload, no last seen sample and one
    fresh state for each threshold of the observer, in their order.  The
    record objects that existed stay as they were; [observe] tells the
    intersection primitive and reaches neither the callback, the queue nor
    the timers. *)
Theorem observe_then_lookup (el : SpanielTrackedElement) (payload : Payload) (w : World) :
  let id := (observe el payload w).1 in
  let w' := (observe el payload w).2 in
  spanielIds w' !! el = Some id
  ∧ (∀ id0, spanielIds w !! el = Some id0 → id = id0)
  ∧ recordOf w' el
    = Some (length (heap w), mkRecord el payload (freshState <$> thresholds w) None)
  ∧ (∀ a r, heap w !! a = Some r → heap w' !! a = Some r)
  ∧ calls w' = calls w ++ [observer_observe el]
  ∧ timers w' = timers w ∧ queuedEntries w' = queuedEntries w ∧ paused w' = paused w.
Proof. apply observe_spec. Qed.

(** X4.  Observing again an element that has a record: the key and the
    keys of the store stay, and the store now holds a fresh record for the
    element under it.  The old record is not exited: its object keeps its
    states, its pending timers stay pending, and nothing is queued or
    delivered. *)
Theorem observe_again_replaces_the_record
    (el : SpanielTrackedElement) (payload : Payload) (w : World)
    (a : nat) (r : SpanielRecord) :
  recordOf w el = Some (a, r) →
  let w' := (observe el payload w).2 in
  spanielIds w !! el = Some (observe el payload w).1
  ∧ (recordStore w').*1 = (recordStore w).*1
  ∧ nextToken w' = nextToken w
  ∧ (∃ a', a' ≠ a
       ∧ recordOf w' el
         = Some (a', mkRecord el payload (freshState <$> thresholds w) None))
  ∧ heap w' !! a = Some r
  ∧ timers w' = timers w
  ∧ queuedEntries w' = queuedEntries w
  ∧ work w' = work w
  ∧ calls w' = calls w ++ [observer_observe el].
Proof.
  intros Hrec w'.
  destruct (recordOf_Some _ _ _ _ Hrec) as (k & Hk & Hget & Hr).
  pose proof (observe_spec el payload w) as (_ & _ & Hlook & Hheap & Hcalls & Ht & Hq & _).
  fold w' in Hlook, Hheap, Hcalls, Ht, Hq.
  subst w'. rewrite observe_eq in *. cbn [fst snd] in *. rewrite Hk in *. cbn [default] in *.
  split; [done|]. split; [|split; [done|split; [|split; [by apply Hheap|done]]]].
  - cbn. rewrite store_set_keys.
    destruct (decide (k ∈ (recordStore w).*1)) as [|Hn]; [done|].
    destruct Hn. apply list_elem_of_fmap. exists (k, a). split; [done|].
    by apply store_get_elem_of.
  - exists (length (heap w)). split; [|done].
    apply lookup_lt_Some in Hr. lia.
Qed.

Lemma observe_again_replaces_the_record_witness :
  let evs := [(0, Observe 7%nat None); (3, Samples [sampleAt 7%nat (3 # 5) 0])] in
  let w := worldAfter [halfVisible; viewable] evs in
  let w' := (observe 7%nat (Some 1%nat) w).2 in
  (∃ st, stateAt 0 1 w' = Some st ∧ visible st = true)
  ∧ is_Some (timers w' !! 0%nat)
  ∧ recordOf w' 7%nat
    = Some (1%nat, mkRecord 7%nat (Some 1%nat) (freshState <$> [viewable; halfVisible]) None)
  ∧ calls w' = calls w ++ [observer_observe 7%nat].
Proof.
  intros evs w w'.
  assert (Hrec : ∃ r, recordOf w 7%nat = Some (0%nat, r)).
  { vm_compute. eexists. reflexivity. }
  destruct Hrec as [r Hrec].
  destruct (observe_again_replaces_the_record 7%nat (Some 1%nat) w 0%nat r Hrec)
    as (_ & _ & _ & _ & _ & _ & _ & _ & Hcalls).
  split; [vm_compute; eexists; split; reflexivity|].
  split; [vm_compute; eexists; reflexivity|].
  split; [vm_compute; reflexivity | exact Hcalls].
Defined.

(** X5.  [observe] and then [unobserve] of an element whose key is not in
    the store leave the store as it was.  The intersection primitive is
    told of both, and one closure is scheduled for the record that was
    created and removed; nothing is queued or delivered by the two
    calls. *)
Theorem observe_then_unobserve (el : SpanielTrackedElement) (payload : Payload) (w : World) :
  default (nextToken w) (spanielIds w !! el) ∉ (recordStore w).*1 →
  let w' := unobserve el (observe el payload w).2 in
  recordStore w' = recordStore w
  ∧ recordOf w' el = None
  ∧ calls w' = calls w ++ [observer_observe el; observer_unobserve el]
  ∧ work w' = work w ++ [length (heap w)]
  ∧ timers w' = timers w ∧ queuedEntries w' = queuedEntries w.
Proof.
  intros Hfresh w'.
  split; [|split; [apply recordOf_unobserve|]].
  - subst w'. unfold unobserve.
    pose proof (observe_spec el payload w) as (Hid & _ & Hlook & _).
    cbn zeta in Hid, Hlook. rewrite Hlook, Hid. cbn.
    rewrite observe_eq. cbn. by apply store_delete_set_fresh.
  - subst w'. unfold unobserve.
    pose proof (observe_spec el payload w) as (Hid & _ & Hlook & _ & Hc & Ht & Hq & _).
    cbn zeta in Hid, Hlook, Hc, Ht, Hq. rewrite Hlook, Hid. cbn.
    rewrite Hc, Ht, Hq, <- app_assoc. cbn.
    split; [done|]. split; [|done]. rewrite observe_eq. done.
Qed.

Lemma observe_then_unobserve_witness :
  let evs := [(0, Observe 7%nat None); (3, Samples [sampleAt 7%nat (3 # 5) 0])] in
  let w := worldAfter [halfVisible; viewable] evs in
  let w' := unobserve 8%nat (observe 8%nat None w).2 in
  recordStore w' = recordStore w
  ∧ recordOf w' 8%nat = None
  ∧ calls w' = calls w ++ [observer_observe 8%nat; observer_unobserve 8%nat]
  ∧ work w' = work w ++ [length (heap w)]
  ∧ timers w' = timers w ∧ queuedEntries w' = queuedEntries w.
Proof.
  intros evs w.
  apply (observe_then_unobserve 8%nat None w).
  vm_compute. intros H. by repeat (apply elem_of_cons in H as [H|H]; [discriminate H|]); apply elem_of_nil in H.
Defined.

(** ** Deferred exits and disconnecting *)

Lemma flushQueuedEntries_calls w :
  calls (flushQueuedEntries w)
  = calls w ++ match queuedEntries w with [] => [] | batch => [callback batch] end
  ∧ heap (flushQueuedEntries w) = heap w
  ∧ timers (flushQueuedEntries w) = timers w
  ∧ work (flushQueuedEntries w) = work w.
Proof.
  unfold flushQueuedEntries. destruct (queuedEntries w); cbn; [|done].
  by rewrite app_nil_r.
Qed.

Lemma delete_last_appended {A} (l : list A) (x : A) : delete (length l) (l ++ [x]) = l.
Proof. induction l as [|y l IH]; cbn; [done|]. by f_equal. Qed.

(** What running the deferred closure of [unobserve] does, for the record
    at [a]. *)
Lemma runWork_spec now a r w :
  timersOk w → queuedEntries w = [] → heap w !! a = Some r →
  calls (runWork now a w)
  = calls w ++ match forcedExits now r with [] => [] | batch => [callback batch] end
  ∧ queuedEntries (runWork now a w) = []
  ∧ work (runWork now a w) = work w
  ∧ recordStore (runWork now a w) = recordStore w
  ∧ (∀ b, b ≠ a → heap (runWork now a w) !! b = heap w !! b)
  ∧ (∀ i st', stateAt a i (runWork now a w) = Some st' → isReset st')
  ∧ (∀ id t, timers (runWork now a w) !! id = Some t →
       timers w !! id = Some t ∧ tm_rec t ≠ a).
Proof.
  intros Ht Hq Hr. unfold runWork.
  destruct (handleRecordExiting_spec now a r w Ht Hr) as (Hq1 & Hc1 & Hh1 & Hr1 & Ht1).
  destruct (flushQueuedEntries_calls (handleRecordExiting a now w)) as (Hc2 & Hh2 & Ht2 & Hw2).
  pose proof (handleRecordExiting_sameShape a now w) as (Hst & _ & _ & _ & Hwk & _).
  pose proof (flushQueuedEntries_sameShape (handleRecordExiting a now w))
    as (Hst' & _ & _ & _ & Hwk' & _).
  rewrite Hq in Hq1. cbn [app] in Hq1. rewrite Hq1, Hc1 in Hc2.
  split; [done|]. split; [apply flushQueuedEntries_queue|].
  split; [congruence|]. split; [congruence|].
  split; [intros b Hb; rewrite Hh2; by apply Hh1|].
  split.
  - intros i st'. rewrite (stateAt_heap _ _ (handleRecordExiting a now w)) by done.
    apply Hr1.
  - intros id t. rewrite Ht2. apply Ht1.
Qed.

(** X6.  [unobserve] of an element that has a record removes the record
    from the store at once and tells the intersection primitive, but exits
    nothing yet: the states and the pending timers of the record are left
    as they are and the callback is not reached.  The closure it schedules,
    when it runs next, delivers in one batch the forced exits of the
    record's states that are confirmed visible (none: no call), resets
    every state of the record and leaves no timer pending on it. *)
Theorem unobserve_defers_the_exits
    (sort : (SpanielThreshold → SpanielThreshold → Q) → list SpanielThreshold → list SpanielThreshold)
    (dom : bool) (ts : list SpanielThreshold) (evs : list (Z * Event)) (w0 w : World)
    (el : SpanielTrackedElement) (a : nat) (r : SpanielRecord) (now : Z) :
  construct sort dom (Some ts) = Some w0 →
  run evs w0 = Some w →
  recordOf w el = Some (a, r) →
  let w1 := unobserve el w in
  recordOf w1 el = None
  ∧ calls w1 = calls w ++ [observer_unobserve el]
  ∧ heap w1 = heap w ∧ timers w1 = timers w ∧ queuedEntries w1 = []
  ∧ work w1 = work w ++ [a]
  ∧ ∃ w2, step now (WorkRuns (length (work w))) w1 = Some w2
      ∧ calls w2
        = calls w1 ++ match forcedExits now r with [] => [] | batch => [callback batch] end
      ∧ work w2 = work w
      ∧ recordStore w2 = recordStore w1
      ∧ (∀ b, b ≠ a → heap w2 !! b = heap w !! b)
      ∧ (∀ i st', stateAt a i w2 = Some st' → isReset st')
      ∧ (∀ id t, timers w2 !! id = Some t → timers w !! id = Some t ∧ tm_rec t ≠ a).
Proof.
  intros Hc Hrun Hrec w1.
  assert (Hi : Inv w) by (eapply Inv_run; [by eapply Inv_construct | done]).
  destruct Hi as (Ht & Hv & Hs & Hq).
  destruct (recordOf_Some _ _ _ _ Hrec) as (k & Hk & Hget & Hr).
  split; [apply recordOf_unobserve|].
  assert (Hw1 : w1 = set_work (work w ++ [a])
                       (call (observer_unobserve el)
                          (set_recordStore (store_delete k (recordStore w)) w))).
  { subst w1. unfold unobserve. by rewrite Hrec, Hk. }
  rewrite Hw1. cbn [calls heap timers queuedEntries work set_work call set_recordStore].
  do 5 (split; [done|]).
  cbn [step work set_work]. rewrite lookup_app_r by done. rewrite Nat.sub_diag.
  cbn [lookup list_lookup]. rewrite delete_last_appended.
  eexists. split; [reflexivity|].
  set (w' := set_work (work w) _).
  destruct (runWork_spec now a r w' Ht Hq Hr) as (H1 & _ & H3 & H4 & H5 & H6 & H7).
  done.
Qed.

Lemma unobserve_defers_the_exits_witness :
  let evs := [(0, Observe 7%nat None); (3, Samples [sampleAt 7%nat (3 # 5) 0])] in
  let w := worldAfter [halfVisible; viewable] evs in
  let w1 := unobserve 7%nat w in
  recordOf w1 7%nat = None
  ∧ timers w1 = timers w
  ∧ ∃ w2, step 500 (WorkRuns 0) w1 = Some w2
      ∧ calls w2
        = calls w1
          ++ [callback [mkSOE (-1) 500 emptyRect emptyRect emptyRect 7%nat 500 (Some false)
                          None "50pct"]]
      ∧ timers w2 = ∅.
Proof.
  intros evs w w1.
  assert (Hrec : ∃ r, recordOf w 7%nat = Some (0%nat, r)
                      ∧ forcedExits 500 r
                        = [mkSOE (-1) 500 emptyRect emptyRect emptyRect 7%nat 500 (Some false)
                             None "50pct"]).
  { vm_compute. eexists. split; reflexivity. }
  destruct Hrec as (r & Hrec & Hexits).
  destruct (unobserve_defers_the_exits ArraySort.InsertionSort true
              [halfVisible; viewable] evs (worldAfter [halfVisible; viewable] []) w
              7%nat 0%nat r 500 eq_refl ltac:(vm_compute; reflexivity) Hrec)
    as (H1 & _ & _ & H2 & _ & _ & w2 & Hstep & Hcalls & _).
  split; [exact H1|]. split; [exact H2|].
  exists w2. split; [exact Hstep|]. split; [by rewrite Hcalls, Hexits|].
  vm_compute in Hstep. injection Hstep as <-. vm_compute. reflexivity.
Defined.

(** X7.  [disconnect] delivers in one batch the forced exits of every
    stored record, whether the observer is paused or not, then resets and
    disconnects the intersection primitive and empties the store: no
    element has a record afterwards, every state of the records that were
    stored is reset and no timer is left pending on them.  The elements
    keep their keys. *)
Theorem disconnect_exits_every_stored_record
    (sort : (SpanielThreshold → SpanielThreshold → Q) → list SpanielThreshold → list SpanielThreshold)
    (dom : bool) (ts : list SpanielThreshold) (evs : list (Z * Event)) (w0 w : World)
    (now : Z) :
  construct sort dom (Some ts) = Some w0 →
  run evs w0 = Some w →
  calls (disconnect now w)
  = calls w
    ++ match hiddenBatch now w with [] => [] | batch => [callback batch] end
    ++ [observer_reset; observer_disconnect]
  ∧ recordStore (disconnect now w) = []
  ∧ (∀ el, recordOf (disconnect now w) el = None)
  ∧ spanielIds (disconnect now w) = spanielIds w
  ∧ paused (disconnect now w) = paused w
  ∧ queuedEntries (disconnect now w) = []
  ∧ (∀ k a i st', (k, a) ∈ recordStore w →
       stateAt a i (disconnect now w) = Some st' → isReset st')
  ∧ (∀ k a id t, (k, a) ∈ recordStore w →
       timers (disconnect now w) !! id = Some t → tm_rec t ≠ a).
Proof.
  intros Hc Hrun.
  assert (Hi : Inv w) by (eapply Inv_run; [by eapply Inv_construct | done]).
  destruct Hi as (Ht & Hv & Hs & Hq).
  destruct (setAllHidden_spec now w (conj Ht Hv) Hs) as (Hcalls & Hqueue & Hreset & Htim).
  pose proof (setAllHidden_sameShape now w) as (_ & Hids & Hp & _).
  rewrite Hq in Hcalls. cbn [app] in Hcalls.
  unfold disconnect.
  cbn [calls recordStore spanielIds paused queuedEntries timers set_recordStore call].
  split; [by rewrite Hcalls, <- !app_assoc|].
  split; [done|].
  split; [intros el; unfold recordOf; cbn; by destruct (spanielIds _ !! el)|].
  do 3 (split; [done|]).
  split.
  - intros k a i st' Hin. apply (Hreset k a i st' Hin).
  - intros k a id t Hin Hid Ha. destruct (Htim id t Hid) as [_ Hnot].
    apply Hnot. rewrite Ha. apply list_elem_of_fmap. by exists (k, a).
Qed.

Lemma disconnect_exits_every_stored_record_witness :
  let evs := [(0, Observe 7%nat None); (3, Samples [sampleAt 7%nat (3 # 5) 0])] in
  let w := worldAfter [halfVisible; viewable] evs in
  calls (disconnect 400 w)
  = calls w
    ++ [callback [mkSOE (-1) 400 emptyRect emptyRect emptyRect 7%nat 400 (Some false)
                    None "50pct"]]
    ++ [observer_reset; observer_disconnect]
  ∧ recordStore (disconnect 400 w) = []
  ∧ timers (disconnect 400 w) = ∅.
Proof.
  intros evs w.
  destruct (disconnect_exits_every_stored_record ArraySort.InsertionSort true
              [halfVisible; viewable] evs (worldAfter [halfVisible; viewable] []) w 400
              eq_refl ltac:(vm_compute; reflexivity))
    as (Hcalls & Hstore & _).
  split; [rewrite Hcalls; vm_compute; reflexivity|].
  split; [exact Hstore|]. vm_compute. reflexivity.
Defined.

(** ** While the observer is paused *)

Lemma stateAt_observe el payload w a i st :
  stateAt a i (observe el payload w).2 = Some st →
  stateAt a i w = Some st ∨ (a = length (heap w) ∧ ∃ t, st = freshState t).
Proof.
  rewrite observe_eq. cbn [snd]. unfold stateAt. cbn [heap call set_recordStore set_heap set_spanielIds].
  destruct (decide (a < length (heap w))%nat) as [Hlt|Hge].
  - rewrite lookup_app_l by done. auto.
  - rewrite lookup_app_r by lia.
    destruct (a - length (heap w))%nat as [|n] eqn:E; cbn; [|done].
    rewrite list_lookup_fmap. destruct (thresholds w !! i) as [t|]; cbn; [|done].
    intros [= <-]. right. split; [lia | by exists t].
Qed.

Lemma reevaluate_paused_flag now a w w' :
  reevaluate now a w = Some w' → paused w' = paused w.
Proof.
  unfold reevaluate. destruct (heap w !! a) as [r|]; [|by intros [= <-]].
  destruct (lastSeenEntry r) as [e|]; [|by intros [= <-]].
  by intros ->%handleObserverEntry_paused_flag.
Qed.

Lemma onTabShown_paused_flag now w w' : onTabShown now w = Some w' → paused w' = false.
Proof.
  unfold onTabShown.
  apply (foldl_option_preserves (λ w (p : Token * nat), reevaluate now p.2 w)
           (λ w', paused w' = false)); [|done].
  intros x b y Hx Hy. by rewrite (reevaluate_paused_flag _ _ _ _ Hy).
Qed.

Lemma pausedOk_handleObserverEntry now e w w' :
  pausedOk w → handleObserverEntry now e w = Some w' → pausedOk w'.
Proof.
  intros Hp H Hpaused.
  pose proof (handleObserverEntry_paused_flag _ _ _ _ H) as Hflag.
  rewrite Hpaused in Hflag. symmetry in Hflag.
  destruct (Hp Hflag) as [Hst Htm].
  pose proof H as H'. unfold handleObserverEntry in H'.
  destruct (recordOf w (target e)) as [[a r]|] eqn:Hrec; [|done]. clear H'.
  rewrite (handleObserverEntry_paused _ _ _ _ _ Hrec Hflag) in H. simplify_eq.
  split.
  - intros k b i st Hin. rewrite stateAt_writeLastSeenEntry. by apply (Hst k b i st).
  - exact Htm.
Qed.

Lemma pausedOk_step now ev w w' :
  Inv w → pausedOk w → step now ev w = Some w' → pausedOk w'.
Proof.
  intros Hi Hp. pose proof Hi as (Ht & Hv & Hs & Hq). destruct ev; cbn [step].
  - (* observe *)
    intros [= <-] Hpaused.
    assert (Hpw : paused w = true).
    { rewrite observe_eq in Hpaused. exact Hpaused. }
    destruct (Hp Hpw) as [Hst Htm].
    assert (Hstore : ∀ k a, (k, a) ∈ recordStore (observe el payload w).2 →
              a = length (heap w) ∨ (k, a) ∈ recordStore w).
    { rewrite observe_eq. cbn. intros k a [Heq|Hin]%elem_of_store_set; [|by right].
      left. congruence. }
    split.
    + intros k a i st Hin Hstate.
      destruct (stateAt_observe _ _ _ _ _ _ Hstate) as [Hold | [_ [t ->]]]; [|done].
      destruct (Hstore k a Hin) as [-> | Hin']; [|by apply (Hst k a i st)].
      unfold stateAt in Hold. by rewrite lookup_ge_None_2 in Hold.
    + intros id t Hid Hmem. apply list_elem_of_fmap in Hmem as ([k a] & Ha & Hin).
      cbn in Ha. subst a.
      assert (Hid' : timers w !! id = Some t) by (by rewrite observe_eq in Hid).
      destruct (Hstore k _ Hin) as [Heq | Hin'].
      * destruct (Ht id t Hid') as [_ (st & Hstate & _)].
        unfold stateAt in Hstate. rewrite Heq in Hstate.
        by rewrite lookup_ge_None_2 in Hstate.
      * apply (Htm id t Hid'). apply list_elem_of_fmap. by exists (k, tm_rec t).
  - (* unobserve *)
    intros [= <-]. unfold unobserve.
    destruct (recordOf w el) as [[a r]|]; [|done].
    destruct (spanielIds w !! el) as [k|]; [|exact Hp].
    intros Hpaused. destruct (Hp Hpaused) as [Hst Htm]. split.
    + intros k' b i st Hin. cbn in Hin. unfold store_delete in Hin.
      apply list_elem_of_filter in Hin as [_ Hin]. by apply (Hst k' b i st).
    + intros id t Hid Hmem. apply (Htm id t Hid).
      apply list_elem_of_fmap in Hmem as (p & Hp2 & Hin). cbn in Hin.
      unfold store_delete in Hin. apply list_elem_of_filter in Hin as [_ Hin].
      apply list_elem_of_fmap. by exists p.
  - (* disconnect *)
    intros [= <-] _. split.
    + intros k a i st Hin. by apply elem_of_nil in Hin.
    + intros id t _ Hmem. by apply elem_of_nil in Hmem.
  - (* samples *)
    unfold internalCallback.
    apply (foldl_option_preserves (λ w e, handleObserverEntry now e w) pausedOk); [|done].
    intros x b y. apply pausedOk_handleObserverEntry.
  - (* hidden *)
    destruct (hasDOM w); intros [= <-]; [|done]. intros _.
    unfold onTabHidden.
    destruct (setAllHidden_spec now (set_paused true w) (conj Ht Hv) Hs)
      as (_ & _ & Hreset & Htim).
    pose proof (setAllHidden_sameShape now (set_paused true w)) as (Hstore & _).
    rewrite Hstore. split; [exact Hreset|].
    intros id t Hid. by destruct (Htim id t Hid).
  - (* shown *)
    destruct (hasDOM w); [|by intros [= <-]].
    intros Hshow Hpaused. by rewrite (onTabShown_paused_flag _ _ _ Hshow) in Hpaused.
  - (* unloaded *)
    destruct (hasDOM w); intros [= <-]; [|done]. intros _.
    unfold onWindowClosed, onTabHidden.
    destruct (setAllHidden_spec now (set_paused true w) (conj Ht Hv) Hs)
      as (_ & _ & Hreset & Htim).
    pose proof (setAllHidden_sameShape now (set_paused true w)) as (Hstore & _).
    rewrite Hstore. split; [exact Hreset|].
    intros id t Hid. by destruct (Htim id t Hid).
  - (* a timer fires *)
    destruct (timers w !! id) as [t|] eqn:Hid; [|done].
    destruct (decide (tm_due t ≤ now)); [|done]. intros [= <-] Hpaused.
    assert (Hpw : paused w = true).
    { unfold timerBody in Hpaused. by destruct (stateAt _ _ _) in Hpaused. }
    destruct (Hp Hpw) as [Hst Htm].
    pose proof (Htm id t Hid) as Hnot.
    unfold timerBody. rewrite (stateAt_heap _ _ w) by done.
    destruct (stateAt (tm_rec t) (tm_idx t) w) as [st0|] eqn:Hst0.
    + split.
      * intros k a i st Hin.
        rewrite (stateAt_heap _ _ (writeState (tm_rec t) (tm_idx t) (with_visible true st0) w)) by done.
        rewrite stateAt_writeState_ne.
        -- by apply (Hst k a i st).
        -- left. intros ->. apply Hnot. apply list_elem_of_fmap. by exists (k, tm_rec t).
      * intros id' t' Hid'. cbn in Hid'.
        apply lookup_delete_Some in Hid' as [_ Hid']. by apply Htm in Hid'.
    + split; [exact Hst|].
      intros id' t' Hid'. cbn in Hid'.
      apply lookup_delete_Some in Hid' as [_ Hid']. by apply Htm in Hid'.
  - (* a deferred closure runs *)
    destruct (work w !! k) as [a|]; [|done]. intros [= <-] Hpaused.
    set (w1 := set_work (delete k (work w)) w) in *.
    assert (Hpw : paused w = true).
    { pose proof (handleRecordExiting_sameShape a now w1) as (_ & _ & H1 & _).
      pose proof (flushQueuedEntries_sameShape (handleRecordExiting a now w1)) as (_ & _ & H2 & _).
      unfold runWork in Hpaused. rewrite H2, H1 in Hpaused. exact Hpaused. }
    destruct (Hp Hpw) as [Hst Htm].
    destruct (heap w !! a) as [r|] eqn:Hr.
    + destruct (runWork_spec now a r w1 Ht Hq Hr) as (_ & _ & _ & Hstore & Hframe & Hreset & Htim).
      rewrite Hstore. split.
      * intros k' b i st Hin Hstate.
        destruct (decide (b = a)) as [->|Hne]; [by apply (Hreset i)|].
        rewrite (stateAt_heap_at _ _ w) in Hstate by (by apply Hframe).
        by apply (Hst k' b i st).
      * intros id t Hid. destruct (Htim id t Hid) as [Hid' _]. by apply (Htm id t).
    + assert (Heq : runWork now a w1 = w1).
      { unfold runWork, handleRecordExiting. change (heap w1) with (heap w). rewrite Hr.
        unfold flushQueuedEntries. change (queuedEntries w1) with (queuedEntries w).
        by rewrite Hq. }
      rewrite Heq. by split.
Qed.

Lemma pausedOk_run evs w w' : Inv w → pausedOk w → run evs w = Some w' → pausedOk w'.
Proof.
  revert w. induction evs as [|[now ev] evs IH]; intros w Hi Hp; cbn [run].
  - by intros [= <-].
  - destruct (step now ev w) as [w1|] eqn:Hs; [|done]. cbn.
    apply IH; [by eapply Inv_step | by eapply pausedOk_step].
Qed.

Lemma forcedExits_reset time r :
  (∀ st, st ∈ thresholdStates r → isReset st) → forcedExits time r = [].
Proof.
  unfold forcedExits. induction (thresholdStates r) as [|st l IH]; intros H; cbn; [done|].
  rewrite IH by (intros; apply H; set_solver).
  destruct (H st) as (Hsat & _); [set_solver|].
  unfold confirmedVisible. by rewrite Hsat.
Qed.

Lemma hiddenBatch_reset time w :
  (∀ k a i st, (k, a) ∈ recordStore w → stateAt a i w = Some st → isReset st) →
  hiddenBatch time w = [].
Proof.
  unfold hiddenBatch. induction (recordStore w) as [|[k a] l IH]; intros H; cbn; [done|].
  rewrite IH by (intros k' a' i st Hin; apply (H k' a' i st); set_solver).
  rewrite app_nil_r. destruct (heap w !! a) as [r|] eqn:Hr; cbn; [|done].
  apply forcedExits_reset. intros st [i Hi]%list_elem_of_lookup.
  apply (H k a i st); [set_solver|]. unfold stateAt. by rewrite Hr.
Qed.

(** X8.  While the observer is paused, nothing of a stored record is
    live: every state of every stored record is reset, also after samples
    have arrived, elements were observed and timers of removed records
    have run in the meantime, and no timer is pending on a stored record.
    Hence hiding the page again, or disconnecting, delivers nothing. *)
Theorem nothing_stored_is_live_while_paused
    (sort : (SpanielThreshold → SpanielThreshold → Q) → list SpanielThreshold → list SpanielThreshold)
    (dom : bool) (ts : list SpanielThreshold) (evs : list (Z * Event)) (w0 w : World) :
  construct sort dom (Some ts) = Some w0 →
  run evs w0 = Some w →
  paused w = true →
  (∀ k a i st, (k, a) ∈ recordStore w → stateAt a i w = Some st →
     lastSatisfied st = false ∧ visible st = false ∧ lastEntry st = None)
  ∧ (∀ k a id t, (k, a) ∈ recordStore w → timers w !! id = Some t → tm_rec t ≠ a)
  ∧ ∀ now,
      calls (onTabHidden now w) = calls w ++ [observer_reset]
      ∧ calls (disconnect now w) = calls w ++ [observer_reset; observer_disconnect].
Proof.
  intros Hc Hrun Hpaused.
  assert (Hi0 : Inv w0) by (by eapply Inv_construct).
  assert (Hi : Inv w) by (by eapply Inv_run).
  assert (Hp0 : pausedOk w0).
  { injection Hc as <-. intros H. discriminate H. }
  destruct (pausedOk_run evs w0 w Hi0 Hp0 Hrun Hpaused) as [Hst Htm].
  destruct Hi as (Ht & Hv & Hs & Hq).
  split; [exact Hst|]. split.
  - intros k a id t Hin Hid Ha. apply (Htm id t Hid).
    apply list_elem_of_fmap. exists (k, a). by split.
  - intros now.
    destruct (setAllHidden_spec now (set_paused true w) (conj Ht Hv) Hs) as (Hc1 & _).
    destruct (setAllHidden_spec now w (conj Ht Hv) Hs) as (Hc2 & _).
    change (hiddenBatch now (set_paused true w)) with (hiddenBatch now w) in Hc1.
    cbn [set_paused queuedEntries calls] in Hc1.
    rewrite Hq, (hiddenBatch_reset now w Hst) in Hc1, Hc2. cbn [app] in Hc1, Hc2.
    split; [exact Hc1|]. unfold disconnect. cbn [calls set_recordStore call].
    by rewrite Hc2, <- app_assoc.
Qed.

Lemma nothing_stored_is_live_while_paused_witness :
  let evs := [(0, Observe 7%nat None); (3, Samples [sampleAt 7%nat (3 # 5) 0]);
              (400, PageHidden); (500, Samples [sampleAt 7%nat (4 # 5) 500]);
              (600, Observe 8%nat None)] in
  let w := worldAfter [halfVisible; viewable] evs in
  length (recordStore w) = 2%nat
  ∧ calls (onTabHidden 700 w) = calls w ++ [observer_reset]
  ∧ calls (disconnect 700 w) = calls w ++ [observer_reset; observer_disconnect].
Proof.
  intros evs w.
  destruct (nothing_stored_is_live_while_paused ArraySort.InsertionSort true
              [halfVisible; viewable] evs (worldAfter [halfVisible; viewable] []) w
              eq_refl ltac:(vm_compute; reflexivity) ltac:(vm_compute; reflexivity))
    as (_ & _ & Hcalls).
  split; [vm_compute; reflexivity | exact (Hcalls 700)].
Defined.

(** ** What the callback is handed *)

Lemma batch_deliveredOk (q : list SpanielObserverEntry) :
  (∀ e, e ∈ q → is_Some (entering e)) →
  Forall deliveredOk (match q with [] => [] | e :: q' => [callback (e :: q')] end).
Proof.
  intros H. destruct q as [|e q]; [by apply Forall_nil|].
  apply Forall_cons. split; [|by apply Forall_nil]. by split.
Qed.

Lemma sampleOut_entering e r st x : x ∈ sampleOut e r st → is_Some (entering x).
Proof.
  unfold sampleOut, exitOut.
  destruct (entrySatisfiesRatio e _).
  - destruct (lastSatisfied st); [by intros ?%elem_of_nil|].
    destruct (hasTimeThreshold _); [by intros ?%elem_of_nil|].
    intros ->%list_elem_of_singleton. by eexists.
  - destruct (confirmedVisible st); [|by intros ?%elem_of_nil].
    intros ->%list_elem_of_singleton. by eexists.
Qed.

Lemma deliveredOk_handleObserverEntry now e w w' :
  queuedEntries w = [] ∧ Forall deliveredOk (calls w) →
  handleObserverEntry now e w = Some w' →
  queuedEntries w' = [] ∧ Forall deliveredOk (calls w').
Proof.
  intros [Hq Hd] H. pose proof H as H'. unfold handleObserverEntry in H'.
  destruct (recordOf w (target e)) as [[a r]|] eqn:Hrec; [|done]. clear H'.
  destruct (paused w) eqn:Hp.
  - rewrite (handleObserverEntry_paused _ _ _ _ _ Hrec Hp) in H. by simplify_eq.
  - destruct (handleObserverEntry_active now e w a r Hrec Hp) as (w1 & Hw1 & Hc & Hq1 & _).
    rewrite H in Hw1. simplify_eq. split; [done|].
    rewrite Hc, Hq. cbn [app]. apply Forall_app. split; [done|].
    apply batch_deliveredOk. intros x Hx.
    apply list_elem_of_In, in_flat_map in Hx as (st & _ & Hx%list_elem_of_In).
    by eapply sampleOut_entering.
Qed.

Lemma deliveredOk_setAllHidden now w :
  Inv w → Forall deliveredOk (calls w) → Forall deliveredOk (calls (setAllHidden now w)).
Proof.
  intros (Ht & Hv & Hs & Hq) Hd.
  destruct (setAllHidden_spec now w (conj Ht Hv) Hs) as (Hc & _).
  rewrite Hc, Hq. cbn [app]. apply Forall_app. split; [done|].
  apply Forall_app. split; [|by apply Forall_cons].
  apply batch_deliveredOk. intros x Hx.
  apply elem_of_hiddenBatch in Hx as (k & a & r & st & _ & _ & _ & _ & ->). by eexists.
Qed.

Lemma deliveredOk_runWork now a w :
  Inv w → Forall deliveredOk (calls w) → Forall deliveredOk (calls (runWork now a w)).
Proof.
  intros (Ht & Hv & Hs & Hq) Hd.
  destruct (heap w !! a) as [r|] eqn:Hr.
  - destruct (runWork_spec now a r w Ht Hq Hr) as (Hc & _).
    rewrite Hc. apply Forall_app. split; [done|].
    apply batch_deliveredOk. intros x Hx.
    apply elem_of_forcedExits in Hx as (st & _ & _ & ->). by eexists.
  - unfold runWork, handleRecordExiting. rewrite Hr.
    unfold flushQueuedEntries. by rewrite Hq.
Qed.

Lemma deliveredOk_step now ev w w' :
  Inv w → Forall deliveredOk (calls w) → step now ev w = Some w' →
  Forall deliveredOk (calls w').
Proof.
  intros Hi Hd. pose proof Hi as (Ht & Hv & Hs & Hq). destruct ev; cbn [step].
  - intros [= <-]. rewrite observe_eq. cbn. apply Forall_app. split; [done|].
    by apply Forall_cons.
  - intros [= <-]. unfold unobserve. destruct (recordOf w el) as [[a r]|]; [|done].
    destruct (spanielIds w !! el); cbn; (apply Forall_app; split; [done|]);
      by apply Forall_cons.
  - intros [= <-]. unfold disconnect. cbn [calls set_recordStore call].
    apply Forall_app. split; [by apply deliveredOk_setAllHidden | by apply Forall_cons].
  - unfold internalCallback. intros H.
    apply (foldl_option_preserves (λ w e, handleObserverEntry now e w)
             (λ w', queuedEntries w' = [] ∧ Forall deliveredOk (calls w'))
             records w w'); [|done|done].
    intros x b y. apply deliveredOk_handleObserverEntry.
  - destruct (hasDOM w); intros [= <-]; [|done].
    by apply (deliveredOk_setAllHidden now (set_paused true w)).
  - destruct (hasDOM w); [|by intros [= <-]]. unfold onTabShown. intros H.
    apply (foldl_option_preserves (λ w (p : Token * nat), reevaluate now p.2 w)
             (λ w', queuedEntries w' = [] ∧ Forall deliveredOk (calls w'))
             (recordStore (set_paused false w)) (set_paused false w) w'); [|done|done].
    intros x [k a] y Hx. unfold reevaluate. cbn [snd].
    destruct (heap x !! a) as [r|]; [|by intros [= <-]].
    destruct (lastSeenEntry r) as [e|]; [|by intros [= <-]].
    by apply deliveredOk_handleObserverEntry.
  - destruct (hasDOM w); intros [= <-]; [|done].
    by apply (deliveredOk_setAllHidden now (set_paused true w)).
  - destruct (timers w !! id) as [t|] eqn:Hid; [|done].
    destruct (decide (tm_due t ≤ now)); [|done]. intros [= <-].
    destruct (Ht id t Hid) as [_ (st & Hst & Hm)].
    unfold timerBody. rewrite (stateAt_heap _ _ w) by done. rewrite Hst.
    cbn [calls call writeState set_heap set_timers].
    apply Forall_app. split; [done|]. apply Forall_cons. split; [|by apply Forall_nil].
    split; [done|]. intros x ->%list_elem_of_singleton.
    destruct Hm as (_ & _ & _ & _ & _ & _ & He). cbn. rewrite He. by eexists.
  - destruct (work w !! k) as [a|]; [|done]. intros [= <-].
    by apply (deliveredOk_runWork now a (set_work (delete k (work w)) w)).
Qed.

(** X9.  Whatever happens to an observer, its callback is never handed an
    empty batch, and every entry it is handed says whether it enters or
    exits: the [entering: null] that [generateSpanielEntry] puts into a
    new entry is always assigned before the entry is delivered. *)
Theorem callback_batches_are_nonempty_and_decided
    (sort : (SpanielThreshold → SpanielThreshold → Q) → list SpanielThreshold → list SpanielThreshold)
    (dom : bool) (ts : list SpanielThreshold) (evs : list (Z * Event)) (w0 w : World)
    (batch : list SpanielObserverEntry) :
  construct sort dom (Some ts) = Some w0 →
  run evs w0 = Some w →
  callback batch ∈ calls w →
  batch ≠ []
  ∧ ∀ e, e ∈ batch → entering e = Some true ∨ entering e = Some false.
Proof.
  intros Hc Hrun Hin.
  assert (Hi0 : Inv w0) by (by eapply Inv_construct).
  assert (Hd0 : Forall deliveredOk (calls w0)).
  { injection Hc as <-. by apply Forall_nil. }
  assert (Hd : Forall deliveredOk (calls w)).
  { clear Hc Hin. revert w0 Hi0 Hd0 Hrun.
    induction evs as [|[now ev] evs IH]; intros w0 Hi0 Hd0; cbn [run].
    - by intros [= <-].
    - destruct (step now ev w0) as [w1|] eqn:Hs; [|done]. cbn.
      apply IH; [by eapply Inv_step | by eapply deliveredOk_step]. }
  rewrite Forall_forall in Hd. destruct (Hd _ Hin) as [Hne He].
  split; [done|]. intros e Hmem. destruct (He e Hmem) as [[|] Hb]; auto.
Qed.

Lemma callback_batches_are_nonempty_and_decided_witness :
  let evs := [(0, Observe 7%nat None); (3, Samples [sampleAt 7%nat (3 # 5) 0]);
              (1004, TimerFires 0%nat); (1200, PageHidden)] in
  let w := worldAfter [halfVisible; viewable] evs in
  let batch := [mkSOE (3 # 5) 0 (mkRect 0 0 1024 768) (mkRect 0 100 200 100)
                  (mkRect 0 100 200 60) 7%nat 1004 (Some true) None "viewable"] in
  batch ≠ []
  ∧ ∀ e, e ∈ batch → entering e = Some true ∨ entering e = Some false.
Proof.
  intros evs w batch.
  apply (callback_batches_are_nonempty_and_decided ArraySort.InsertionSort true
           [halfVisible; viewable] evs (worldAfter [halfVisible; viewable] []) w batch).
  - reflexivity.
  - vm_compute. reflexivity.
  - vm_compute. repeat first [apply list_elem_of_here | apply list_elem_of_further].
Defined.

(** ** The fields of a state *)

(** X10.  In every state object of every world an observer can reach:
    [lastSatisfied] is what the state's threshold ratio says of
    [lastEntry], and is false when there is none; a satisfied state of a
    threshold with a time has its [lastVisible] assigned, so that the
    durations computed for it never read [null]; and only states of
    thresholds with a time ever hold a timer id, assigned together with
    [lastVisible]. *)
Theorem states_are_coherent
    (sort : (SpanielThreshold → SpanielThreshold → Q) → list SpanielThreshold → list SpanielThreshold)
    (dom : bool) (ts : list SpanielThreshold) (evs : list (Z * Event)) (w0 w : World)
    (a i : nat) (st : SpanielThresholdState) :
  construct sort dom (Some ts) = Some w0 →
  run evs w0 = Some w →
  stateAt a i w = Some st →
  lastSatisfied st
  = from_option (λ e, entrySatisfiesRatio e (ratio (threshold st))) false (lastEntry st)
  ∧ (hasTimeThreshold (threshold st) = true → lastSatisfied st = true →
     is_Some (lastVisible st))
  ∧ (is_Some (timeoutId st) → hasTimeThreshold (threshold st) = true)
  ∧ (is_Some (timeoutId st) → is_Some (lastVisible st)).
Proof.
  intros Hc Hrun Hst.
  assert (H : allStates stateCoherent w); [|exact (H a i st Hst)].
  injection Hc as <-. revert Hrun. apply allStates_run.
  - intros t. unfold stateCoherent. cbn. split; [done|]. split; [done|].
    split; intros [? [=]].
  - intros now e r b j s w1 (H1 & H2 & H3 & H4). unfold stateCoherent.
    destruct (processState_state now e r b j s w1) as (He & Hsat & Hth & _).
    rewrite He, Hsat, Hth. cbn [from_option]. split; [done|].
    clear He Hsat Hth. unfold processState.
    destruct (entrySatisfiesRatio e (ratio (threshold s))) eqn:Er; cbn [andb negb].
    + destruct (lastSatisfied s) eqn:Es; cbn [negb].
      * cbn. split; [auto|]. by split.
      * destruct (hasTimeThreshold (threshold s)) eqn:Et; cbn.
        -- split; [by eexists|]. split; [done | by eexists].
        -- split; [done|]. by split.
    + rewrite handleThresholdExiting_eq. destruct (confirmedVisible s); cbn.
      * split; [done|]. by split.
      * split; [done|]. by split.
  - intros r time j s w1 (H1 & H2 & H3 & H4). unfold stateCoherent, exitState.
    rewrite handleThresholdExiting_eq. destruct (confirmedVisible s); cbn.
    + split; [done|]. split; [done|]. by split.
    + split; [done|]. split; [done|]. by split.
  - intros s H. exact H.
  - intros b j s Hs. unfold stateAt in Hs. cbn in Hs. by rewrite lookup_nil in Hs.
Qed.

Lemma states_are_coherent_witness :
  let evs := [(0, Observe 7%nat None); (3, Samples [sampleAt 7%nat (3 # 5) 0])] in
  let w := worldAfter [halfVisible; viewable] evs in
  let st := mkState true (Some (sampleAt 7%nat (3 # 5) 0)) viewable (Some 0) false (Some 0%nat) in
  lastSatisfied st
  = from_option (λ e, entrySatisfiesRatio e (ratio (threshold st))) false (lastEntry st)
  ∧ (hasTimeThreshold (threshold st) = true → lastSatisfied st = true →
     is_Some (lastVisible st))
  ∧ (is_Some (timeoutId st) → hasTimeThreshold (threshold st) = true)
  ∧ (is_Some (timeoutId st) → is_Some (lastVisible st)).
Proof.
  intros evs w st.
  apply (states_are_coherent ArraySort.InsertionSort true [halfVisible; viewable] evs
           (worldAfter [halfVisible; viewable] []) w 0%nat 0%nat st).
  - reflexivity.
  - vm_compute. reflexivity.
  - vm_compute. reflexivity.
Defined.

(** ** One state for each threshold *)

Section StatesFollow.
Variable ths : list SpanielThreshold.

Lemma statesFollow_writeState a i st st' w :
  statesFollow ths w → stateAt a i w = Some st → threshold st' = threshold st →
  statesFollow ths (writeState a i st' w).
Proof.
  intros [Hth H] Hst Heq. split; [done|]. intros b r. unfold writeState. cbn [heap set_heap].
  destruct (decide (b = a)) as [->|Hne].
  - rewrite list_lookup_alter_eq. unfold stateAt in Hst.
    destruct (heap w !! a) as [r0|] eqn:Hr0; [|done]. cbn in Hst |- *.
    intros [= <-]. cbn. rewrite list_fmap_insert, Heq, <- (H a r0 Hr0).
    apply list_insert_id. by rewrite list_lookup_fmap, Hst.
  - rewrite list_lookup_alter_ne by done. apply H.
Qed.

Lemma statesFollow_writeLastSeenEntry a e w :
  statesFollow ths w → statesFollow ths (writeLastSeenEntry a e w).
Proof.
  intros [Hth H]. split; [done|]. intros b r. unfold writeLastSeenEntry. cbn [heap set_heap].
  destruct (decide (b = a)) as [->|Hne].
  - rewrite list_lookup_alter_eq. destruct (heap w !! a) as [r0|] eqn:Hr0; [|done].
    cbn. intros [= <-]. cbn. by apply (H a).
  - rewrite list_lookup_alter_ne by done. apply H.
Qed.

Lemma statesFollow_forEachState a body w :
  (∀ i st w0, sameObjects w0 (body i st w0).2) →
  (∀ i st w0, threshold (body i st w0).1 = threshold st) →
  statesFollow ths w → statesFollow ths (forEachState a body w).
Proof.
  intros Hsame Hb H.
  apply forEachState_preserves; [intros; apply Hsame | done |].
  intros k wk st Hk Hst.
  destruct (Hsame k st wk) as (Hheap & _ & _ & _ & Hthr & _).
  apply (statesFollow_writeState a k st); [| by rewrite (stateAt_heap _ _ wk) | apply Hb].
  destruct Hk as [Hk1 Hk2]. split; [congruence|]. intros b r. rewrite Hheap. apply Hk2.
Qed.

Lemma exitState_threshold r time i st w :
  threshold (exitState r time i st w).1 = threshold st.
Proof. unfold exitState. rewrite handleThresholdExiting_eq. by destruct (confirmedVisible st). Qed.

Lemma statesFollow_handleRecordExiting a time w :
  statesFollow ths w → statesFollow ths (handleRecordExiting a time w).
Proof.
  intros H. unfold handleRecordExiting. destruct (heap w !! a) as [r|]; [|done].
  apply statesFollow_forEachState; [|apply exitState_threshold|done].
  intros. apply exitState_sameObjects.
Qed.

Lemma statesFollow_flush w : statesFollow ths w → statesFollow ths (flushQueuedEntries w).
Proof. unfold flushQueuedEntries. by destruct (queuedEntries w). Qed.

Lemma statesFollow_handleObserverEntry now e w w' :
  statesFollow ths w → handleObserverEntry now e w = Some w' → statesFollow ths w'.
Proof.
  intros H. unfold handleObserverEntry.
  destruct (recordOf w (target e)) as [[a r]|]; [|done].
  pose proof (statesFollow_writeLastSeenEntry a (Some e) w H) as H1.
  destruct (paused _); intros [= <-]; [done|].
  apply statesFollow_flush, statesFollow_forEachState; [| |done].
  - intros. apply processState_sameObjects.
  - intros i st w0. by destruct (processState_state now e r a i st w0) as (_ & _ & Hth & _).
Qed.

Lemma statesFollow_setAllHidden now w :
  statesFollow ths w → statesFollow ths (setAllHidden now w).
Proof.
  intros H. unfold setAllHidden.
  assert (H1 : statesFollow ths
                 (foldl (λ w (p : Token * nat), handleRecordExiting p.2 now w) w (recordStore w))).
  { apply (foldl_preserves _ (statesFollow ths)); [|done].
    intros. by apply statesFollow_handleRecordExiting. }
  exact (statesFollow_flush _ H1).
Qed.

Lemma statesFollow_step now ev w w' :
  statesFollow ths w → step now ev w = Some w' → statesFollow ths w'.
Proof.
  intros H. destruct ev; cbn [step].
  - intros [= <-]. rewrite observe_eq. cbn [snd]. destruct H as [Hth H].
    split; [done|]. intros a r. cbn.
    destruct (decide (a < length (heap w))%nat) as [Hlt|Hge].
    + rewrite lookup_app_l by done. apply H.
    + rewrite lookup_app_r by lia.
      destruct (a - length (heap w))%nat; cbn; [|done].
      intros [= <-]. cbn. rewrite <- list_fmap_compose, <- Hth. apply list_fmap_id.
  - intros [= <-]. unfold unobserve. destruct (recordOf w el) as [[a r]|]; [|done].
    by destruct (spanielIds w !! el).
  - intros [= <-]. by apply (statesFollow_setAllHidden now w).
  - unfold internalCallback.
    apply (foldl_option_preserves (λ w e, handleObserverEntry now e w) (statesFollow ths));
      [|done].
    intros x b y Hx Hy. by eapply statesFollow_handleObserverEntry.
  - destruct (hasDOM w); intros [= <-]; [|done].
    by apply (statesFollow_setAllHidden now (set_paused true w)).
  - destruct (hasDOM w); [|by intros [= <-]]. unfold onTabShown.
    apply (foldl_option_preserves (λ w (p : Token * nat), reevaluate now p.2 w)
             (statesFollow ths)); [|done].
    intros x b y Hx. unfold reevaluate.
    destruct (heap x !! b.2) as [r|]; [|by intros [= <-]].
    destruct (lastSeenEntry r) as [e|]; [|by intros [= <-]].
    apply statesFollow_handleObserverEntry. by apply statesFollow_writeLastSeenEntry.
  - destruct (hasDOM w); intros [= <-]; [|done].
    by apply (statesFollow_setAllHidden now (set_paused true w)).
  - destruct (timers w !! id) as [t|]; [|done]. case_decide; [|done]. intros [= <-].
    unfold timerBody.
    destruct (stateAt (tm_rec t) (tm_idx t)
                (set_timers (delete id (timers w)) (nextTimer w) w)) as [st|] eqn:Hst; [|done].
    exact (statesFollow_writeState (tm_rec t) (tm_idx t) st (with_visible true st) w H Hst eq_refl).
  - destruct (work w !! k) as [a|]; [|done]. intros [= <-]. unfold runWork.
    by apply statesFollow_flush, (statesFollow_handleRecordExiting a now (set_work _ w)).
Qed.

Lemma statesFollow_run evs w w' :
  statesFollow ths w → run evs w = Some w' → statesFollow ths w'.
Proof.
  revert w. induction evs as [|[now ev] evs IH]; intros w H; cbn [run].
  - by intros [= <-].
  - destruct (step now ev w) as [w1|] eqn:Hs; [|done]. cbn.
    apply IH. by eapply statesFollow_step.
Qed.

End StatesFollow.

Lemma statesFollow_reachable sort dom ts evs w0 w :
  construct sort dom (Some ts) = Some w0 → run evs w0 = Some w →
  statesFollow (sort thresholdComparator ts) w.
Proof.
  intros [= <-]. apply statesFollow_run. split; [done|].
  intros a r Hr. cbn in Hr. by rewrite lookup_nil in Hr.
Qed.

(** X11.  The thresholds of an observer are those its constructor stored
    and never change, and every record, stored or removed, always carries
    exactly one state for each of them, in their order: no event adds,
    drops, reorders or re-targets the states of a record. *)
Theorem one_state_per_threshold
    (sort : (SpanielThreshold → SpanielThreshold → Q) → list SpanielThreshold → list SpanielThreshold)
    (dom : bool) (ts : list SpanielThreshold) (evs : list (Z * Event)) (w0 w : World) :
  construct sort dom (Some ts) = Some w0 →
  run evs w0 = Some w →
  thresholds w = sort thresholdComparator ts
  ∧ ∀ a r, heap w !! a = Some r →
      threshold <$> thresholdStates r = thresholds w
      ∧ ∀ i, threshold <$> stateAt a i w = thresholds w !! i.
Proof.
  intros Hc Hrun.
  destruct (statesFollow_reachable sort dom ts evs w0 w Hc Hrun) as [Hth H].
  split; [done|]. intros a r Hr. rewrite Hth. split; [by apply (H a)|].
  intros i. unfold stateAt. rewrite Hr. cbn. by rewrite <- (H a r Hr), list_lookup_fmap.
Qed.

Lemma one_state_per_threshold_witness :
  let evs := [(0, Observe 7%nat None); (3, Samples [sampleAt 7%nat (3 # 5) 0]);
              (1004, TimerFires 0%nat); (1200, PageHidden); (1300, Observe 7%nat None)] in
  let w := worldAfter [halfVisible; viewable] evs in
  length (heap w) = 2%nat
  ∧ thresholds w = [viewable; halfVisible]
  ∧ ∀ a r, heap w !! a = Some r →
      threshold <$> thresholdStates r = thresholds w
      ∧ ∀ i, threshold <$> stateAt a i w = thresholds w !! i.
Proof.
  intros evs w.
  destruct (one_state_per_threshold ArraySort.InsertionSort true [halfVisible; viewable] evs
              (worldAfter [halfVisible; viewable] []) w eq_refl ltac:(vm_compute; reflexivity))
    as [Hth H].
  split; [vm_compute; reflexivity|]. split; [rewrite Hth; vm_compute; reflexivity | exact H].
Defined.

(** ** At most one entry for each threshold *)

Lemma flat_map_labels_sublist (f : SpanielThresholdState → list SpanielObserverEntry) l :
  (∀ st, f st = [] ∨ ∃ x, f st = [x] ∧ se_label x = label (threshold st)) →
  se_label <$> flat_map f l `sublist_of` label <$> (threshold <$> l).
Proof.
  intros Hf. induction l as [|st l IH]; cbn; [constructor|].
  destruct (Hf st) as [-> | (x & -> & Hx)]; cbn.
  - by apply sublist_cons.
  - rewrite Hx. by apply sublist_skip.
Qed.

Lemma sampleOut_one e r st :
  sampleOut e r st = [] ∨ ∃ x, sampleOut e r st = [x] ∧ se_label x = label (threshold st).
Proof.
  unfold sampleOut, exitOut.
  destruct (entrySatisfiesRatio e _).
  - destruct (lastSatisfied st); [by left|].
    destruct (hasTimeThreshold _); [by left|]. right. by eexists.
  - destruct (confirmedVisible st); [|by left]. right. by eexists.
Qed.

(** X12.  One sample makes at most one call of the callback, with at most
    one entry for each threshold, in the order of the observer's
    thresholds: the labels of the batch are a sublist of the labels of the
    thresholds.  The same holds of the batch a deferred exit of the record
    delivers. *)
Theorem one_entry_per_threshold_and_sample
    (sort : (SpanielThreshold → SpanielThreshold → Q) → list SpanielThreshold → list SpanielThreshold)
    (dom : bool) (ts : list SpanielThreshold) (evs : list (Z * Event)) (w0 w : World)
    (now : Z) (e : IntersectionObserverEntry) (a : nat) (r : SpanielRecord) :
  construct sort dom (Some ts) = Some w0 →
  run evs w0 = Some w →
  recordOf w (target e) = Some (a, r) →
  paused w = false →
  ∃ w' batch,
    handleObserverEntry now e w = Some w'
    ∧ calls w' = calls w ++ match batch with [] => [] | x :: l => [callback (x :: l)] end
    ∧ se_label <$> batch `sublist_of` label <$> thresholds w
    ∧ (length batch ≤ length (thresholds w))%nat
    ∧ se_label <$> forcedExits now r `sublist_of` label <$> thresholds w.
Proof.
  intros Hc Hrun Hrec Hp.
  assert (Hi : Inv w) by (eapply Inv_run; [by eapply Inv_construct | done]).
  destruct Hi as (_ & _ & _ & Hq).
  destruct (statesFollow_reachable sort dom ts evs w0 w Hc Hrun) as [Hth H].
  destruct (recordOf_Some _ _ _ _ Hrec) as (k & _ & _ & Hr).
  destruct (handleObserverEntry_active now e w a r Hrec Hp) as (w' & Hw' & Hcalls & _).
  rewrite Hq in Hcalls. cbn [app] in Hcalls.
  assert (Hsub : se_label <$> flat_map (sampleOut e r) (thresholdStates r)
                 `sublist_of` label <$> thresholds w).
  { rewrite Hth, <- (H a r Hr). apply flat_map_labels_sublist, sampleOut_one. }
  exists w', (flat_map (sampleOut e r) (thresholdStates r)).
  split; [done|]. split; [done|]. split; [done|]. split.
  - apply sublist_length in Hsub. by rewrite !length_fmap in Hsub.
  - rewrite Hth, <- (H a r Hr). apply flat_map_labels_sublist. intros st.
    destruct (confirmedVisible st); [right; by eexists | by left].
Qed.

Lemma one_entry_per_threshold_and_sample_witness :
  let evs := [(0, Observe 7%nat None); (3, Samples [sampleAt 7%nat (3 # 5) 0]);
              (1004, TimerFires 0%nat)] in
  let w := worldAfter [halfVisible; viewable] evs in
  let e := sampleAt 7%nat (1 # 5) 2000 in
  ∃ w' batch,
    handleObserverEntry 2003 e w = Some w'
    ∧ calls w' = calls w ++ match batch with [] => [] | x :: l => [callback (x :: l)] end
    ∧ se_label <$> batch `sublist_of` label <$> thresholds w
    ∧ (length batch ≤ length (thresholds w))%nat.
Proof.
  intros evs w e.
  assert (Hrec : ∃ r, recordOf w (target e) = Some (0%nat, r)).
  { vm_compute. eexists. reflexivity. }
  destruct Hrec as [r Hrec].
  destruct (one_entry_per_threshold_and_sample ArraySort.InsertionSort true
              [halfVisible; viewable] evs (worldAfter [halfVisible; viewable] []) w
              2003 e 0%nat r eq_refl ltac:(vm_compute; reflexivity) Hrec
              ltac:(vm_compute; reflexivity))
    as (w' & batch & H1 & H2 & H3 & H4 & _).
  exists w', batch. by repeat split.
Defined.

(** ** Which timers an iteration reaches *)

(** What one iteration of the loop of [handleObserverEntry] does to the
    timers and to the timer id of its state. *)
Lemma processState_timers now e r a i st w :
  let st' := (processState now e r a i st w).1 in
  let w' := (processState now e r a i st w).2 in
  nextTimer w' = (if risingWithTime e st then S (nextTimer w) else nextTimer w)
  ∧ timeoutId st' = (if risingWithTime e st then Some (nextTimer w) else timeoutId st)
  ∧ ∀ id t, timers w' !! id = Some t ↔
      if risingWithTime e st
      then (id = nextTimer w
            ∧ t = mkTimer a i (with_entering true (generateSpanielEntry r e st)) now
                    (toNumber (time (threshold st))))
           ∨ (id ≠ nextTimer w ∧ timers w !! id = Some t)
      else timers w !! id = Some t
           ∧ (entrySatisfiesRatio e (ratio (threshold st)) = false → timeoutId st ≠ Some id).
Proof.
  unfold processState, risingWithTime.
  destruct (entrySatisfiesRatio e (ratio (threshold st))) eqn:Hsat; cbn [andb negb].
  - destruct (lastSatisfied st); cbn [andb negb].
    + cbn. split; [done|]. split; [done|]. intros id t. naive_solver.
    + destruct (hasTimeThreshold (threshold st)); cbn.
      * split; [done|]. split; [done|]. intros id t.
        rewrite lookup_insert_Some. naive_solver.
      * split; [done|]. split; [done|]. intros id t. naive_solver.
  - rewrite handleThresholdExiting_eq. cbn [fst snd].
    split; [by destruct (confirmedVisible st), (timeoutId st)|].
    split; [by destruct (confirmedVisible st)|].
    intros id t. rewrite timers_clearTimeout.
    assert (Ht : ∀ x, timers (if confirmedVisible st then push x w else w) = timers w)
      by (intros; by destruct (confirmedVisible st)).
    rewrite Ht. naive_solver.
Qed.

(** The same for the loop of [handleRecordExiting]. *)
Lemma exitState_timers r time i st w :
  let st' := (exitState r time i st w).1 in
  let w' := (exitState r time i st w).2 in
  nextTimer w' = nextTimer w
  ∧ timeoutId st' = timeoutId st
  ∧ ∀ id t, timers w' !! id = Some t ↔ timers w !! id = Some t ∧ timeoutId st ≠ Some id.
Proof.
  unfold exitState. rewrite handleThresholdExiting_eq. cbn [fst snd].
  split; [by destruct (confirmedVisible st), (timeoutId st)|].
  split; [by destruct (confirmedVisible st)|].
  intros id t. rewrite timers_clearTimeout.
  assert (Ht : ∀ x, timers (if confirmedVisible st then push x w else w) = timers w)
    by (intros; by destruct (confirmedVisible st)).
  rewrite Ht. naive_solver.
Qed.

Lemma names_update a i st st' w w' :
  timersOk w → namesOk w → stateAt a i w = Some st → heap w' = heap w →
  (nextTimer w ≤ nextTimer w')%nat →
  (∀ id t, timers w' !! id = Some t →
     timers w !! id = Some t ∨ ((nextTimer w ≤ id)%nat ∧ tm_rec t = a ∧ tm_idx t = i)) →
  (∀ id, timeoutId st' = Some id →
     (id < nextTimer w')%nat ∧ (timeoutId st = Some id ∨ (nextTimer w ≤ id)%nat)) →
  namesOk (writeState a i st' w').
Proof.
  intros Ht Hn Hst Hheap Hnext Htim Hid b j sb id Hsb Hidb.
  cbn [timers nextTimer writeState set_heap].
  assert (Hsome : is_Some (stateAt a i w')) by (rewrite (stateAt_heap _ _ _ _ Hheap); eauto).
  destruct (decide (b = a ∧ j = i)) as [[-> ->]|Hne].
  - rewrite stateAt_writeState_eq in Hsb by done. simplify_eq.
    destruct (Hid id Hidb) as [Hlt Hor]. split; [done|]. intros t Hidt.
    destruct (Htim id t Hidt) as [Hold | (_ & ? & ?)]; [|done].
    destruct Hor as [Hsame | Hge].
    + by apply (Hn a i st id Hst Hsame).
    + destruct (Ht id t Hold) as [Hlt' _]. lia.
  - rewrite stateAt_writeState_ne in Hsb by (clear -Hne; lia).
    rewrite (stateAt_heap _ _ _ _ Hheap) in Hsb.
    destruct (Hn b j sb id Hsb Hidb) as [Hlt Hown]. split; [lia|]. intros t Hidt.
    destruct (Htim id t Hidt) as [Hold | (Hge & _)]; [by apply Hown | lia].
Qed.

Lemma processState_names now e r a i st w :
  timersOk w → namesOk w → stateAt a i w = Some st →
  namesOk (writeState a i (processState now e r a i st w).1 (processState now e r a i st w).2).
Proof.
  intros Ht Hn Hst.
  destruct (processState_timers now e r a i st w) as (Hnext & Hid & Htim).
  apply (names_update a i st _ w _ Ht Hn Hst).
  - apply processState_heap.
  - rewrite Hnext. destruct (risingWithTime e st); lia.
  - intros id t Hidt. apply Htim in Hidt. destruct (risingWithTime e st).
    + destruct Hidt as [[-> ->] | [_ ?]]; [right; cbn; by split | by left].
    + left. apply Hidt.
  - intros id. rewrite Hid, Hnext. destruct (risingWithTime e st).
    + intros [= <-]. split; [lia | right; lia].
    + intros Hsame. split; [by apply (Hn a i st id) | by left].
Qed.

Lemma exitState_names r time a i st w :
  timersOk w → namesOk w → stateAt a i w = Some st →
  namesOk (writeState a i (exitState r time i st w).1 (exitState r time i st w).2).
Proof.
  intros Ht Hn Hst.
  destruct (exitState_timers r time i st w) as (Hnext & Hid & Htim).
  apply (names_update a i st _ w _ Ht Hn Hst).
  - apply exitState_heap.
  - rewrite Hnext. lia.
  - intros id t Hidt. apply Htim in Hidt. left. apply Hidt.
  - intros id. rewrite Hid, Hnext. intros Hsame.
    split; [by apply (Hn a i st id) | by left].
Qed.

Lemma namesOk_ext w w' :
  (∀ a i, stateAt a i w' = stateAt a i w) → timers w' = timers w →
  nextTimer w' = nextTimer w → namesOk w → namesOk w'.
Proof.
  intros Hs Ht Hnx H a i st id Hst Hid. rewrite Hs in Hst. rewrite Ht, Hnx.
  by apply (H a i st id).
Qed.

(** A forced exit of the record at [a] clears the timers of that record
    and no other. *)
Lemma handleRecordExiting_names a time w :
  timersOk w ∧ visibleOk w → namesOk w →
  namesOk (handleRecordExiting a time w)
  ∧ ∀ id t, timers w !! id = Some t → tm_rec t ≠ a →
      timers (handleRecordExiting a time w) !! id = Some t.
Proof.
  intros Htv Hn. unfold handleRecordExiting. destruct (heap w !! a) as [r|]; [|done].
  apply (forEachState_preserves a (exitState r time) w
           (λ wk, (timersOk wk ∧ visibleOk wk) ∧ namesOk wk
                  ∧ ∀ id t, timers w !! id = Some t → tm_rec t ≠ a →
                      timers wk !! id = Some t)).
  - apply exitState_heap.
  - done.
  - intros k wk st ([Ht Hv] & Hnk & Hframe) Hst.
    split; [|split].
    + apply (exitState_invariants r time a k st _ wk _ Ht Hv Hst), surjective_pairing.
    + by apply exitState_names.
    + intros id t Hid Ha. cbn [timers writeState set_heap].
      destruct (exitState_timers r time k st wk) as (_ & _ & Htim).
      apply Htim. split; [by apply Hframe|]. intros Hsame.
      destruct (Hnk a k st id Hst Hsame) as [_ Hown].
      destruct (Hown t (Hframe id t Hid Ha)) as [? _]. done.
Qed.

Lemma flushQueuedEntries_names w : namesOk w → namesOk (flushQueuedEntries w).
Proof. unfold flushQueuedEntries. by destruct (queuedEntries w). Qed.

Lemma setAllHidden_names now w :
  timersOk w ∧ visibleOk w → namesOk w →
  namesOk (setAllHidden now w)
  ∧ ∀ id t, timers w !! id = Some t → tm_rec t ∉ (recordStore w).*2 →
      timers (setAllHidden now w) !! id = Some t.
Proof.
  intros Htv Hn. unfold setAllHidden.
  assert (H : ∀ l w0, (timersOk w0 ∧ visibleOk w0) → namesOk w0 →
            let w1 := foldl (λ w (p : Token * nat), handleRecordExiting p.2 now w) w0 l in
            namesOk w1
            ∧ ∀ id t, timers w0 !! id = Some t → tm_rec t ∉ l.*2 → timers w1 !! id = Some t).
  { induction l as [|[k a] l IH]; intros w0 Htv0 Hn0; cbn [foldl]; [done|].
    destruct (handleRecordExiting_names a now w0 Htv0 Hn0) as [Hn1 Hf1].
    destruct (IH _ (handleRecordExiting_invariants a now w0 Htv0) Hn1) as [Hn2 Hf2].
    split; [done|]. intros id t Hid Hnot. cbn [fmap list_fmap snd] in Hnot.
    apply Hf2; [apply Hf1; [done|] |]; set_solver. }
  destruct (H (recordStore w) w Htv Hn) as [Hn1 Hf1].
  split.
  - exact (flushQueuedEntries_names _ Hn1).
  - intros id t Hid Hnot. specialize (Hf1 id t Hid Hnot).
    cbn [timers call]. unfold flushQueuedEntries. by destruct (queuedEntries _).
Qed.

(** A sample for the record at [a] reaches the timers of that record
    only: it clears those of the states it does not satisfy, and sets one
    for each state it starts a dwell on. *)
Lemma forEach_processState_timers now e r0 r a w :
  timersOk w ∧ visibleOk w → namesOk w → heap w !! a = Some r →
  let w' := forEachState a (processState now e r0 a) w in
  namesOk w'
  ∧ (∀ id t, timers w !! id = Some t →
       (tm_rec t = a → ∀ st, thresholdStates r !! tm_idx t = Some st →
          entrySatisfiesRatio e (ratio (threshold st)) = true) →
       timers w' !! id = Some t)
  ∧ (∀ id t, timers w' !! id = Some t →
       timers w !! id = Some t
       ∨ (tm_rec t = a ∧ tm_set t = now
          ∧ ∃ st, thresholdStates r !! tm_idx t = Some st ∧ risingWithTime e st = true)).
Proof.
  intros Htv Hn Hr w'.
  pose proof (forEachState_ind a (processState now e r0 a) w
    (λ k wk, (timersOk wk ∧ visibleOk wk) ∧ namesOk wk
       ∧ (∀ id t, timers w !! id = Some t →
            (tm_rec t = a → (tm_idx t < k)%nat →
               ∀ st, thresholdStates r !! tm_idx t = Some st →
                 entrySatisfiesRatio e (ratio (threshold st)) = true) →
            timers wk !! id = Some t)
       ∧ (∀ id t, timers wk !! id = Some t →
            timers w !! id = Some t
            ∨ (tm_rec t = a ∧ tm_set t = now
               ∧ ∃ st, thresholdStates r !! tm_idx t = Some st
                       ∧ risingWithTime e st = true)))) as H.
  cbn beta in H.
  destruct H as (_ & Hn' & HA & HB).
  - intros. apply processState_heap.
  - split; [done|]. split; [done|]. split; [auto | auto].
  - intros k wk st ([Ht Hv] & Hnk & HA & HB) Hst0 Hst.
    rewrite (states_lookup _ _ _ _ Hr) in Hst0.
    destruct (processState_timers now e r0 a k st wk) as (Hnext & Hid & Htim).
    split; [|split; [|split]].
    + apply (processState_invariants now e r0 a k st _ wk _ Ht Hv Hst), surjective_pairing.
    + by apply processState_names.
    + intros id t Hidt Hcond. cbn [timers writeState set_heap]. apply Htim.
      assert (Hk : timers wk !! id = Some t).
      { apply HA; [done|]. intros Ha Hlt. apply Hcond; [done | lia]. }
      destruct (risingWithTime e st).
      * right. split; [|done]. destruct (Ht id t Hk) as [Hlt _]. lia.
      * split; [done|]. intros Hsat Hsame.
        destruct (Hnk a k st id Hst Hsame) as [_ Hown].
        destruct (Hown t Hk) as [Ha Hi].
        rewrite (Hcond Ha ltac:(lia) st) in Hsat; [done|]. by rewrite Hi.
    + intros id t Hidt. cbn [timers writeState set_heap] in Hidt. apply Htim in Hidt.
      destruct (risingWithTime e st) eqn:Hrise.
      * destruct Hidt as [[-> ->] | [_ Hold]]; [|by apply HB].
        right. cbn. split; [done|]. split; [done|]. by exists st.
      * apply HB, Hidt.
  - split; [done|]. split; [|done].
    intros id t Hid Hcond. apply HA; [done|]. intros Ha _. by apply Hcond.
Qed.

Lemma handleObserverEntry_timers now e w a r :
  timersOk w ∧ visibleOk w → namesOk w →
  recordOf w (target e) = Some (a, r) →
  ∃ w', handleObserverEntry now e w = Some w'
    ∧ (timersOk w' ∧ visibleOk w') ∧ namesOk w'
    ∧ (∀ id t, timers w !! id = Some t →
         (tm_rec t = a → ∀ st, thresholdStates r !! tm_idx t = Some st →
            entrySatisfiesRatio e (ratio (threshold st)) = true) →
         timers w' !! id = Some t)
    ∧ (∀ id t, timers w' !! id = Some t →
         timers w !! id = Some t
         ∨ (paused w = false ∧ tm_rec t = a ∧ tm_set t = now
            ∧ ∃ st, thresholdStates r !! tm_idx t = Some st ∧ risingWithTime e st = true)).
Proof.
  intros Htv Hn Hrec. unfold handleObserverEntry. rewrite Hrec.
  destruct (recordOf_Some _ _ _ _ Hrec) as (k & _ & _ & Hr).
  set (w1 := writeLastSeenEntry a (Some e) w).
  pose proof (writeLastSeenEntry_invariants a (Some e) w Htv) as Htv1. fold w1 in Htv1.
  assert (Hn1 : namesOk w1).
  { apply (namesOk_ext w); [|done..]. intros. apply stateAt_writeLastSeenEntry. }
  change (paused w1) with (paused w).
  destruct (paused w) eqn:Hp.
  - exists w1. split; [done|]. split; [done|]. split; [done|]. split; [auto|]. by left.
  - assert (Hr1 : heap w1 !! a = Some (with_lastSeenEntry (Some e) r)).
    { unfold w1, writeLastSeenEntry. cbn [heap set_heap].
      rewrite list_lookup_alter_eq. by rewrite Hr. }
    destruct (forEach_processState_timers now e r _ a w1 Htv1 Hn1 Hr1) as (Hn2 & HA & HB).
    pose proof (forEach_processState_invariants now e r a w1 Htv1) as Htv2.
    set (w2 := forEachState a (processState now e r a) w1) in *.
    assert (Ht2 : timers (flushQueuedEntries w2) = timers w2).
    { unfold flushQueuedEntries. by destruct (queuedEntries w2). }
    exists (flushQueuedEntries w2). split; [done|].
    split; [by apply flushQueuedEntries_invariants|].
    split; [by apply flushQueuedEntries_names|].
    rewrite Ht2. split.
    + intros id t Hid Hcond. by apply HA.
    + intros id t Hid. destruct (HB id t Hid) as [Hold | (Ha & Hset & Hst)]; [by left|].
      right. by repeat split.
Qed.

Lemma namesOk_timersOk_step now ev w w' :
  Inv w → namesOk w → step now ev w = Some w' → namesOk w'.
Proof.
  intros Hi Hn. pose proof Hi as (Ht & Hv & Hs & Hq). destruct ev; cbn [step].
  - (* observe *)
    intros [= <-] a i st id Hst Hid.
    destruct (stateAt_observe _ _ _ _ _ _ Hst) as [Hold | [_ [t ->]]]; [|done].
    rewrite observe_eq. cbn. by apply (Hn a i st id).
  - (* unobserve *)
    intros [= <-]. unfold unobserve. destruct (recordOf w el) as [[a r]|]; [|done].
    by destruct (spanielIds w !! el).
  - (* disconnect *)
    intros [= <-]. by destruct (setAllHidden_names now w (conj Ht Hv) Hn) as [H _].
  - (* samples *)
    unfold internalCallback. intros H.
    apply (foldl_option_preserves (λ w e, handleObserverEntry now e w)
             (λ w', (timersOk w' ∧ visibleOk w') ∧ namesOk w') records w w'); [|done|done].
    intros x e y [Htvx Hnx] Hy.
    pose proof Hy as Hy'. unfold handleObserverEntry in Hy'.
    destruct (recordOf x (target e)) as [[a r]|] eqn:Hrec; [|done]. clear Hy'.
    destruct (handleObserverEntry_timers now e x a r Htvx Hnx Hrec)
      as (y' & Hy' & Htvy & Hny & _).
    rewrite Hy in Hy'. by simplify_eq.
  - (* hidden *)
    destruct (hasDOM w); intros [= <-]; [|done].
    by destruct (setAllHidden_names now (set_paused true w) (conj Ht Hv) Hn) as [H _].
  - (* shown *)
    destruct (hasDOM w); [|by intros [= <-]]. unfold onTabShown. intros H.
    apply (foldl_option_preserves (λ w (p : Token * nat), reevaluate now p.2 w)
             (λ w', (timersOk w' ∧ visibleOk w') ∧ namesOk w')
             (recordStore (set_paused false w)) (set_paused false w) w'); [|done|done].
    intros x [k a] y [Htvx Hnx]. unfold reevaluate. cbn [snd].
    destruct (heap x !! a) as [r|]; [|by intros [= <-]].
    destruct (lastSeenEntry r) as [e|]; [|by intros [= <-]].
    set (x1 := writeLastSeenEntry a (Some (restamp now e)) x).
    pose proof (writeLastSeenEntry_invariants a (Some (restamp now e)) x Htvx) as Htv1.
    assert (Hn1 : namesOk x1).
    { apply (namesOk_ext x); [|done..]. intros. apply stateAt_writeLastSeenEntry. }
    intros Hy. pose proof Hy as Hy'. unfold handleObserverEntry in Hy'.
    destruct (recordOf x1 (target (restamp now e))) as [[b rb]|] eqn:Hrec; [|done]. clear Hy'.
    destruct (handleObserverEntry_timers now (restamp now e) x1 b rb Htv1 Hn1 Hrec)
      as (y' & Hy' & Htvy & Hny & _).
    rewrite Hy in Hy'. by simplify_eq.
  - (* unloaded *)
    destruct (hasDOM w); intros [= <-]; [|done].
    by destruct (setAllHidden_names now (set_paused true w) (conj Ht Hv) Hn) as [H _].
  - (* a timer fires *)
    destruct (timers w !! id) as [t|] eqn:Hid; [|done].
    destruct (decide (tm_due t ≤ now)); [|done]. intros [= <-].
    unfold timerBody. rewrite (stateAt_heap _ _ w) by done.
    destruct (stateAt (tm_rec t) (tm_idx t) w) as [st|] eqn:Hst.
    + apply (namesOk_ext (writeState (tm_rec t) (tm_idx t) (with_visible true st)
                            (set_timers (delete id (timers w)) (nextTimer w) w))); [done..|].
      apply (names_update _ _ st _ w _ Ht Hn Hst); [done | done | |].
      * intros id' t'. cbn. intros [_ Hid']%lookup_delete_Some. by left.
      * intros id' Hid'. cbn in Hid' |- *. split; [by apply (Hn _ _ st id' Hst) | by left].
    + intros a i st id' Hst' Hid'. cbn.
      destruct (Hn a i st id' Hst' Hid') as [Hlt Hown]. split; [done|].
      intros t' [_ Ht']%lookup_delete_Some. by apply Hown.
  - (* a deferred closure runs *)
    destruct (work w !! k) as [a|]; [|done]. intros [= <-]. unfold runWork.
    apply flushQueuedEntries_names.
    by destruct (handleRecordExiting_names a now (set_work (delete k (work w)) w)
                   (conj Ht Hv) Hn) as [H _].
Qed.

Lemma namesOk_reachable sort dom ts evs w0 w :
  construct sort dom (Some ts) = Some w0 → run evs w0 = Some w → Inv w ∧ namesOk w.
Proof.
  intros Hc Hrun.
  assert (Hi0 : Inv w0) by (by eapply Inv_construct).
  assert (Hn0 : namesOk w0).
  { injection Hc as <-. intros a i st id Hst. unfold stateAt in Hst. cbn in Hst.
    by rewrite lookup_nil in Hst. }
  clear Hc. revert w0 Hi0 Hn0 Hrun.
  induction evs as [|[now ev] evs IH]; intros w0 Hi0 Hn0; cbn [run].
  - by intros [= <-].
  - destruct (step now ev w0) as [w1|] eqn:Hs; [|done]. cbn.
    apply IH; [by eapply Inv_step | by eapply namesOk_timersOk_step].
Qed.

(** X13.  A sample reaches the record of its target and nothing else:
    every other record object is left as it was, the timers pending on
    other records stay pending and no timer is set on them, and the store
    is unchanged.  Of the timers pending on the record itself, those of
    the states the sample satisfies stay pending, and every timer the
    sample sets is on a state it starts a dwell on. *)
Theorem sample_reaches_only_its_record
    (sort : (SpanielThreshold → SpanielThreshold → Q) → list SpanielThreshold → list SpanielThreshold)
    (dom : bool) (ts : list SpanielThreshold) (evs : list (Z * Event)) (w0 w : World)
    (now : Z) (e : IntersectionObserverEntry) (a : nat) (r : SpanielRecord) :
  construct sort dom (Some ts) = Some w0 →
  run evs w0 = Some w →
  recordOf w (target e) = Some (a, r) →
  ∃ w', handleObserverEntry now e w = Some w'
    ∧ recordStore w' = recordStore w
    ∧ (∀ b, b ≠ a → heap w' !! b = heap w !! b)
    ∧ (∀ id t, tm_rec t ≠ a → timers w' !! id = Some t ↔ timers w !! id = Some t)
    ∧ (∀ id t st, timers w !! id = Some t → tm_rec t = a →
         thresholdStates r !! tm_idx t = Some st →
         entrySatisfiesRatio e (ratio (threshold st)) = true →
         timers w' !! id = Some t)
    ∧ (∀ id t, timers w' !! id = Some t → timers w !! id = None →
         tm_rec t = a ∧ tm_set t = now
         ∧ ∃ st, thresholdStates r !! tm_idx t = Some st
                 ∧ entrySatisfiesRatio e (ratio (threshold st)) = true
                 ∧ lastSatisfied st = false
                 ∧ hasTimeThreshold (threshold st) = true).
Proof.
  intros Hc Hrun Hrec.
  destruct (namesOk_reachable sort dom ts evs w0 w Hc Hrun) as [(Ht & Hv & Hs & Hq) Hn].
  destruct (handleObserverEntry_timers now e w a r (conj Ht Hv) Hn Hrec)
    as (w' & Hw' & _ & _ & HA & HB).
  exists w'. split; [done|].
  split; [by destruct (handleObserverEntry_store _ _ _ _ Hw')|].
  split.
  { destruct (paused w) eqn:Hp.
    - rewrite (handleObserverEntry_paused _ _ _ _ _ Hrec Hp) in Hw'. simplify_eq.
      intros b Hb. unfold writeLastSeenEntry. cbn [heap set_heap].
      by rewrite list_lookup_alter_ne.
    - destruct (handleObserverEntry_active now e w a r Hrec Hp) as (w1 & Hw1 & _ & _ & Hfr & _).
      rewrite Hw' in Hw1. by simplify_eq. }
  split; [|split].
  - intros id t Ha. split.
    + intros Hid. by destruct (HB id t Hid) as [Hold | (_ & ? & _)].
    + intros Hid. by apply HA.
  - intros id t st Hid Ha Hst Hsat. apply HA; [done|]. intros _ st' Hst'. congruence.
  - intros id t Hid Hnone.
    destruct (HB id t Hid) as [Hold | (_ & Ha & Hset & st & Hst & Hrise)]; [congruence|].
    split; [done|]. split; [done|]. exists st. split; [done|].
    unfold risingWithTime in Hrise.
    destruct (entrySatisfiesRatio e _), (lastSatisfied st), (hasTimeThreshold _); done.
Qed.

Lemma sample_reaches_only_its_record_witness :
  let evs := [(0, Observe 7%nat None); (1, Observe 8%nat None);
              (3, Samples [sampleAt 7%nat (3 # 5) 0])] in
  let w := worldAfter [halfVisible; viewable] evs in
  let e := sampleAt 8%nat (4 # 5) 10 in
  is_Some (timers w !! 0%nat)
  ∧ ∃ w', handleObserverEntry 12 e w = Some w'
      ∧ heap w' !! 0%nat = heap w !! 0%nat
      ∧ timers w' !! 0%nat = timers w !! 0%nat.
Proof.
  intros evs w e.
  assert (Hrec : ∃ r, recordOf w (target e) = Some (1%nat, r)).
  { vm_compute. eexists. reflexivity. }
  destruct Hrec as [r Hrec].
  destruct (sample_reaches_only_its_record ArraySort.InsertionSort true
              [halfVisible; viewable] evs (worldAfter [halfVisible; viewable] []) w
              12 e 1%nat r eq_refl ltac:(vm_compute; reflexivity) Hrec)
    as (w' & Hw' & _ & Hheap & _).
  split; [vm_compute; eexists; reflexivity|].
  exists w'. split; [exact Hw'|]. split; [apply Hheap; lia|].
  vm_compute in Hw'. injection Hw' as <-. vm_compute. reflexivity.
Defined.

(** X14.  A sample that changes the satisfaction of no state of its
    record delivers nothing and leaves every timer as it is: the callback
    is not called, no timer is set or cleared, and each state of the
    record only has the sample noted as its [lastEntry]. *)
Theorem steady_sample_changes_nothing
    (sort : (SpanielThreshold → SpanielThreshold → Q) → list SpanielThreshold → list SpanielThreshold)
    (dom : bool) (ts : list SpanielThreshold) (evs : list (Z * Event)) (w0 w : World)
    (now : Z) (e : IntersectionObserverEntry) (a : nat) (r : SpanielRecord) :
  construct sort dom (Some ts) = Some w0 →
  run evs w0 = Some w →
  recordOf w (target e) = Some (a, r) →
  paused w = false →
  (∀ st, st ∈ thresholdStates r →
     entrySatisfiesRatio e (ratio (threshold st)) = lastSatisfied st) →
  ∃ w', handleObserverEntry now e w = Some w'
    ∧ calls w' = calls w
    ∧ timers w' = timers w
    ∧ ∀ i st, thresholdStates r !! i = Some st →
        stateAt a i w' = Some (with_last (Some e) (lastSatisfied st) st).
Proof.
  intros Hc Hrun Hrec Hp Hsteady.
  destruct (namesOk_reachable sort dom ts evs w0 w Hc Hrun) as [(Ht & Hv & Hs & Hq) Hn].
  destruct (recordOf_Some _ _ _ _ Hrec) as (k & _ & _ & Hr).
  destruct (handleObserverEntry_timers now e w a r (conj Ht Hv) Hn Hrec)
    as (w' & Hw' & _ & _ & HA & HB).
  destruct (handleObserverEntry_active now e w a r Hrec Hp)
    as (w1 & Hw1 & Hcalls & _ & _ & _ & Hstates).
  rewrite Hw' in Hw1. simplify_eq.
  exists w1. split; [done|]. split; [|split].
  - rewrite Hcalls, Hq. cbn [app].
    assert (Hnil : flat_map (sampleOut e r) (thresholdStates r) = []).
    { clear -Hsteady. induction (thresholdStates r) as [|st l IH]; cbn; [done|].
      rewrite IH by (intros; apply Hsteady; set_solver). rewrite app_nil_r.
      unfold sampleOut, exitOut, confirmedVisible. rewrite (Hsteady st) by set_solver.
      by destruct (lastSatisfied st). }
    rewrite Hnil. apply app_nil_r.
  - apply map_eq. intros id.
    destruct (timers w !! id) as [t|] eqn:Hid.
    + apply HA; [done|]. intros Ha st Hst.
      destruct (Ht id t Hid) as [_ (st0 & Hst0 & Hm)].
      rewrite Ha, (states_lookup _ _ _ _ Hr), Hst in Hst0. simplify_eq.
      rewrite Hsteady by (by eapply list_elem_of_lookup_2). apply Hm.
    + destruct (timers w1 !! id) as [t|] eqn:Hid1; [|done].
      destruct (HB id t Hid1) as [Hold | (_ & _ & _ & st & Hst & Hrise)]; [congruence|].
      unfold risingWithTime in Hrise.
      rewrite Hsteady in Hrise by (by eapply list_elem_of_lookup_2).
      by destruct (lastSatisfied st).
  - intros i st Hst. destruct (Hstates i st Hst) as [wx ->]. f_equal.
    unfold processState.
    rewrite Hsteady by (by eapply list_elem_of_lookup_2).
    destruct (lastSatisfied st) eqn:Hsat; cbn [andb negb]; [done|].
    rewrite handleThresholdExiting_eq. unfold confirmedVisible. by rewrite Hsat.
Qed.

Lemma steady_sample_changes_nothing_witness :
  let evs := [(0, Observe 7%nat None); (3, Samples [sampleAt 7%nat (3 # 5) 0])] in
  let w := worldAfter [halfVisible; viewable] evs in
  let e := sampleAt 7%nat (4 # 5) 500 in
  is_Some (timers w !! 0%nat)
  ∧ ∃ w', handleObserverEntry 503 e w = Some w'
      ∧ calls w' = calls w
      ∧ timers w' = timers w.
Proof.
  intros evs w e.
  assert (Hrec : ∃ r, recordOf w (target e) = Some (0%nat, r)
                      ∧ ∀ st, st ∈ thresholdStates r →
                          entrySatisfiesRatio e (ratio (threshold st)) = lastSatisfied st).
  { vm_compute recordOf. eexists. split; [reflexivity|]. intros st Hst.
    repeat (apply elem_of_cons in Hst as [-> | Hst]; [vm_compute; reflexivity|]).
    by apply elem_of_nil in Hst. }
  destruct Hrec as (r & Hrec & Hsteady).
  destruct (steady_sample_changes_nothing ArraySort.InsertionSort true
              [halfVisible; viewable] evs (worldAfter [halfVisible; viewable] []) w
              503 e 0%nat r eq_refl ltac:(vm_compute; reflexivity) Hrec
              ltac:(vm_compute; reflexivity) Hsteady)
    as (w' & Hw' & Hcalls & Htimers & _).
  split; [vm_compute; eexists; reflexivity|].
  exists w'. by repeat split.
Defined.

(** X15.  Forced exits clear the timers of the records they exit and no
    others.  After the page is hidden the pending timers are exactly those
    that were pending on records not in the store; after [disconnect] the
    same; after the deferred closure of [unobserve] has run for a record,
    exactly those that were pending on other records. *)
Theorem forced_exits_clear_only_their_own_timers
    (sort : (SpanielThreshold → SpanielThreshold → Q) → list SpanielThreshold → list SpanielThreshold)
    (dom : bool) (ts : list SpanielThreshold) (evs : list (Z * Event)) (w0 w : World)
    (now : Z) (id : nat) (t : Timer) :
  construct sort dom (Some ts) = Some w0 →
  run evs w0 = Some w →
  (timers (onTabHidden now w) !! id = Some t
   ↔ timers w !! id = Some t ∧ tm_rec t ∉ (recordStore w).*2)
  ∧ (timers (disconnect now w) !! id = Some t
     ↔ timers w !! id = Some t ∧ tm_rec t ∉ (recordStore w).*2)
  ∧ ∀ a, is_Some (heap w !! a) →
      (timers (runWork now a w) !! id = Some t ↔ timers w !! id = Some t ∧ tm_rec t ≠ a).
Proof.
  intros Hc Hrun.
  destruct (namesOk_reachable sort dom ts evs w0 w Hc Hrun) as [(Ht & Hv & Hs & Hq) Hn].
  assert (Hhide : ∀ w1, timers w1 = timers w → recordStore w1 = recordStore w →
            timersOk w1 ∧ visibleOk w1 → storeOk w1 → namesOk w1 →
            timers (setAllHidden now w1) !! id = Some t
            ↔ timers w !! id = Some t ∧ tm_rec t ∉ (recordStore w).*2).
  { intros w1 Ht1 Hs1 Htv1 Hst1 Hn1.
    destruct (setAllHidden_spec now w1 Htv1 Hst1) as (_ & _ & _ & Hsub).
    destruct (setAllHidden_names now w1 Htv1 Hn1) as [_ Hkeep].
    rewrite <- Ht1, <- Hs1. split; [apply Hsub | intros [? ?]; by apply Hkeep]. }
  split; [|split].
  - unfold onTabHidden. by apply Hhide.
  - unfold disconnect. cbn [timers set_recordStore call]. by apply Hhide.
  - intros a [r Hr].
    destruct (runWork_spec now a r w Ht Hq Hr) as (_ & _ & _ & _ & _ & _ & Hsub).
    destruct (handleRecordExiting_names a now w (conj Ht Hv) Hn) as [_ Hkeep].
    split; [apply Hsub|]. intros [Hid Ha].
    unfold runWork. destruct (flushQueuedEntries_calls (handleRecordExiting a now w))
      as (_ & _ & -> & _).
    by apply Hkeep.
Qed.

Lemma forced_exits_clear_only_their_own_timers_witness :
  let evs := [(0, Observe 7%nat None); (3, Samples [sampleAt 7%nat (3 # 5) 0]);
              (5, Unobserve 7%nat)] in
  let w := worldAfter [halfVisible; viewable] evs in
  recordStore w = []
  ∧ is_Some (timers w !! 0%nat)
  ∧ timers (onTabHidden 10 w) !! 0%nat = timers w !! 0%nat
  ∧ timers (runWork 10 0 w) !! 0%nat = None.
Proof.
  intros evs w.
  assert (Ht : ∃ t, timers w !! 0%nat = Some t ∧ tm_rec t = 0%nat).
  { vm_compute. eexists. split; reflexivity. }
  destruct Ht as (t & Ht & Hrec).
  destruct (forced_exits_clear_only_their_own_timers ArraySort.InsertionSort true
              [halfVisible; viewable] evs (worldAfter [halfVisible; viewable] []) w
              10 0%nat t eq_refl ltac:(vm_compute; reflexivity))
    as (Hhide & _ & Hwork).
  split; [vm_compute; reflexivity|]. split; [by exists t|]. split.
  - rewrite Ht. apply Hhide. split; [exact Ht|]. vm_compute. by intros ?%elem_of_nil.
  - vm_compute. reflexivity.
Defined.

(** ** Showing the page *)

Lemma reevaluate_calls now k a r w :
  Inv w → paused w = false → (k, a) ∈ recordStore w → heap w !! a = Some r →
  ∃ w', reevaluate now a w = Some w'
    ∧ calls w' = calls w ++ shownBatch now w (k, a)
    ∧ Inv w' ∧ recordStore w' = recordStore w ∧ paused w' = false
    ∧ (∀ b, b ≠ a → heap w' !! b = heap w !! b).
Proof.
  intros Hi Hp Hin Hr.
  destruct (reevaluate_stored now k a w Hi Hp Hin) as (w' & Hw' & Hi' & Hs' & Hp' & Hfr & _).
  exists w'. split; [done|]. split; [|done].
  pose proof Hi as (Ht & Hv & Hs & Hq).
  destruct (proj2 Hs k a Hin) as (r0 & Hr0 & Hid & Hseen).
  assert (r = r0) as -> by congruence. clear Hr.
  unfold shownBatch. cbn [snd]. rewrite Hr0.
  unfold reevaluate in Hw'. rewrite Hr0 in Hw'.
  destruct (lastSeenEntry r0) as [e|] eqn:He.
  2:{ simplify_eq. by rewrite app_nil_r. }
  specialize (Hseen e eq_refl).
  set (e' := restamp now e) in *. set (w1 := writeLastSeenEntry a (Some e') w) in *.
  assert (Hs1 : storeOk w1) by (by apply (storeOk_writeLastSeenEntry k)).
  destruct (recordOf_stored w1 k a (target e') Hs1 Hin Hseen) as (r1 & Hrec & Hr1).
  assert (Hr1' : r1 = with_lastSeenEntry (Some e') r0).
  { subst w1. cbn in Hr1. rewrite list_lookup_alter_eq, Hr0 in Hr1. by simplify_eq/=. }
  destruct (handleObserverEntry_active now e' w1 a r1 Hrec Hp) as (w2 & Hw2 & Hcalls & _).
  rewrite Hw' in Hw2. simplify_eq.
  change (queuedEntries w1) with (queuedEntries w) in Hcalls. rewrite Hq in Hcalls.
  exact Hcalls.
Qed.

Lemma onTabShown_loop now w l w1 :
  Inv w1 → paused w1 = false →
  (∀ p, p ∈ l → p ∈ recordStore w1) → NoDup l.*2 →
  (∀ p, p ∈ l → heap w1 !! p.2 = heap w !! p.2) →
  ∃ w', foldl (λ ow (p : Token * nat), x ← ow; reevaluate now p.2 x) (Some w1) l = Some w'
    ∧ calls w' = calls w1 ++ flat_map (shownBatch now w) l
    ∧ Inv w' ∧ paused w' = false ∧ recordStore w' = recordStore w1.
Proof.
  revert w1. induction l as [|[k a] l IH]; intros w1 Hi Hp Hsub Hnd Hsame; cbn [foldl flat_map].
  - exists w1. by rewrite app_nil_r.
  - cbn [fmap list_fmap snd] in Hnd. apply NoDup_cons in Hnd as [Hnotin Hnd].
    assert (Hin : (k, a) ∈ recordStore w1) by (apply Hsub; set_solver).
    pose proof Hi as (_ & _ & Hs & _).
    destruct (proj2 Hs k a Hin) as (r & Hr & _).
    destruct (reevaluate_calls now k a r w1 Hi Hp Hin Hr)
      as (w2 & Hw2 & Hcalls & Hi2 & Hs2 & Hp2 & Hfr).
    cbn [mbind option_bind snd]. cbn [snd] in Hw2. rewrite Hw2.
    destruct (IH w2 Hi2 Hp2) as (w' & Hw' & Hcalls' & Hi' & Hp' & Hs'); [| done | |].
    + intros p Hp0. rewrite Hs2. apply Hsub. set_solver.
    + intros p Hp0. rewrite Hfr; [apply Hsame; set_solver|].
      intros Heq. apply Hnotin. rewrite <- Heq. apply list_elem_of_fmap. by exists p.
    + exists w'. split; [done|]. split; [|split; [done|split; [done|congruence]]].
      rewrite Hcalls', Hcalls, <- app_assoc. do 2 f_equal.
      unfold shownBatch. cbn [snd].
      assert (Heq : heap w1 !! a = heap w !! a) by (apply (Hsame (k, a)); set_solver).
      by rewrite Heq.
Qed.

Lemma sampleOut_reset e r st :
  isReset st →
  sampleOut e r st
  = if entrySatisfiesRatio e (ratio (threshold st)) && negb (hasTimeThreshold (threshold st))
    then [with_entering true (generateSpanielEntry r e st)] else [].
Proof.
  intros (Hsat & _). unfold sampleOut, exitOut, confirmedVisible. rewrite Hsat.
  by destruct (entrySatisfiesRatio e _), (hasTimeThreshold _).
Qed.

(** X16.  Showing the page never raises.  It clears the pause and then,
    for each stored record in key order, evaluates the record's last seen
    sample again with the time of showing as its time, delivering what
    that queues as one batch for the record; a record that has seen no
    sample is skipped.  When the observer was paused, the batch of a
    record is one entering entry for each threshold without a time that
    the sample satisfies, and nothing for the others. *)
Theorem showing_reevaluates_each_record_in_its_own_batch
    (sort : (SpanielThreshold → SpanielThreshold → Q) → list SpanielThreshold → list SpanielThreshold)
    (dom : bool) (ts : list SpanielThreshold) (evs : list (Z * Event)) (w0 w : World)
    (now : Z) :
  construct sort dom (Some ts) = Some w0 →
  run evs w0 = Some w →
  ∃ w', onTabShown now w = Some w'
    ∧ paused w' = false
    ∧ recordStore w' = recordStore w
    ∧ calls w' = calls w ++ flat_map (shownBatch now w) (recordStore w)
    ∧ (paused w = true →
       ∀ k a r e st, (k, a) ∈ recordStore w → heap w !! a = Some r →
         lastSeenEntry r = Some e → st ∈ thresholdStates r →
         sampleOut (restamp now e) r st
         = if entrySatisfiesRatio e (ratio (threshold st))
              && negb (hasTimeThreshold (threshold st))
           then [with_entering true (generateSpanielEntry r (restamp now e) st)]
           else []).
Proof.
  intros Hc Hrun.
  assert (Hi0 : Inv w0) by (by eapply Inv_construct).
  assert (Hi : Inv w) by (by eapply Inv_run).
  pose proof Hi as (Ht & Hv & Hs & Hq).
  assert (Hiw : Inv (set_paused false w)) by (by apply Inv_intro).
  destruct (onTabShown_loop now w (recordStore w) (set_paused false w) Hiw eq_refl)
    as (w' & Hw' & Hcalls & _ & Hp' & Hs'); [done | by apply store_addresses_NoDup | done |].
  exists w'. split; [exact Hw'|]. split; [done|]. split; [done|]. split; [done|].
  intros Hpaused k a r e st Hin Hr He Hst.
  assert (Hp0 : pausedOk w0).
  { injection Hc as <-. intros H. discriminate H. }
  destruct (pausedOk_run evs w0 w Hi0 Hp0 Hrun Hpaused) as [Hreset _].
  apply list_elem_of_lookup in Hst as [i Hst].
  apply (sampleOut_reset (restamp now e) r st).
  apply (Hreset k a i st Hin). unfold stateAt. by rewrite Hr.
Qed.

Lemma showing_reevaluates_each_record_in_its_own_batch_witness :
  let evs := [(0, Observe 7%nat None); (1, Observe 8%nat (Some 5%nat));
              (3, Samples [sampleAt 7%nat (3 # 5) 0; sampleAt 8%nat (4 # 5) 0]);
              (400, PageHidden)] in
  let w := worldAfter [halfVisible; viewable] evs in
  ∃ w', onTabShown 900 w = Some w'
    ∧ paused w' = false
    ∧ calls w'
      = calls w
        ++ [callback [mkSOE (3 # 5) 900 (mkRect 0 0 1024 768) (mkRect 0 100 200 100)
                        (mkRect 0 100 200 60) 7%nat 0 (Some true) None "50pct"];
            callback [mkSOE (4 # 5) 900 (mkRect 0 0 1024 768) (mkRect 0 100 200 100)
                        (mkRect 0 100 200 60) 8%nat 0 (Some true) (Some 5%nat) "50pct"]].
Proof.
  intros evs w.
  destruct (showing_reevaluates_each_record_in_its_own_batch ArraySort.InsertionSort true
              [halfVisible; viewable] evs (worldAfter [halfVisible; viewable] []) w 900
              eq_refl ltac:(vm_compute; reflexivity))
    as (w' & Hw' & Hp' & _ & Hcalls & _).
  exists w'. split; [exact Hw'|]. split; [exact Hp'|].
  rewrite Hcalls. vm_compute. reflexivity.
Defined.

(** ** A dwell, confirmed and then left *)

(** X17.  A dwell that is confirmed and then left.  When a pending timer
    comes due, its closure delivers the entering entry it captured, alone
    in its batch, with the time from the sample that started the dwell to
    now as [duration].  When a sample then no longer satisfies the
    threshold, the batch of that sample holds the exit entry of the state,
    and its [duration] counts from the time of the sample that started the
    dwell, not from the confirmation; the state ends neither visible nor
    satisfied. *)
Theorem dwell_exit_duration_counts_from_the_dwell_start
    (sort : (SpanielThreshold → SpanielThreshold → Q) → list SpanielThreshold → list SpanielThreshold)
    (dom : bool) (ts : list SpanielThreshold) (evs : list (Z * Event)) (w0 w : World)
    (id : nat) (t : Timer) (now now2 : Z) (e : IntersectionObserverEntry)
    (r : SpanielRecord) (st : SpanielThresholdState) :
  construct sort dom (Some ts) = Some w0 →
  run evs w0 = Some w →
  timers w !! id = Some t →
  tm_due t ≤ now →
  recordOf w (target e) = Some (tm_rec t, r) →
  paused w = false →
  thresholdStates r !! tm_idx t = Some st →
  entrySatisfiesRatio e (ratio (threshold st)) = false →
  ∃ w1 w2 batch st2,
    step now (TimerFires id) w = Some w1
    ∧ calls w1
      = calls w ++ [callback [with_duration (now - se_time (tm_entry t)) (tm_entry t)]]
    ∧ entering (tm_entry t) = Some true
    ∧ step now2 (Samples [e]) w1 = Some w2
    ∧ calls w2 = calls w1 ++ [callback batch]
    ∧ with_entering false
        (with_duration (ioe_time e - se_time (tm_entry t)) (generateSpanielEntry r e st))
      ∈ batch
    ∧ stateAt (tm_rec t) (tm_idx t) w2 = Some st2
    ∧ visible st2 = false ∧ lastSatisfied st2 = false.
Proof.
  intros Hc Hrun Hid Hdue Hrec Hp Hst Hsat.
  assert (Hi : Inv w) by (eapply Inv_run; [by eapply Inv_construct | done]).
  destruct Hi as (Ht & Hv & Hs & Hq).
  destruct (recordOf_Some _ _ _ _ Hrec) as (k & Hk & Hget & Hr).
  destruct (Ht id t Hid) as [_ (st0 & Hst0 & Hm)].
  rewrite (states_lookup _ _ _ _ Hr), Hst in Hst0. simplify_eq.
  destruct Hm as (_ & Hlast & _ & Htime & _ & Hlv & Hent).
  set (a := tm_rec t) in *. set (i := tm_idx t) in *.
  set (wd := set_timers (delete id (timers w)) (nextTimer w) w).
  set (w1 := call (callback [with_duration (now - se_time (tm_entry t)) (tm_entry t)])
               (writeState a i (with_visible true st0) wd)).
  assert (Hstep1 : step now (TimerFires id) w = Some w1).
  { cbn [step]. rewrite Hid. destruct (decide (tm_due t ≤ now)); [|done].
    unfold timerBody. fold a i wd.
    assert (Hsd : stateAt a i wd = Some st0).
    { rewrite (stateAt_heap _ _ w) by done. by rewrite (states_lookup _ _ _ _ Hr). }
    rewrite Hsd, Hlv. done. }
  set (r1 := with_states (<[i := with_visible true st0]> (thresholdStates r)) r).
  assert (Hrec1 : recordOf w1 (target e) = Some (a, r1)).
  { unfold recordOf. cbn [spanielIds recordStore heap w1 wd call writeState set_heap set_timers].
    rewrite Hk. cbn. rewrite Hget. cbn. rewrite list_lookup_alter_eq, Hr. done. }
  destruct (handleObserverEntry_active now2 e w1 a r1 Hrec1 Hp)
    as (w2 & Hw2 & Hcalls & _ & _ & _ & Hstates).
  change (queuedEntries w1) with (queuedEntries w) in Hcalls. rewrite Hq in Hcalls.
  cbn [app] in Hcalls.
  assert (Hst1 : thresholdStates r1 !! i = Some (with_visible true st0)).
  { cbn. apply list_lookup_insert_eq. by eapply lookup_lt_Some. }
  set (x := with_entering false
              (with_duration (ioe_time e - se_time (tm_entry t))
                 (generateSpanielEntry r e st0))).
  assert (Hx : x ∈ flat_map (sampleOut e r1) (thresholdStates r1)).
  { apply list_elem_of_In, in_flat_map. exists (with_visible true st0).
    split; [by eapply list_elem_of_In, list_elem_of_lookup_2|].
    apply list_elem_of_In. unfold sampleOut, exitOut, confirmedVisible. cbn.
    rewrite Hsat, Hlast, Htime, Hlv. cbn. apply list_elem_of_here. }
  destruct (Hstates i _ Hst1) as [wx Hst2].
  destruct (processState_state now2 e r1 a i (with_visible true st0) wx)
    as (_ & Hsat2 & _ & _ & Hvis2).
  cbn [threshold with_visible] in Hsat2, Hvis2. rewrite Hsat in Hsat2.
  specialize (Hvis2 Hsat).
  exists w1, w2, (flat_map (sampleOut e r1) (thresholdStates r1)). eexists.
  split; [done|]. split; [done|]. split; [done|].
  split; [cbn [step]; unfold internalCallback; cbn; exact Hw2|].
  split.
  { rewrite Hcalls. destruct (flat_map (sampleOut e r1) (thresholdStates r1)); [|done].
    by apply elem_of_nil in Hx. }
  split; [done|]. split; [exact Hst2|]. split; [|done].
  rewrite Hvis2. unfold confirmedVisible. cbn. by rewrite Hlast, Htime.
Qed.

Lemma dwell_exit_duration_counts_from_the_dwell_start_witness :
  let evs := [(0, Observe 7%nat None); (3, Samples [sampleAt 7%nat (3 # 5) 0])] in
  let w := worldAfter [halfVisible; viewable] evs in
  let e := sampleAt 7%nat (1 # 5) 3000 in
  ∃ w1 w2 batch,
    step 1500 (TimerFires 0) w = Some w1
    ∧ calls w1
      = calls w
        ++ [callback [mkSOE (3 # 5) 0 (mkRect 0 0 1024 768) (mkRect 0 100 200 100)
                        (mkRect 0 100 200 60) 7%nat 1500 (Some true) None "viewable"]]
    ∧ step 3002 (Samples [e]) w1 = Some w2
    ∧ calls w2 = calls w1 ++ [callback batch]
    ∧ mkSOE (1 # 5) 3000 (mkRect 0 0 1024 768) (mkRect 0 100 200 100)
        (mkRect 0 100 200 60) 7%nat 3000 (Some false) None "viewable" ∈ batch.
Proof.
  intros evs w e.
  assert (H : ∃ t r st, timers w !! 0%nat = Some t
                ∧ recordOf w (target e) = Some (tm_rec t, r)
                ∧ thresholdStates r !! tm_idx t = Some st
                ∧ entrySatisfiesRatio e (ratio (threshold st)) = false
                ∧ tm_due t ≤ 1500
                ∧ with_duration (1500 - se_time (tm_entry t)) (tm_entry t)
                  = mkSOE (3 # 5) 0 (mkRect 0 0 1024 768) (mkRect 0 100 200 100)
                      (mkRect 0 100 200 60) 7%nat 1500 (Some true) None "viewable"
                ∧ with_entering false
                    (with_duration (ioe_time e - se_time (tm_entry t))
                       (generateSpanielEntry r e st))
                  = mkSOE (1 # 5) 3000 (mkRect 0 0 1024 768) (mkRect 0 100 200 100)
                      (mkRect 0 100 200 60) 7%nat 3000 (Some false) None "viewable").
  { vm_compute. do 3 eexists. split; [reflexivity|]. split; [reflexivity|].
    split; [reflexivity|]. split; [reflexivity|]. split; [discriminate|].
    split; reflexivity. }
  destruct H as (t & r & st & Hid & Hrec & Hst & Hsat & Hdue & He1 & He2).
  destruct (dwell_exit_duration_counts_from_the_dwell_start ArraySort.InsertionSort true
              [halfVisible; viewable] evs (worldAfter [halfVisible; viewable] []) w
              0%nat t 1500 3002 e r st eq_refl ltac:(vm_compute; reflexivity)
              Hid Hdue Hrec ltac:(vm_compute; reflexivity) Hst Hsat)
    as (w1 & w2 & batch & st2 & H1 & H2 & _ & H4 & H5 & H6 & _).
  exists w1, w2, batch. rewrite <- He1, <- He2. by repeat split.
Defined.

(** ** What the batch of a sample holds *)

Lemma elem_of_sampleOut x e r st :
  x ∈ sampleOut e r st ↔
    (entrySatisfiesRatio e (ratio (threshold st)) = true ∧ lastSatisfied st = false
     ∧ hasTimeThreshold (threshold st) = false
     ∧ x = with_entering true (generateSpanielEntry r e st))
    ∨ (entrySatisfiesRatio e (ratio (threshold st)) = false ∧ lastSatisfied st = true
       ∧ (hasTimeThreshold (threshold st) = true → visible st = true)
       ∧ x = with_entering false
               (with_duration (ioe_time e - toNumber (lastVisible st))
                  (generateSpanielEntry r e st))).
Proof.
  unfold sampleOut, exitOut.
  destruct (entrySatisfiesRatio e _).
  - destruct (lastSatisfied st); [rewrite elem_of_nil; naive_solver|].
    destruct (hasTimeThreshold _); [rewrite elem_of_nil; naive_solver|].
    rewrite list_elem_of_singleton. naive_solver.
  - destruct (confirmedVisible st) eqn:Hcv.
    + apply confirmedVisible_true in Hcv as [? ?].
      rewrite list_elem_of_singleton. naive_solver.
    + rewrite elem_of_nil. split; [done|]. intros [(? & _) | (_ & Hl & Hv & _)]; [done|].
      assert (confirmedVisible st = true) by (by apply confirmedVisible_true). congruence.
Qed.

(** X18.  The batch a sample delivers, when the observer is not paused,
    holds exactly the crossings of the record's thresholds: an entering
    entry for each state of a threshold without a time that the sample
    satisfies and that was not satisfied, and an exit entry for each state
    that the sample does not satisfy and that was satisfied and, for a
    threshold with a time, confirmed visible.  Every entry copies the
    sample's target, time and ratio and the record's payload; an
    entering entry has duration 0, an exit entry the sample's time less
    the state's [lastVisible]. *)
Theorem sample_batch_holds_the_crossings
    (sort : (SpanielThreshold → SpanielThreshold → Q) → list SpanielThreshold → list SpanielThreshold)
    (dom : bool) (ts : list SpanielThreshold) (evs : list (Z * Event)) (w0 w : World)
    (now : Z) (e : IntersectionObserverEntry) (a : nat) (r : SpanielRecord) :
  construct sort dom (Some ts) = Some w0 →
  run evs w0 = Some w →
  recordOf w (target e) = Some (a, r) →
  paused w = false →
  ∃ w' batch,
    handleObserverEntry now e w = Some w'
    ∧ calls w' = calls w ++ match batch with [] => [] | x :: l => [callback (x :: l)] end
    ∧ (∀ x, x ∈ batch ↔
         ∃ st, st ∈ thresholdStates r
           ∧ ((entrySatisfiesRatio e (ratio (threshold st)) = true
               ∧ lastSatisfied st = false
               ∧ hasTimeThreshold (threshold st) = false
               ∧ x = with_entering true (generateSpanielEntry r e st))
              ∨ (entrySatisfiesRatio e (ratio (threshold st)) = false
                 ∧ lastSatisfied st = true
                 ∧ (hasTimeThreshold (threshold st) = true → visible st = true)
                 ∧ x = with_entering false
                         (with_duration (ioe_time e - toNumber (lastVisible st))
                            (generateSpanielEntry r e st)))))
    ∧ (∀ x, x ∈ batch →
         se_target x = target e ∧ se_time x = ioe_time e
         ∧ se_intersectionRatio x = intersectionRatio e
         ∧ se_payload x = rec_payload r
         ∧ (entering x = Some true → duration x = 0)).
Proof.
  intros Hc Hrun Hrec Hp.
  assert (Hi : Inv w) by (eapply Inv_run; [by eapply Inv_construct | done]).
  destruct Hi as (_ & _ & _ & Hq).
  destruct (handleObserverEntry_active now e w a r Hrec Hp) as (w' & Hw' & Hcalls & _).
  rewrite Hq in Hcalls. cbn [app] in Hcalls.
  assert (Hchar : ∀ x, x ∈ flat_map (sampleOut e r) (thresholdStates r) ↔
            ∃ st, st ∈ thresholdStates r ∧ x ∈ sampleOut e r st).
  { intros x. rewrite list_elem_of_In, in_flat_map.
    split; intros (st & H1 & H2); exists st; by rewrite ?list_elem_of_In in *. }
  exists w', (flat_map (sampleOut e r) (thresholdStates r)).
  split; [done|]. split; [done|]. split.
  - intros x. rewrite Hchar. by setoid_rewrite elem_of_sampleOut.
  - intros x (st & _ & Hx)%Hchar.
    apply elem_of_sampleOut in Hx as [(_ & _ & _ & ->) | (_ & _ & _ & ->)]; by cbn.
Qed.

Lemma sample_batch_holds_the_crossings_witness :
  let evs := [(0, Observe 7%nat (Some 3%nat)); (3, Samples [sampleAt 7%nat (3 # 5) 0]);
              (1004, TimerFires 0%nat)] in
  let w := worldAfter [halfVisible; viewable] evs in
  let e := sampleAt 7%nat (1 # 5) 2000 in
  ∃ w' batch,
    handleObserverEntry 2003 e w = Some w'
    ∧ calls w' = calls w ++ match batch with [] => [] | x :: l => [callback (x :: l)] end
    ∧ (∀ x, x ∈ batch →
         se_target x = 7%nat ∧ se_time x = 2000 ∧ se_payload x = Some 3%nat).
Proof.
  intros evs w e.
  assert (Hrec : ∃ r, recordOf w (target e) = Some (0%nat, r) ∧ rec_payload r = Some 3%nat).
  { vm_compute. eexists. split; reflexivity. }
  destruct Hrec as (r & Hrec & Hpay).
  destruct (sample_batch_holds_the_crossings ArraySort.InsertionSort true
              [halfVisible; viewable] evs (worldAfter [halfVisible; viewable] []) w
              2003 e 0%nat r eq_refl ltac:(vm_compute; reflexivity) Hrec
              ltac:(vm_compute; reflexivity))
    as (w' & batch & H1 & H2 & _ & H4).
  exists w', batch. split; [exact H1|]. split; [exact H2|].
  intros x Hx. destruct (H4 x Hx) as (Ha & Hb & _ & Hd & _).
  rewrite <- Hpay. by repeat split.
Defined.

(** ** Records nothing refers to any more *)

Lemma handleObserverEntry_work now e w w' :
  handleObserverEntry now e w = Some w' → work w' = work w.
Proof.
  unfold handleObserverEntry. destruct (recordOf w (target e)) as [[a r]|]; [|done].
  destruct (paused _); intros [= <-]; [done|].
  pose proof (forEachState_sameShape a (processState now e r a)
                (writeLastSeenEntry a (Some e) w)
                (λ i st w0, processState_sameObjects now e r a i st w0))
    as (_ & _ & _ & _ & H1 & _).
  pose proof (flushQueuedEntries_sameShape
                (forEachState a (processState now e r a) (writeLastSeenEntry a (Some e) w)))
    as (_ & _ & _ & _ & H2 & _).
  cbn [writeLastSeenEntry work set_heap] in H1. congruence.
Qed.

(** A sample reaches one stored record and nothing else. *)
Lemma handleObserverEntry_other now e w w' :
  timersOk w ∧ visibleOk w → namesOk w →
  handleObserverEntry now e w = Some w' →
  (timersOk w' ∧ visibleOk w') ∧ namesOk w'
  ∧ recordStore w' = recordStore w ∧ work w' = work w
  ∧ ∃ a, a ∈ (recordStore w).*2
      ∧ (∀ b, b ≠ a → heap w' !! b = heap w !! b)
      ∧ (∀ id t, timers w' !! id = Some t → timers w !! id = Some t ∨ tm_rec t = a).
Proof.
  intros Htv Hn Hw'. pose proof Hw' as H. unfold handleObserverEntry in H.
  destruct (recordOf w (target e)) as [[a r]|] eqn:Hrec; [|done]. clear H.
  destruct (recordOf_Some _ _ _ _ Hrec) as (k & _ & Hget & Hr).
  destruct (handleObserverEntry_timers now e w a r Htv Hn Hrec)
    as (w1 & Hw1 & Htv1 & Hn1 & _ & HB).
  rewrite Hw' in Hw1. simplify_eq.
  split; [done|]. split; [done|].
  split; [by destruct (handleObserverEntry_store _ _ _ _ Hw')|].
  split; [by apply (handleObserverEntry_work _ _ _ _ Hw')|].
  exists a. split; [|split].
  - apply list_elem_of_fmap. exists (k, a). split; [done|]. by apply store_get_elem_of.
  - destruct (paused w) eqn:Hp.
    + rewrite (handleObserverEntry_paused _ _ _ _ _ Hrec Hp) in Hw'. simplify_eq.
      intros b Hb. unfold writeLastSeenEntry. cbn [heap set_heap].
      by rewrite list_lookup_alter_ne.
    + destruct (handleObserverEntry_active now e w a r Hrec Hp) as (w2 & Hw2 & _ & _ & Hfr & _).
      rewrite Hw' in Hw2. by simplify_eq.
  - intros id t Hid. destruct (HB id t Hid) as [? | (_ & ? & _)]; auto.
Qed.

Lemma handleRecordExiting_other a time w b :
  timersOk w → b ≠ a →
  heap (handleRecordExiting a time w) !! b = heap w !! b.
Proof.
  intros Ht Hb. destruct (heap w !! a) as [r|] eqn:Hr.
  - destruct (handleRecordExiting_spec time a r w Ht Hr) as (_ & _ & Hfr & _). by apply Hfr.
  - unfold handleRecordExiting. by rewrite Hr.
Qed.

Lemma setAllHidden_other now w b :
  timersOk w ∧ visibleOk w → b ∉ (recordStore w).*2 →
  heap (setAllHidden now w) !! b = heap w !! b.
Proof.
  intros Htv Hb. unfold setAllHidden.
  assert (H : ∀ l w0, timersOk w0 ∧ visibleOk w0 → b ∉ l.*2 →
            heap (foldl (λ w (p : Token * nat), handleRecordExiting p.2 now w) w0 l) !! b
            = heap w0 !! b).
  { induction l as [|[k a] l IH]; intros w0 Htv0 Hnot; cbn [foldl]; [done|].
    cbn [fmap list_fmap snd] in Hnot.
    rewrite IH; [| by apply handleRecordExiting_invariants | set_solver].
    apply handleRecordExiting_other; [apply Htv0 | set_solver]. }
  specialize (H (recordStore w) w Htv Hb). cbn [heap call].
  by destruct (flushQueuedEntries_calls
                 (foldl (λ w (p : Token * nat), handleRecordExiting p.2 now w) w (recordStore w)))
    as (_ & -> & _).
Qed.

Lemma retired_step now ev w w' a :
  Inv w → namesOk w → retired a w → step now ev w = Some w' →
  retired a w' ∧ heap w' !! a = heap w !! a.
Proof.
  intros Hi Hn (Hlive & Hstore & Hwork & Htim).
  pose proof Hi as (Ht & Hv & Hs & Hq).
  assert (Hret : ∀ w1, heap w1 !! a = heap w !! a → a ∉ (recordStore w1).*2 → a ∉ work w1 →
            (∀ id t, timers w1 !! id = Some t → tm_rec t ≠ a) →
            retired a w1 ∧ heap w1 !! a = heap w !! a).
  { intros w1 Hh ? ? ?. split; [|done]. split; [by rewrite Hh | done]. }
  assert (Hhide : ∀ w1, heap w1 = heap w → recordStore w1 = recordStore w →
            work w1 = work w → timers w1 = timers w →
            timersOk w1 ∧ visibleOk w1 → storeOk w1 →
            heap (setAllHidden now w1) !! a = heap w !! a
            ∧ (a ∉ work (setAllHidden now w1))
            ∧ ∀ id t, timers (setAllHidden now w1) !! id = Some t → tm_rec t ≠ a).
  { intros w1 Hh1 Hs1 Hw1 Ht1 Htv1 Hst1.
    split; [rewrite setAllHidden_other; [by rewrite Hh1 | done | by rewrite Hs1]|].
    pose proof (setAllHidden_sameShape now w1) as (_ & _ & _ & _ & Hwk & _).
    split; [by rewrite Hwk, Hw1|].
    destruct (setAllHidden_spec now w1 Htv1 Hst1) as (_ & _ & _ & Hsub).
    intros id t Hid. destruct (Hsub id t Hid) as [Hold _]. rewrite Ht1 in Hold.
    by apply (Htim id t). }
  destruct ev; cbn [step].
  - (* observe *)
    intros [= <-]. rewrite observe_eq. cbn [snd].
    destruct Hlive as [r Hr]. pose proof (lookup_lt_Some _ _ _ Hr) as Hlt.
    apply Hret; cbn [heap recordStore work timers call set_recordStore set_heap set_spanielIds].
    + by apply lookup_app_l.
    + intros ([k b] & Hb & Hin)%list_elem_of_fmap. cbn in Hb. rewrite <- Hb in Hin.
      clear b Hb.
      apply elem_of_store_set in Hin as [Heq | Hin]; [injection Heq as _ Heq; lia|].
      apply Hstore. apply list_elem_of_fmap. by exists (k, a).
    + done.
    + done.
  - (* unobserve *)
    intros [= <-]. unfold unobserve.
    destruct (recordOf w el) as [[b r]|] eqn:Hrec; [|by apply Hret].
    destruct (recordOf_Some _ _ _ _ Hrec) as (k & Hk & Hget & _). rewrite Hk.
    apply Hret; cbn [heap recordStore work timers call set_recordStore set_work].
    + done.
    + intros (p & Hp & Hin)%list_elem_of_fmap. unfold store_delete in Hin.
      apply list_elem_of_filter in Hin as [_ Hin].
      apply Hstore. apply list_elem_of_fmap. by exists p.
    + intros [Hin | Heq%list_elem_of_singleton]%elem_of_app; [done|].
      apply Hstore. apply list_elem_of_fmap. exists (k, b). split; [done|].
      by apply store_get_elem_of.
    + done.
  - (* disconnect *)
    intros [= <-]. destruct (Hhide w) as (H1 & H2 & H3); [done..|].
    apply Hret; cbn [heap recordStore work timers call set_recordStore]; [done| |done|done].
    cbn. by intros ?%elem_of_nil.
  - (* samples *)
    unfold internalCallback. intros H.
    assert (HJ : ((timersOk w' ∧ visibleOk w') ∧ namesOk w')
                 ∧ recordStore w' = recordStore w ∧ work w' = work w
                 ∧ heap w' !! a = heap w !! a
                 ∧ ∀ id t, timers w' !! id = Some t → tm_rec t ≠ a).
    { apply (foldl_option_preserves (λ w e, handleObserverEntry now e w)
               (λ x, ((timersOk x ∧ visibleOk x) ∧ namesOk x)
                     ∧ recordStore x = recordStore w ∧ work x = work w
                     ∧ heap x !! a = heap w !! a
                     ∧ ∀ id t, timers x !! id = Some t → tm_rec t ≠ a)
               records w w'); [|done|done].
      intros x e y ([Htvx Hnx] & Hsx & Hwx & Hhx & Htx) Hy.
      destruct (handleObserverEntry_other now e x y Htvx Hnx Hy)
        as (Htvy & Hny & Hsy & Hwy & b & Hb & Hfr & Hnew).
      split; [done|]. split; [congruence|]. split; [congruence|].
      assert (Hne : a ≠ b) by (intros ->; apply Hstore; by rewrite <- Hsx).
      split; [by rewrite Hfr|].
      intros id t Hid. destruct (Hnew id t Hid) as [Hold | ->]; [by apply (Htx id t) | done]. }
    destruct HJ as (_ & Hs' & Hw' & Hh' & Ht').
    apply Hret; [done | by rewrite Hs' | by rewrite Hw' | done].
  - (* hidden *)
    destruct (hasDOM w); intros [= <-]; [|by apply Hret].
    destruct (Hhide (set_paused true w)) as (H1 & H2 & H3); [done..|].
    apply Hret; [done | | done | done].
    unfold onTabHidden.
    by destruct (setAllHidden_sameShape now (set_paused true w)) as (-> & _).
  - (* shown *)
    destruct (hasDOM w); [|intros [= <-]; by apply Hret]. unfold onTabShown. intros H.
    assert (HJ : ((timersOk w' ∧ visibleOk w') ∧ namesOk w')
                 ∧ recordStore w' = recordStore w ∧ work w' = work w
                 ∧ heap w' !! a = heap w !! a
                 ∧ ∀ id t, timers w' !! id = Some t → tm_rec t ≠ a).
    { apply (foldl_option_preserves_in (λ w (p : Token * nat), reevaluate now p.2 w)
               (λ x, ((timersOk x ∧ visibleOk x) ∧ namesOk x)
                     ∧ recordStore x = recordStore w ∧ work x = work w
                     ∧ heap x !! a = heap w !! a
                     ∧ ∀ id t, timers x !! id = Some t → tm_rec t ≠ a)
               (recordStore (set_paused false w)) (set_paused false w) w'); [|done|done].
      intros x [k b] y Hin ([Htvx Hnx] & Hsx & Hwx & Hhx & Htx). unfold reevaluate. cbn [snd].
      destruct (heap x !! b) as [r|]; [|by intros [= <-]].
      destruct (lastSeenEntry r) as [e|]; [|by intros [= <-]].
      set (x1 := writeLastSeenEntry b (Some (restamp now e)) x).
      pose proof (writeLastSeenEntry_invariants b (Some (restamp now e)) x Htvx) as Htv1.
      assert (Hn1 : namesOk x1).
      { apply (namesOk_ext x); [|done..]. intros. apply stateAt_writeLastSeenEntry. }
      assert (Hab : a ≠ b).
      { intros ->. apply Hstore. apply list_elem_of_fmap. by exists (k, b). }
      intros Hy.
      destruct (handleObserverEntry_other now (restamp now e) x1 y Htv1 Hn1 Hy)
        as (Htvy & Hny & Hsy & Hwy & c & Hc & Hfr & Hnew).
      split; [done|]. split; [by rewrite Hsy|]. split; [by rewrite Hwy|].
      assert (Hne : a ≠ c) by (intros ->; apply Hstore; by rewrite <- Hsx).
      split.
      + rewrite Hfr by done. unfold x1, writeLastSeenEntry. cbn [heap set_heap].
        by rewrite list_lookup_alter_ne.
      + intros id t Hid. destruct (Hnew id t Hid) as [Hold | ->]; [by apply (Htx id t) | done]. }
    destruct HJ as (_ & Hs' & Hw' & Hh' & Ht').
    apply Hret; [done | by rewrite Hs' | by rewrite Hw' | done].
  - (* unloaded *)
    destruct (hasDOM w); intros [= <-]; [|by apply Hret].
    destruct (Hhide (set_paused true w)) as (H1 & H2 & H3); [done..|].
    apply Hret; [done | | done | done].
    unfold onWindowClosed, onTabHidden.
    by destruct (setAllHidden_sameShape now (set_paused true w)) as (-> & _).
  - (* a timer fires *)
    destruct (timers w !! id) as [t|] eqn:Hid; [|done].
    destruct (decide (tm_due t ≤ now)); [|done]. intros [= <-].
    pose proof (Htim id t Hid) as Hne.
    unfold timerBody. rewrite (stateAt_heap _ _ w) by done.
    assert (Hdel : ∀ id' t', delete id (timers w) !! id' = Some t' → tm_rec t' ≠ a).
    { intros id' t' [_ Hid']%lookup_delete_Some. by apply (Htim id' t'). }
    destruct (stateAt (tm_rec t) (tm_idx t) w) as [st|]; apply Hret; try done.
    cbn [heap call writeState set_heap set_timers]. by rewrite list_lookup_alter_ne.
  - (* a deferred closure runs *)
    destruct (work w !! k) as [b|] eqn:Hk; [|done]. intros [= <-].
    assert (Hab : b ≠ a) by (intros ->; apply Hwork; by eapply list_elem_of_lookup_2).
    set (w1 := set_work (delete k (work w)) w).
    assert (Hw1 : a ∉ work w1).
    { cbn. intros Hin. apply Hwork. apply list_elem_of_lookup in Hin as [j Hj].
      destruct (decide (j < k)%nat).
      - rewrite list_lookup_delete_lt in Hj by done. by eapply list_elem_of_lookup_2.
      - rewrite list_lookup_delete_ge in Hj by lia. by eapply list_elem_of_lookup_2. }
    destruct (heap w !! b) as [r|] eqn:Hr.
    + destruct (runWork_spec now b r w1 Ht Hq Hr) as (_ & _ & Hwk & Hst & Hfr & _ & Hsub).
      apply Hret; [by apply Hfr | by rewrite Hst | by rewrite Hwk |].
      intros id t Hid. destruct (Hsub id t Hid) as [Hold _]. by apply (Htim id t).
    + assert (Heq : runWork now b w1 = w1).
      { unfold runWork, handleRecordExiting. change (heap w1) with (heap w). rewrite Hr.
        unfold flushQueuedEntries. change (queuedEntries w1) with (queuedEntries w).
        by rewrite Hq. }
      rewrite Heq. by apply Hret.
Qed.

(** X19.  A record object that is not in the store, has no deferred exit
    scheduled and no timer pending is never reached again: whatever
    happens afterwards, it stays as it is, states included, and stays out
    of the store.  Such is the record that [observe] replaced when it was
    called again for an element: its states that were visible stay
    visible, and no exit is ever delivered for them. *)
Theorem retired_record_is_never_touched
    (sort : (SpanielThreshold → SpanielThreshold → Q) → list SpanielThreshold → list SpanielThreshold)
    (dom : bool) (ts : list SpanielThreshold) (evs later : list (Z * Event)) (w0 w w' : World)
    (a : nat) :
  construct sort dom (Some ts) = Some w0 →
  run evs w0 = Some w →
  is_Some (heap w !! a) →
  a ∉ (recordStore w).*2 →
  a ∉ work w →
  (∀ id t, timers w !! id = Some t → tm_rec t ≠ a) →
  run later w = Some w' →
  heap w' !! a = heap w !! a
  ∧ (∀ i, stateAt a i w' = stateAt a i w)
  ∧ (a ∉ (recordStore w').*2)
  ∧ (a ∉ work w')
  ∧ ∀ id t, timers w' !! id = Some t → tm_rec t ≠ a.
Proof.
  intros Hc Hrun H1 H2 H3 H4 Hlater.
  destruct (namesOk_reachable sort dom ts evs w0 w Hc Hrun) as [Hi Hn].
  assert (Hr : retired a w) by done.
  assert (H : retired a w' ∧ heap w' !! a = heap w !! a).
  { clear Hc Hrun H1 H2 H3 H4. revert w Hi Hn Hr Hlater.
    induction later as [|[now ev] later IH]; intros w Hi Hn Hr; cbn [run].
    - by intros [= <-].
    - destruct (step now ev w) as [w1|] eqn:Hs; [|done]. cbn. intros Hlater.
      destruct (retired_step now ev w w1 a Hi Hn Hr Hs) as [Hr1 Hh1].
      destruct (IH w1) as [Hr' Hh']; [by eapply Inv_step | by eapply namesOk_timersOk_step
                                      | done | done |].
      split; [done | congruence]. }
  destruct H as [(_ & Hs' & Hw' & Ht') Hh'].
  split; [done|]. split; [intros i; by apply stateAt_heap_at|]. by repeat split.
Qed.

Lemma retired_record_is_never_touched_witness :
  let evs := [(0, Observe 7%nat None); (3, Samples [sampleAt 7%nat (3 # 5) 0]);
              (1004, TimerFires 0%nat); (1100, Observe 7%nat None)] in
  let later := [(1200, Samples [sampleAt 7%nat (1 # 5) 1200]); (1300, PageHidden);
                (1400, PageShown); (1500, Unobserve 7%nat); (1600, WorkRuns 0%nat);
                (1700, Disconnect)] in
  let w := worldAfter [halfVisible; viewable] evs in
  let w' := worldAfter [halfVisible; viewable] (evs ++ later) in
  (∃ st, stateAt 0 1 w = Some st ∧ visible st = true)
  ∧ heap w' !! 0%nat = heap w !! 0%nat
  ∧ ∀ i, stateAt 0 i w' = stateAt 0 i w.
Proof.
  intros evs later w w'.
  destruct (retired_record_is_never_touched ArraySort.InsertionSort true
              [halfVisible; viewable] evs later (worldAfter [halfVisible; viewable] []) w w'
              0%nat eq_refl ltac:(vm_compute; reflexivity))
    as (Hh & Hst & _).
  - vm_compute. eexists. reflexivity.
  - vm_compute. intros H. repeat (apply elem_of_cons in H as [H|H]; [discriminate H|]).
    by apply elem_of_nil in H.
  - vm_compute. by intros ?%elem_of_nil.
  - intros id t. vm_compute. intros H. discriminate H.
  - vm_compute. reflexivity.
  - split; [vm_compute; eexists; split; reflexivity|]. split; [exact Hh | exact Hst].
Defined.
